(** * A shallow embedding of the MergeTree storage engine

    The development follows the C++ sources file by file: [row.h],
    [granule.h]/[granule.cpp], [sparse_index.h]/[sparse_index.cpp],
    [part.h]/[part.cpp], [memtable.cpp], [merger.h]/[merger.cpp] and
    [merge_tree.cpp].  Unsigned 64-bit values ([size_t], [uint64_t]) are
    integers in [Z] with the wrap-around written out, [double] is IEEE-754
    binary64 as specified by [SpecFloat], [std::string] is [string] compared
    byte-wise, [std::vector] is [list], a thrown [std::runtime_error] is the
    left injection of a sum. *)

From Stdlib Require Import ZArith Ascii String List Bool Lia.
From Stdlib Require Import Sorting.Sorted Sorting.Permutation.
From Stdlib Require Import Structures.OrderedTypeEx.
From Stdlib Require Import Floats.SpecFloat.
From stdpp Require Import base option list sorting gmap strings pretty.

Local Open Scope string_scope.
Local Open Scope Z_scope.
Local Open Scope list_scope.

(** ** Machine integers *)

Module SizeT.

Definition modulus : Z := 2 ^ 64.
Definition SIZE_MAX : Z := modulus - 1.

(** [a + b], [a - b] on [size_t]: the result is reduced modulo [2^64]. *)
Definition add (a b : Z) : Z := (a + b) mod modulus.
Definition sub (a b : Z) : Z := (a - b) mod modulus.

Definition in_range (a : Z) : Prop := 0 <= a < modulus.

Lemma add_in_range a b : in_range (add a b).
Proof. unfold in_range, add, modulus. apply Z.mod_pos_bound. lia. Qed.

Lemma sub_in_range a b : in_range (sub a b).
Proof. unfold in_range, sub, modulus. apply Z.mod_pos_bound. lia. Qed.


Lemma sub_no_wrap a b : 0 <= b <= a -> a < modulus -> sub a b = a - b.
Proof. intros. unfold sub. apply Z.mod_small. lia. Qed.

End SizeT.

(** ** Exceptions

    Every [throw std::runtime_error(msg)] of the sources becomes
    [inl (runtime_error msg)]; [catch (...)] sites match on the sum. *)

Inductive exception : Type :=
  | runtime_error (what : string)
  | invalid_argument (what : string)
  | out_of_range (what : string)
  | filesystem_error (what : string).

Definition Exc (A : Type) : Type := exception + A.

Definition ret {A} (a : A) : Exc A := inr a.
Definition throw {A} (msg : string) : Exc A := inl (runtime_error msg).

Definition bind {A B} (m : Exc A) (k : A -> Exc B) : Exc B :=
  match m with
  | inl e => inl e
  | inr a => k a
  end.

Notation "'do' x <- m ; k" := (bind m (fun x => k))
  (at level 10, x pattern, m at level 100, k at level 200).

(** The throw sites the engine's error kinds name: [EmptyInput] is a merge
    of no part or a write of no granule or no row. *)
Definition is_EmptyInput (e : exception) : bool :=
  match e with
  | runtime_error what =>
      String.eqb what "Cannot merge empty parts"
      || String.eqb what "Cannot write empty granules"
      || String.eqb what "Cannot write empty rows"
  | _ => false
  end.

(** ** row.h *)

Record Row : Type := mkRow {
  key : string;
  value : string;
  timestamp : Z
}.

Abbreviation RowVector := (list Row).

(** Comparison of [std::string]: lexicographic on the bytes. *)
Definition key_lt (a b : string) : bool := String.ltb a b.
Definition key_eq (a b : string) : bool := String.eqb a b.
Definition key_gt (a b : string) : bool := key_lt b a.
Definition key_le (a b : string) : bool := negb (key_lt b a).
Definition key_ge (a b : string) : bool := negb (key_lt a b).

(** [Row::operator<] *)
Definition row_lt (a b : Row) : bool :=
  if negb (key_eq (key a) (key b)) then key_lt (key a) (key b)
  else timestamp a <? timestamp b.

(** [Row::operator==] *)
Definition row_eq (a b : Row) : bool :=
  key_eq (key a) (key b) && key_eq (value a) (value b)
  && (timestamp a =? timestamp b).

(** [Row::size] *)
Definition row_size (r : Row) : Z :=
  8 + Z.of_nat (String.length (key r)) + Z.of_nat (String.length (value r)).

(** ** The C++ standard library, as far as the engine uses it *)

Section Contracts.
Context {A : Type} (comp : A -> A -> bool).

(** The C++ named requirement _Compare_: a strict weak ordering, here
    relative to the elements a call works on. *)
Definition strict_weak_order_on (l : list A) : Prop :=
  (forall x, In x l -> comp x x = false) /\
  (forall x y z, In x l -> In y l -> In z l ->
     comp x y = true -> comp y z = true -> comp x z = true) /\
  (forall x y z, In x l -> In y l -> In z l ->
     comp x y = false -> comp y x = false ->
     comp y z = false -> comp z y = false ->
     comp x z = false /\ comp z x = false).

(** [std::is_sorted]: no element is [comp]-smaller than an earlier one. *)
Definition sorted_by (l : list A) : Prop :=
  StronglySorted (fun x y => comp y x = false) l.

(** [std::unique(first, last, pred)]: of every run of consecutive
    [pred]-equivalent elements the first is kept. *)
Fixpoint unique_from (last : A) (l : list A) : list A :=
  match l with
  | [] => []
  | x :: t => if comp last x then unique_from last t
              else x :: unique_from x t
  end.

Definition std_unique (l : list A) : list A :=
  match l with
  | [] => []
  | x :: t => x :: unique_from x t
  end.

(** [std::min_element] and [std::max_element] with a comparator. *)
Definition std_min_element (l : list A) : option A :=
  match l with
  | [] => None
  | x :: t => Some (fold_left (fun smallest y => if comp y smallest then y else smallest) t x)
  end.

Definition std_max_element (l : list A) : option A :=
  match l with
  | [] => None
  | x :: t => Some (fold_left (fun largest y => if comp largest y then y else largest) t x)
  end.
End Contracts.

(** [std::sort]: for a strict weak ordering the result is a sorted
    permutation of the input; which permutation, among elements that compare
    equivalent, is left to the implementation. *)
Class StdSort : Type := {
  std_sort : forall {A : Type}, (A -> A -> bool) -> list A -> list A;
  std_sort_permutation : forall (A : Type) (comp : A -> A -> bool) (l : list A),
    strict_weak_order_on comp l -> Permutation l (std_sort comp l);
  std_sort_sorted : forall (A : Type) (comp : A -> A -> bool) (l : list A),
    strict_weak_order_on comp l -> sorted_by comp (std_sort comp l)
}.

(** [std::priority_queue<T, std::vector<T>, Compare>]: [top] is an element
    that is not [comp]-smaller than any other; which one, among equivalent
    ones, is left to the implementation.  [pq_pop] is [top] followed by
    [pop]; [pq_elements] is the content, in no particular order. *)
Class StdPriorityQueue : Type := {
  pq : Type -> Type;
  pq_new : forall {A : Type}, pq A;
  pq_push : forall {A : Type}, (A -> A -> bool) -> A -> pq A -> pq A;
  pq_pop : forall {A : Type}, (A -> A -> bool) -> pq A -> option (A * pq A);
  pq_is_empty : forall {A : Type}, pq A -> bool;
  pq_elements : forall {A : Type}, pq A -> list A;
  pq_new_elements : forall A, pq_elements (@pq_new A) = [];
  pq_push_elements : forall A (comp : A -> A -> bool) x q,
    Permutation (pq_elements (pq_push comp x q)) (x :: pq_elements q);
  pq_is_empty_elements : forall A (q : pq A),
    pq_is_empty q = true <-> pq_elements q = [];
  pq_pop_empty : forall A (comp : A -> A -> bool) q,
    pq_pop comp q = None <-> pq_elements q = [];
  pq_pop_elements : forall A (comp : A -> A -> bool) q x q',
    pq_pop comp q = Some (x, q') ->
    Permutation (pq_elements q) (x :: pq_elements q');
  pq_pop_top : forall A (comp : A -> A -> bool) q x q',
    strict_weak_order_on comp (pq_elements q) ->
    pq_pop comp q = Some (x, q') ->
    Forall (fun y => comp x y = false) (pq_elements q')
}.

(** [double]: IEEE-754 binary64, round to nearest even. *)
Module Double.

Definition double : Type := spec_float.
Definition prec : Z := 53.
Definition emax : Z := 1024.

(** [static_cast<double>(n)] for an integer [n]. *)
Definition of_Z (n : Z) : double := binary_normalize prec emax n 0 false.

Definition div (x y : double) : double := SFdiv prec emax x y.
Definition mul (x y : double) : double := SFmul prec emax x y.
Definition ltb (x y : double) : bool := SFltb x y.
Definition gtb (x y : double) : bool := SFltb y x.

(** [std::min(a, b)] is [(b < a) ? b : a]. *)
Definition min (a b : double) : double := if ltb b a then b else a.

Definition zero : double := S754_zero false.

End Double.

(** ** granule.h, granule.cpp *)

Definition GRANULE_SIZE : Z := 8192.

Module Granule.

Record t : Type := mk {
  rows_ : RowVector;
  min_key_ : string;
  max_key_ : string;
  sorted_ : bool
}.

(** [Granule::Granule()] *)
Definition new : t := mk [] "" "" false.

Definition size (g : t) : Z := Z.of_nat (length (rows_ g)).
Definition is_full (g : t) : bool := GRANULE_SIZE <=? size g.
Definition is_empty (g : t) : bool :=
  match rows_ g with [] => true | _ => false end.
Definition rows (g : t) : RowVector := rows_ g.
Definition min_key (g : t) : string := min_key_ g.
Definition max_key (g : t) : string := max_key_ g.

Definition by_key (a b : Row) : bool := key_lt (key a) (key b).

(** [Granule::update_key_range] *)
Definition update_key_range (g : t) : t :=
  match rows_ g with
  | [] => mk (rows_ g) "" "" (sorted_ g)
  | front :: _ =>
      if sorted_ g then
        mk (rows_ g) (key front) (key (List.last (rows_ g) front)) (sorted_ g)
      else
        match std_min_element by_key (rows_ g), std_max_element by_key (rows_ g) with
        | Some min_it, Some max_it => mk (rows_ g) (key min_it) (key max_it) (sorted_ g)
        | _, _ => g
        end
  end.

(** [Granule::add_row] *)
Definition add_row (g : t) (row : Row) : Exc t :=
  if is_full g then throw "Granule is full, cannot add more rows"
  else ret (update_key_range (mk (rows_ g ++ [row]) (min_key_ g) (max_key_ g) false)).

(** [Granule::sort] *)
Definition sort `{StdSort} (g : t) : t :=
  if negb (sorted_ g) then
    update_key_range (mk (std_sort row_lt (rows_ g)) (min_key_ g) (max_key_ g) true)
  else g.

(** The loop of [Granule::query_range] (and of [MemTable::query], which is
    the same loop over the bottom level of the skip list): rows inside the
    range are collected, the first row whose key is past [end_key] stops
    the scan. *)
Fixpoint scan_range (start_key end_key : string) (rows : RowVector) : RowVector :=
  match rows with
  | [] => []
  | row :: rest =>
      if key_ge (key row) start_key && key_le (key row) end_key then
        row :: scan_range start_key end_key rest
      else if key_gt (key row) end_key then []
      else scan_range start_key end_key rest
  end.

(** [Granule::query_range] *)
Definition query_range (g : t) (start_key end_key : string) : Exc RowVector :=
  if negb (sorted_ g) then throw "Granule must be sorted before querying"
  else ret (scan_range start_key end_key (rows_ g)).

(** [Granule::memory_usage], up to the constant [sizeof(Granule)]. *)
Definition memory_usage (sizeof_Granule : Z) (g : t) : Z :=
  fold_left (fun total row => SizeT.add total (row_size row)) (rows_ g) sizeof_Granule.

(** [Granule::clear] *)
Definition clear (g : t) : t := mk [] "" "" false.

End Granule.

(** ** sparse_index.h, sparse_index.cpp *)

Module IndexEntry.

Record t : Type := mk {
  min_key : string;
  max_key : string;
  granule_index : Z;
  row_count : Z
}.

(** [IndexEntry::overlaps_range] *)
Definition overlaps_range (e : t) (start_key end_key : string) : bool :=
  negb (key_lt (max_key e) start_key || key_gt (min_key e) end_key).

End IndexEntry.

Module SparseIndex.

Record t : Type := mk { entries_ : list IndexEntry.t }.

Definition new : t := mk [].
Definition entries (idx : t) : list IndexEntry.t := entries_ idx.

(** [SparseIndex::add_entry] *)
Definition add_entry (idx : t) (min_key max_key : string) (granule_index row_count : Z) : t :=
  mk (entries_ idx ++ [IndexEntry.mk min_key max_key granule_index row_count]).

(** [SparseIndex::find_granules] *)
Definition find_granules (idx : t) (start_key end_key : string) : list Z :=
  fold_left
    (fun result entry =>
       if IndexEntry.overlaps_range entry start_key end_key
       then result ++ [IndexEntry.granule_index entry]
       else result)
    (entries_ idx) [].

Definition find_granules_for_key (idx : t) (k : string) : list Z :=
  find_granules idx k k.

Definition clear (idx : t) : t := mk [].
Definition empty (idx : t) : bool := match entries_ idx with [] => true | _ => false end.
Definition size (idx : t) : Z := Z.of_nat (length (entries_ idx)).

(** The comparator of [SparseIndex::sort_entries]: by [min_key], then by
    [granule_index]. *)
Definition by_min_key (a b : IndexEntry.t) : bool :=
  if negb (key_eq (IndexEntry.min_key a) (IndexEntry.min_key b))
  then key_lt (IndexEntry.min_key a) (IndexEntry.min_key b)
  else IndexEntry.granule_index a <? IndexEntry.granule_index b.

(** [SparseIndex::sort_entries] *)
Definition sort_entries `{StdSort} (idx : t) : t :=
  mk (std_sort by_min_key (entries_ idx)).

(** [SparseIndex::merge_with]: the entries of [other] are appended with
    their granule index moved by [granule_offset], on [size_t]; then all
    entries are sorted. *)
Definition merge_with `{StdSort} (idx other : t) (granule_offset : Z) : t :=
  sort_entries
    (mk (fold_left
           (fun entries entry =>
              entries ++ [IndexEntry.mk (IndexEntry.min_key entry) (IndexEntry.max_key entry)
                            (SizeT.add (IndexEntry.granule_index entry) granule_offset)
                            (IndexEntry.row_count entry)])
           (entries_ other) (entries_ idx))).

End SparseIndex.

(** ** The data directory

    [Disk.t] is the content of [base_path]: its immediate children by name.
    A part directory holds [metadata.bin], [primary.idx] and, for a granule
    index [i], the three column files [granule_<i>_keys.bin],
    [granule_<i>_values.bin] and [granule_<i>_timestamps.bin]; the files are
    kept here by their decoded content, the three column files of one
    granule as the rows they encode.  A file that is absent cannot be
    opened. *)

Module PartMetadata.

Record t : Type := mk {
  part_id : Z;
  min_key : string;
  max_key : string;
  min_timestamp : Z;
  max_timestamp : Z;
  row_count : Z;
  granule_count : Z;
  disk_size : Z;
  creation_time : Z
}.

(** [PartMetadata(size_t id)]; the two timestamps are left uninitialised by
    the constructor and are assigned before they are first read. *)
Definition new (id : Z) : t := mk id "" "" 0 0 0 0 0 0.

End PartMetadata.

Module Disk.

Record part_dir : Type := mk_dir {
  metadata_bin : option PartMetadata.t;
  primary_idx : option (list IndexEntry.t);
  granule_bin : gmap Z RowVector
}.

Inductive entry : Type :=
  | regular_file
  | directory (d : part_dir).

Abbreviation t := (gmap string entry).

Definition empty_dir : part_dir := mk_dir None None ∅.

End Disk.

(** [std::to_string] on a [size_t] *)
Definition to_string (n : Z) : string := pretty n.

(** ** serialization.cpp *)

Module Serialization.

(** Bytes written by [write_string]: a [uint64_t] length and the bytes. *)
Definition string_bytes (s : string) : Z := 8 + Z.of_nat (String.length s).

(** Bytes written by [write_string_vector] and [write_uint64_vector]. *)
Definition string_vector_bytes (l : list string) : Z :=
  fold_left (fun total s => total + string_bytes s) l 8.
Definition uint64_vector_bytes (l : list Z) : Z := 8 + 8 * Z.of_nat (length l).

(** [Serialization::write_granule]: the three column files of granule
    [granule_index] are (re)written. *)
Definition write_granule (d : Disk.part_dir) (granule : Granule.t) (granule_index : Z) : Disk.part_dir :=
  Disk.mk_dir (Disk.metadata_bin d) (Disk.primary_idx d)
    (<[granule_index := Granule.rows granule]> (Disk.granule_bin d)).

(** The [add_row] loop of [read_granule]. *)
Fixpoint add_rows (g : Granule.t) (rows : RowVector) : Exc Granule.t :=
  match rows with
  | [] => ret g
  | row :: rest => do g' <- Granule.add_row g row; add_rows g' rest
  end.

(** [Serialization::read_granule] *)
Definition read_granule `{StdSort} (dir_name : string) (d : Disk.part_dir) (granule_index : Z) : Exc Granule.t :=
  match Disk.granule_bin d !! granule_index with
  | None =>
      throw ("Cannot open file for reading: " +:+ dir_name +:+ "/granule_"
             +:+ to_string granule_index +:+ "_keys.bin")
  | Some rows =>
      do granule <- add_rows Granule.new rows;
      ret (Granule.sort granule)
  end.

(** Size in bytes of the files of one granule. *)
Definition granule_bytes (rows : RowVector) : Z :=
  string_vector_bytes (map key rows) + string_vector_bytes (map value rows)
  + uint64_vector_bytes (map timestamp rows).

(** Size in bytes of [metadata.bin] and of [primary.idx]. *)
Definition metadata_bytes (m : PartMetadata.t) : Z :=
  8 + string_bytes (PartMetadata.min_key m) + string_bytes (PartMetadata.max_key m) + 6 * 8.
Definition index_bytes (entries : list IndexEntry.t) : Z :=
  fold_left
    (fun total e => total + string_bytes (IndexEntry.min_key e)
                    + string_bytes (IndexEntry.max_key e) + 16)
    entries 8.

End Serialization.

(** ** part.h, part.cpp

    The functions that touch the file system take the content of
    [base_path] and return the new content with their result; [now] is the
    reading of the system clock. *)

Module Part.

Record t : Type := mk {
  metadata_ : PartMetadata.t;
  base_path_ : string;
  granules_ : list Granule.t;
  index_ : SparseIndex.t;
  loaded_ : bool
}.

(** [Part::Part(part_id, base_path)] *)
Definition new (part_id : Z) (base_path : string) : t :=
  mk (PartMetadata.new part_id) base_path [] SparseIndex.new false.

Definition metadata (p : t) : PartMetadata.t := metadata_ p.
Definition is_loaded (p : t) : bool := loaded_ p.

(** The name of the part directory inside [base_path], and
    [Part::part_directory]. *)
Definition dir_name (p : t) : string :=
  "part_" +:+ to_string (PartMetadata.part_id (metadata_ p)).
Definition part_directory (p : t) : string := base_path_ p +:+ "/" +:+ dir_name p.

(** [Part::exists_on_disk] *)
Definition exists_on_disk (disk : Disk.t) (p : t) : bool :=
  match disk !! dir_name p with
  | Some (Disk.directory d) =>
      match Disk.metadata_bin d with Some _ => true | None => false end
  | _ => false
  end.

(** [Part::disk_usage]: the sizes of the regular files of the part
    directory, summed. *)
Definition disk_usage (disk : Disk.t) (p : t) : Z :=
  if negb (exists_on_disk disk p) then 0
  else
    match disk !! dir_name p with
    | Some (Disk.directory d) =>
        let total := 0 in
        let total :=
          match Disk.metadata_bin d with
          | Some m => SizeT.add total (Serialization.metadata_bytes m)
          | None => total
          end in
        let total :=
          match Disk.primary_idx d with
          | Some ix => SizeT.add total (Serialization.index_bytes ix)
          | None => total
          end in
        map_fold (fun _ rows total => SizeT.add total (Serialization.granule_bytes rows))
                 total (Disk.granule_bin d)
    | _ => 0
    end.

(** [Part::overlaps_range] *)
Definition overlaps_range (p : t) (start_key end_key : string) : bool :=
  negb (key_lt (PartMetadata.max_key (metadata_ p)) start_key
        || key_gt (PartMetadata.min_key (metadata_ p)) end_key).

(** [Part::update_metadata] *)
Definition update_metadata (now : Z) (m : PartMetadata.t) (granules : list Granule.t) : PartMetadata.t :=
  let m := PartMetadata.mk (PartMetadata.part_id m) (PartMetadata.min_key m)
             (PartMetadata.max_key m) (PartMetadata.min_timestamp m)
             (PartMetadata.max_timestamp m) 0 (Z.of_nat (length granules))
             (PartMetadata.disk_size m) now in
  match granules with
  | [] => m
  | front :: _ =>
      let back := List.last granules front in
      let '(row_count, min_ts, max_ts) :=
        fold_left
          (fun '(row_count, min_ts, max_ts) granule =>
             fold_left
               (fun '(row_count, min_ts, max_ts) row =>
                  (row_count, Z.min min_ts (timestamp row), Z.max max_ts (timestamp row)))
               (Granule.rows granule)
               (SizeT.add row_count (Granule.size granule), min_ts, max_ts))
          granules (0, SizeT.SIZE_MAX, 0) in
      PartMetadata.mk (PartMetadata.part_id m) (Granule.min_key front)
        (Granule.max_key back) min_ts max_ts row_count
        (PartMetadata.granule_count m) (PartMetadata.disk_size m)
        (PartMetadata.creation_time m)
  end.

(** [Part::build_index] *)
Definition build_index (granules : list Granule.t) : SparseIndex.t :=
  fst (fold_left
         (fun '(index, i) granule =>
            (if negb (Granule.is_empty granule)
             then SparseIndex.add_entry index (Granule.min_key granule)
                    (Granule.max_key granule) i (Granule.size granule)
             else index,
             i + 1))
         granules (SparseIndex.clear SparseIndex.new, 0)).

(** [Part::create_directory] *)
Definition create_directory (disk : Disk.t) (p : t) : Exc (Disk.t * Disk.part_dir) :=
  match disk !! dir_name p with
  | None => ret (<[dir_name p := Disk.directory Disk.empty_dir]> disk, Disk.empty_dir)
  | Some (Disk.directory d) => ret (disk, d)
  | Some Disk.regular_file => inl (filesystem_error (part_directory p))
  end.

(** [Part::write_granules] *)
Definition write_granules `{StdSort} (now : Z) (disk : Disk.t) (p : t)
    (granules : list Granule.t) : Exc (Disk.t * t) :=
  match granules with
  | [] => throw "Cannot write empty granules"
  | _ =>
      do (disk, d) <- create_directory disk p;
      let granules_ := map Granule.sort granules in
      let metadata_ := update_metadata now (metadata_ p) granules_ in
      let index_ := build_index granules_ in
      let d :=
        fst (fold_left
               (fun '(d, i) granule => (Serialization.write_granule d granule i, i + 1))
               granules_ (d, 0)) in
      let d := Disk.mk_dir (Disk.metadata_bin d) (Some (SparseIndex.entries index_))
                 (Disk.granule_bin d) in
      let d := Disk.mk_dir (Some metadata_) (Disk.primary_idx d) (Disk.granule_bin d) in
      ret (<[dir_name p := Disk.directory d]> disk,
           mk metadata_ (base_path_ p) granules_ index_ true)
  end.

(** The packing loop of [Part::write_from_memtable_rows]: a full granule is
    sealed before the next row is added. *)
Fixpoint pack_rows `{StdSort} (rows : RowVector) (granules : list Granule.t)
    (current_granule : Granule.t) : Exc (list Granule.t * Granule.t) :=
  match rows with
  | [] => ret (granules, current_granule)
  | row :: rest =>
      let '(granules, current_granule) :=
        if Granule.is_full current_granule
        then (granules ++ [Granule.sort current_granule], Granule.new)
        else (granules, current_granule) in
      do current_granule <- Granule.add_row current_granule row;
      pack_rows rest granules current_granule
  end.

(** [Part::write_from_memtable_rows] *)
Definition write_from_memtable_rows `{StdSort} (now : Z) (disk : Disk.t) (p : t)
    (rows : RowVector) : Exc (Disk.t * t) :=
  match rows with
  | [] => throw "Cannot write empty rows"
  | _ =>
      let sorted_rows := std_sort row_lt rows in
      do (granules, current_granule) <- pack_rows sorted_rows [] Granule.new;
      let granules :=
        if negb (Granule.is_empty current_granule)
        then granules ++ [Granule.sort current_granule]
        else granules in
      write_granules now disk p granules
  end.

(** The granule loop of [Part::load]: granules [i], [i + 1], ... are read,
    [count] of them. *)
Fixpoint read_granules `{StdSort} (dir : string) (d : Disk.part_dir) (i : Z) (count : nat)
    : Exc (list Granule.t) :=
  match count with
  | O => ret []
  | S count' =>
      do granule <- Serialization.read_granule dir d i;
      do rest <- read_granules dir d (i + 1) count';
      ret (granule :: rest)
  end.

(** [Part::load], with [load_metadata] and [load_index] *)
Definition load `{StdSort} (disk : Disk.t) (p : t) : Exc t :=
  if loaded_ p then ret p
  else if negb (exists_on_disk disk p)
  then throw ("Part does not exist on disk: " +:+ part_directory p)
  else
    match disk !! dir_name p with
    | Some (Disk.directory d) =>
        match Disk.metadata_bin d with
        | None => throw ("Cannot load metadata: " +:+ part_directory p +:+ "/metadata.bin")
        | Some metadata_ =>
            let dir := base_path_ p +:+ "/part_" +:+ to_string (PartMetadata.part_id metadata_) in
            match disk !! ("part_" +:+ to_string (PartMetadata.part_id metadata_)) with
            | Some (Disk.directory d) =>
                match Disk.primary_idx d with
                | None => throw ("Cannot open file for reading: " +:+ dir +:+ "/primary.idx")
                | Some entries =>
                    do granules_ <-
                      read_granules dir d 0 (Z.to_nat (PartMetadata.granule_count metadata_));
                    ret (mk metadata_ (base_path_ p) granules_ (SparseIndex.mk entries) true)
                end
            | _ => throw ("Cannot open file for reading: " +:+ dir +:+ "/primary.idx")
            end
        end
    | _ => throw ("Part does not exist on disk: " +:+ part_directory p)
    end.

(** The granule loop of [Part::query]. *)
Fixpoint query_granules (granules : list Granule.t) (granule_indices : list Z)
    (start_key end_key : string) (result : RowVector) : Exc RowVector :=
  match granule_indices with
  | [] => ret result
  | granule_idx :: rest =>
      if granule_idx <? Z.of_nat (length granules) then
        match granules !! Z.to_nat granule_idx with
        | Some granule =>
            do granule_results <- Granule.query_range granule start_key end_key;
            query_granules granules rest start_key end_key (result ++ granule_results)
        | None => query_granules granules rest start_key end_key result
        end
      else query_granules granules rest start_key end_key result
  end.

(** [Part::query]; the part is returned as the lazy load leaves it. *)
Definition query `{StdSort} (disk : Disk.t) (p : t) (start_key end_key : string)
    : Exc (RowVector * t) :=
  do p <- (if negb (loaded_ p) then load disk p else ret p);
  if negb (overlaps_range p start_key end_key) then ret ([], p)
  else
    let granule_indices := SparseIndex.find_granules (index_ p) start_key end_key in
    do result <- query_granules (granules_ p) granule_indices start_key end_key [];
    ret (result, p).

(** [Part::get_all_rows] *)
Definition get_all_rows `{StdSort} (disk : Disk.t) (p : t) : Exc (RowVector * t) :=
  do p <- (if negb (loaded_ p) then load disk p else ret p);
  ret (fold_left (fun result granule => result ++ Granule.rows granule) (granules_ p) [], p).

(** [Part::unload] *)
Definition unload (p : t) : t :=
  mk (metadata_ p) (base_path_ p) [] (index_ p) false.

(** [Part::query_key] *)
Definition query_key `{StdSort} (disk : Disk.t) (p : t) (k : string) : Exc (RowVector * t) :=
  query disk p k k.

(** [Part::delete_from_disk] *)
Definition delete_from_disk (disk : Disk.t) (p : t) : Disk.t * t :=
  (if exists_on_disk disk p then delete (dir_name p) disk else disk, unload p).

End Part.

(** ** memtable.cpp

    The skip list is kept by its bottom level, the chain
    [header_->forward[0]], which is the only level [query],
    [get_all_rows] and [flush_to_granules] walk; the upper levels are
    shortcuts into this chain chosen at random. *)

Module MemTable.

Record t : Type := mk {
  nodes : RowVector;
  size_ : Z
}.

(** [MemTable::MemTable()] *)
Definition new : t := mk [] 0.

(** Where [MemTable::insert] links the new node on the bottom level: after
    the last node whose row is smaller than [row]. *)
Fixpoint link (row : Row) (nodes : RowVector) : RowVector :=
  match nodes with
  | [] => [row]
  | data :: forward => if row_lt data row then data :: link row forward
                       else row :: nodes
  end.

(** [MemTable::insert] *)
Definition insert (m : t) (row : Row) : t :=
  mk (link row (nodes m)) (SizeT.add (size_ m) 1).

(** [MemTable::query] *)
Definition query (m : t) (start_key end_key : string) : RowVector :=
  Granule.scan_range start_key end_key (nodes m).

Definition empty (m : t) : bool := size_ m =? 0.
Definition size (m : t) : Z := size_ m.

(** [MemTable::clear] *)
Definition clear (m : t) : t := mk [] 0.

(** [MemTable::get_all_rows] *)
Definition get_all_rows (m : t) : RowVector := nodes m.

(** [MemTable::query_key] *)
Definition query_key (m : t) (k : string) : RowVector := query m k k.

(** [MemTable::flush_to_granules]; its loop is the loop of
    [Part::write_from_memtable_rows], over the bottom level of the skip
    list.  The memtable is left as it is. *)
Definition flush_to_granules `{StdSort} (m : t) : Exc (list Granule.t) :=
  if size_ m =? 0 then ret []
  else
    do (granules, current_granule) <- Part.pack_rows (nodes m) [] Granule.new;
    ret (if negb (Granule.is_empty current_granule)
         then granules ++ [Granule.sort current_granule]
         else granules).

End MemTable.

(** ** merger.h, merger.cpp *)

Module MergeIterator.

Record RowWithSource : Type := mkSource {
  row : Row;
  part_index : nat;
  row_index : nat
}.

(** [RowWithSource::operator>], the order of the heap through
    [std::greater]. *)
Definition greater (a b : RowWithSource) : bool :=
  key_gt (key (row a)) (key (row b))
  || (key_eq (key (row a)) (key (row b)) && (timestamp (row a) <? timestamp (row b))).

Section Iterator.
Context `{StdPriorityQueue}.

Record t : Type := mk {
  part_rows_ : list RowVector;
  current_indices_ : list nat;
  heap_ : pq RowWithSource
}.

(** [MergeIterator::initialize_heap] *)
Definition initialize_heap (it : t) : t :=
  mk (part_rows_ it) (current_indices_ it)
    (fst (fold_left
            (fun '(heap, i) rows =>
               (match rows with
                | [] => heap
                | front :: _ => pq_push greater (mkSource front i 0) heap
                end,
                S i))
            (part_rows_ it) (heap_ it, O))).

(** [MergeIterator::MergeIterator], from the rows [get_all_rows] gave for
    each part. *)
Definition new (part_rows : list RowVector) : t :=
  initialize_heap (mk part_rows (replicate (length part_rows) O) pq_new).

(** [MergeIterator::has_next] *)
Definition has_next (it : t) : bool := negb (pq_is_empty (heap_ it)).

(** [MergeIterator::advance_part] *)
Definition advance_part (it : t) (part_index : nat) : t :=
  match current_indices_ it !! part_index, part_rows_ it !! part_index with
  | Some index, Some rows =>
      let current_indices := <[part_index := S index]> (current_indices_ it) in
      match rows !! S index with
      | Some row =>
          mk (part_rows_ it) current_indices
             (pq_push greater (mkSource row part_index (S index)) (heap_ it))
      | None => mk (part_rows_ it) current_indices (heap_ it)
      end
  | _, _ => it
  end.

(** [MergeIterator::next] *)
Definition next (it : t) : Exc (Row * t) :=
  match pq_pop greater (heap_ it) with
  | None => throw "No more rows to merge"
  | Some (current, heap) =>
      ret (row current,
           advance_part (mk (part_rows_ it) (current_indices_ it) heap) (part_index current))
  end.

End Iterator.

Arguments t {_}.

End MergeIterator.

(** [std::vector::operator[]] does not check its index: reading past the
    end is undefined behaviour, which the model reports instead of
    returning a value. *)
Inductive checked (A : Type) : Type :=
  | defined (a : A)
  | out_of_bounds (index size : Z).
Arguments defined {A} a.
Arguments out_of_bounds {A} index size.

Definition at_index {A} (v : list A) (i : Z) : checked A :=
  if (0 <=? i) && (i <? Z.of_nat (length v)) then
    match v !! Z.to_nat i with
    | Some a => defined a
    | None => out_of_bounds i (Z.of_nat (length v))
    end
  else out_of_bounds i (Z.of_nat (length v)).

Definition checked_bind {A B} (m : checked A) (k : A -> checked B) : checked B :=
  match m with
  | defined a => k a
  | out_of_bounds i n => out_of_bounds i n
  end.

Notation "'get' x <- m ; k" := (checked_bind m (fun x => k))
  (at level 10, x pattern, m at level 100, k at level 200).

(** [for (size_t i = lo; i < hi && cond; ++i) body]: at most [hi - lo]
    iterations, fewer when [cond] fails. *)
Fixpoint for_range {S : Type} (count : nat) (i : Z) (cond : S -> bool)
    (body : Z -> S -> checked S) (s : S) : checked S :=
  match count with
  | O => defined s
  | Datatypes.S count' =>
      if cond s then get s' <- body i s; for_range count' (i + 1) cond body s'
      else defined s
  end.

Definition for_loop {S : Type} (lo hi : Z) (cond : S -> bool)
    (body : Z -> S -> checked S) (s : S) : checked S :=
  for_range (Z.to_nat (hi - lo)) lo cond body s.

Module MergeCandidate.

Record t : Type := mk {
  part_indices : list Z;
  total_rows : Z;
  total_size : Z;
  score : Double.double
}.

(** The comparator handed to [std::sort]: [a.score > b.score]. *)
Definition by_score_desc (a b : t) : bool := Double.gtb (score a) (score b).

End MergeCandidate.

Module Merger.

Record t : Type := mk {
  base_path_ : string;
  next_part_id_ : Z
}.

(** [Merger::Merger] *)
Definition new (base_path : string) : t := mk base_path 1.

Definition get_next_part_id (m : t) : Z := next_part_id_ m.
Definition set_next_part_id (m : t) (id : Z) : t := mk (base_path_ m) id.

Definition vector_size {A} (v : list A) : Z := Z.of_nat (length v).

(** The accumulation loop of [calculate_merge_score]; [None] is the early
    [return 0.0] on an index that is not a part. *)
Fixpoint score_totals (disk : Disk.t) (parts : list Part.t) (part_indices : list Z)
    (acc : Z * Z * Z * Z) : option (Z * Z * Z * Z) :=
  match part_indices with
  | [] => Some acc
  | idx :: rest =>
      if vector_size parts <=? idx then None
      else
        match parts !! Z.to_nat idx with
        | None => None
        | Some part =>
            let '(total_rows, total_size, min_size, max_size) := acc in
            let part_size := Part.disk_usage disk part in
            score_totals disk parts rest
              (SizeT.add total_rows (PartMetadata.row_count (Part.metadata part)),
               SizeT.add total_size part_size,
               Z.min min_size part_size,
               Z.max max_size part_size)
        end
  end.

(** [Merger::calculate_merge_score] *)
Definition calculate_merge_score (disk : Disk.t) (part_indices : list Z)
    (parts : list Part.t) : Double.double :=
  match part_indices with
  | [] => Double.zero
  | _ =>
      match score_totals disk parts part_indices (0, 0, SizeT.SIZE_MAX, 0) with
      | None => Double.zero
      | Some (total_rows, total_size, min_size, max_size) =>
          if (total_rows =? 0) || (total_size =? 0) then Double.zero
          else
            let size_ratio := Double.div (Double.of_Z min_size) (Double.of_Z max_size) in
            let parts_factor :=
              Double.div (Double.of_Z 1) (Double.of_Z (vector_size part_indices)) in
            let size_factor :=
              Double.min (Double.of_Z 1)
                (Double.div (Double.of_Z total_size) (Double.of_Z (10 * 1024 * 1024))) in
            Double.mul (Double.mul (Double.mul size_ratio parts_factor) size_factor)
              (Double.of_Z 100)
      end
  end.

Definition below_cap (max_candidates : Z) (candidates : list MergeCandidate.t) : bool :=
  vector_size candidates <? max_candidates.

Definition push_if_positive (candidate : MergeCandidate.t)
    (candidates : list MergeCandidate.t) : list MergeCandidate.t :=
  if Double.gtb (MergeCandidate.score candidate) (Double.of_Z 0)
  then candidates ++ [candidate] else candidates.

(** The body of the inner loop over pairs. *)
Definition pair_body (disk : Disk.t) (parts : list Part.t) (i j : Z)
    (candidates : list MergeCandidate.t) : checked (list MergeCandidate.t) :=
  get part_i <- at_index parts i;
  get part_j <- at_index parts j;
  let part_indices := [i; j] in
  let candidate :=
    MergeCandidate.mk part_indices
      (SizeT.add (PartMetadata.row_count (Part.metadata part_i))
                 (PartMetadata.row_count (Part.metadata part_j)))
      (SizeT.add (Part.disk_usage disk part_i) (Part.disk_usage disk part_j))
      (calculate_merge_score disk part_indices parts) in
  defined (push_if_positive candidate candidates).

(** The two nested loops over [i] and [j > i]. *)
Definition pair_loops (disk : Disk.t) (parts : list Part.t) (max_candidates : Z)
    (candidates : list MergeCandidate.t) : checked (list MergeCandidate.t) :=
  for_loop 0 (vector_size parts) (below_cap max_candidates)
    (fun i candidates =>
       for_loop (i + 1) (vector_size parts) (below_cap max_candidates)
         (fun j candidates => pair_body disk parts i j candidates)
         candidates)
    candidates.

(** The bound [parts.size() - 2] of the loop over triples, computed on
    [size_t]. *)
Definition triple_loop_bound (parts : list Part.t) : Z :=
  SizeT.sub (vector_size parts) 2.

(** The body of the loop over triples. *)
Definition triple_body (disk : Disk.t) (parts : list Part.t) (i : Z)
    (candidates : list MergeCandidate.t) : checked (list MergeCandidate.t) :=
  get part_i <- at_index parts i;
  get part_i1 <- at_index parts (i + 1);
  get part_i2 <- at_index parts (i + 2);
  let part_indices := [i; i + 1; i + 2] in
  let candidate :=
    MergeCandidate.mk part_indices
      (SizeT.add (SizeT.add (PartMetadata.row_count (Part.metadata part_i))
                            (PartMetadata.row_count (Part.metadata part_i1)))
                 (PartMetadata.row_count (Part.metadata part_i2)))
      (SizeT.add (SizeT.add (Part.disk_usage disk part_i) (Part.disk_usage disk part_i1))
                 (Part.disk_usage disk part_i2))
      (calculate_merge_score disk part_indices parts) in
  defined (push_if_positive candidate candidates).

Definition triple_loop (disk : Disk.t) (parts : list Part.t) (max_candidates : Z)
    (candidates : list MergeCandidate.t) : checked (list MergeCandidate.t) :=
  for_loop 0 (triple_loop_bound parts) (below_cap max_candidates)
    (fun i candidates => triple_body disk parts i candidates)
    candidates.

(** The early return of [select_merge_candidates]: the loops are reached
    only with two parts or more. *)
Definition reaches_loops (parts : list Part.t) : bool :=
  negb (vector_size parts <? 2).

(** [Merger::select_merge_candidates] *)
Definition select_merge_candidates `{StdSort} (disk : Disk.t) (parts : list Part.t)
    (max_candidates : Z) : checked (list MergeCandidate.t) :=
  let candidates := [] in
  if negb (reaches_loops parts) then defined candidates
  else
    get candidates <- pair_loops disk parts max_candidates candidates;
    get candidates <- triple_loop disk parts max_candidates candidates;
    defined (std_sort MergeCandidate.by_score_desc candidates).

Section Merge.
Context `{StdSort} `{StdPriorityQueue}.

(** The test of [merge_rows] that keeps a row: the output is empty or its
    last row differs in key or timestamp. *)
Definition differs_from_back (merged_rows : RowVector) (current_row : Row) : bool :=
  match merged_rows with
  | [] => true
  | front :: _ =>
      let back := List.last merged_rows front in
      negb (key_eq (key back) (key current_row))
      || negb (timestamp back =? timestamp current_row)
  end.

(** The [while (iterator.has_next())] loop of [merge_rows]; [fuel] bounds
    the number of iterations. *)
Fixpoint merge_loop (fuel : nat) (iterator : MergeIterator.t) (merged_rows : RowVector)
    : Exc (RowVector * MergeIterator.t) :=
  match fuel with
  | O => ret (merged_rows, iterator)
  | S fuel' =>
      if MergeIterator.has_next iterator then
        do (current_row, iterator) <- MergeIterator.next iterator;
        merge_loop fuel' iterator
          (if differs_from_back merged_rows current_row
           then merged_rows ++ [current_row] else merged_rows)
      else ret (merged_rows, iterator)
  end.

(** The rows of every part, as the constructor of [MergeIterator] fetches
    them. *)
Fixpoint fetch_rows (disk : Disk.t) (parts : list Part.t) : Exc (list RowVector) :=
  match parts with
  | [] => ret []
  | part :: rest =>
      do (rows, _) <- Part.get_all_rows disk part;
      do others <- fetch_rows disk rest;
      ret (rows :: others)
  end.

(** Every iteration consumes one row, so the loop ends within as many
    iterations as there are rows. *)
Definition merge_fuel (part_rows : list RowVector) : nat :=
  S (length (concat part_rows)).

(** [Merger::merge_rows], after the rows are fetched. *)
Definition merge_fetched (part_rows : list RowVector) : Exc (RowVector * MergeIterator.t) :=
  merge_loop (merge_fuel part_rows) (MergeIterator.new part_rows) [].

(** [Merger::merge_rows] *)
Definition merge_rows (disk : Disk.t) (parts : list Part.t) : Exc RowVector :=
  match parts with
  | [] => ret []
  | _ =>
      do part_rows <- fetch_rows disk parts;
      do (merged_rows, _) <- merge_fetched part_rows;
      ret merged_rows
  end.

(** [Merger::merge_parts] *)
Definition merge_parts (now : Z) (m : t) (disk : Disk.t) (parts : list Part.t)
    : Exc (Disk.t * Part.t) :=
  match parts with
  | [] => throw "Cannot merge empty parts"
  | [part] => ret (disk, part)
  | _ =>
      do merged_rows <- merge_rows disk parts;
      match merged_rows with
      | [] => throw "Merge resulted in empty rows"
      | _ =>
          let merged_part := Part.new (get_next_part_id m) (base_path_ m) in
          Part.write_from_memtable_rows now disk merged_part merged_rows
      end
  end.

End Merge.

End Merger.

(** ** merge_tree.h, merge_tree.cpp

    The model is that of one thread: one call runs at a time.  With
    [enable_background_merge] the constructor starts
    [background_merge_worker], which flushes and merges between and during
    the calls of the owner; the worker, the mutexes and [shutdown] are not
    part of the model.  What is proved of one call from a given state holds
    for the call as such; what is proved of a sequence of calls is stated
    for an engine constructed with [enable_background_merge] off. *)

(** [std::stoull(str)] in base 10, which is [strtoull]: leading white space
    is skipped, a sign is accepted, the longest run of digits is converted;
    no digit is [std::invalid_argument], a value above [ULLONG_MAX] is
    [std::out_of_range]; a minus sign negates on [unsigned long long]. *)
Module Stoull.

Definition isspace (c : ascii) : bool :=
  let n := Z.of_N (N_of_ascii c) in
  (n =? 32) || ((9 <=? n) && (n <=? 13)).

Definition digit_value (c : ascii) : option Z :=
  let n := Z.of_N (N_of_ascii c) in
  if (48 <=? n) && (n <=? 57) then Some (n - 48) else None.

Fixpoint skip_spaces (s : string) : string :=
  match s with
  | String c rest => if isspace c then skip_spaces rest else s
  | EmptyString => s
  end.

Fixpoint digits_value (acc : Z) (s : string) : Z :=
  match s with
  | String c rest =>
      match digit_value c with
      | Some d => digits_value (acc * 10 + d) rest
      | None => acc
      end
  | EmptyString => acc
  end.

Definition stoull (str : string) : Exc Z :=
  let s := skip_spaces str in
  let '(negative, s) :=
    match s with
    | String "-" rest => (true, rest)
    | String "+" rest => (false, rest)
    | _ => (false, s)
    end in
  match s with
  | String c _ =>
      match digit_value c with
      | None => inl (invalid_argument "stoull")
      | Some _ =>
          let v := digits_value 0 s in
          if SizeT.SIZE_MAX <? v then inl (out_of_range "stoull")
          else ret (if negative then SizeT.sub 0 v else v)
      end
  | EmptyString => inl (invalid_argument "stoull")
  end.

End Stoull.

(** [std::string::substr(pos)] for [pos] inside the string. *)
Fixpoint substr_from (pos : nat) (s : string) : string :=
  match pos, s with
  | O, _ => s
  | S pos', String _ rest => substr_from pos' rest
  | S _, EmptyString => EmptyString
  end.

Module MergeTreeConfig.

Record t : Type := mk {
  memtable_flush_threshold : Z;
  max_parts : Z;
  merge_interval_seconds : Z;
  enable_background_merge : bool
}.

Definition default : t := mk 1000 10 30 true.

End MergeTreeConfig.

Module MergeTree.

Record t : Type := mk {
  config_ : MergeTreeConfig.t;
  base_path_ : string;
  memtable_ : MemTable.t;
  parts_ : list Part.t;
  merger_ : Merger.t
}.

(** The first loop of [load_existing_parts]: the ids of the directories
    whose name starts with [part_] and continues with something [stoull]
    converts; what [stoull] throws is swallowed by [catch (...)]. *)
Fixpoint scan_part_ids (entries : list (string * Disk.entry)) (part_ids : list Z) : list Z :=
  match entries with
  | [] => part_ids
  | (dirname, entry) :: rest =>
      match entry with
      | Disk.directory _ =>
          if String.eqb (substring 0 5 dirname) "part_" then
            let id_str := substr_from 5 dirname in
            match Stoull.stoull id_str with
            | inr part_id => scan_part_ids rest (part_ids ++ [part_id])
            | inl _ => scan_part_ids rest part_ids
            end
          else scan_part_ids rest part_ids
      | Disk.regular_file => scan_part_ids rest part_ids
      end
  end.

(** The second loop of [load_existing_parts]. *)
Fixpoint push_existing_parts (disk : Disk.t) (base_path : string) (part_ids : list Z)
    (parts : list Part.t) : list Part.t :=
  match part_ids with
  | [] => parts
  | part_id :: rest =>
      let part := Part.new part_id base_path in
      push_existing_parts disk base_path rest
        (if Part.exists_on_disk disk part then parts ++ [part] else parts)
  end.

(** [MergeTree::load_existing_parts]; [base_path] exists, the constructor
    has created it. *)
Definition load_existing_parts `{StdSort} (disk : Disk.t) (engine : t) : t :=
  let part_ids := scan_part_ids (map_to_list disk) [] in
  let part_ids := std_sort Z.ltb part_ids in
  let parts_ := push_existing_parts disk (base_path_ engine) part_ids (parts_ engine) in
  let merger_ :=
    match part_ids with
    | [] => merger_ engine
    | front :: _ =>
        Merger.set_next_part_id (merger_ engine) (SizeT.add (List.last part_ids front) 1)
    end in
  mk (config_ engine) (base_path_ engine) (memtable_ engine) parts_ merger_.

(** [MergeTree::MergeTree(base_path, config)]: the engine the constructor
    leaves.  The thread it starts when [enable_background_merge] is set is
    not followed, see above. *)
Definition new `{StdSort} (disk : Disk.t) (base_path : string) (config : MergeTreeConfig.t) : t :=
  load_existing_parts disk
    (mk config base_path MemTable.new [] (Merger.new base_path)).

(** [MergeTree::get_next_part_id] *)
Definition get_next_part_id (engine : t) : Z * t :=
  let id := Merger.get_next_part_id (merger_ engine) in
  (id, mk (config_ engine) (base_path_ engine) (memtable_ engine) (parts_ engine)
          (Merger.set_next_part_id (merger_ engine) (SizeT.add id 1))).

(** [MergeTree::flush_memtable] *)
Definition flush_memtable `{StdSort} (now : Z) (disk : Disk.t) (engine : t) : Exc (Disk.t * t) :=
  if MemTable.empty (memtable_ engine) then ret (disk, engine)
  else
    let rows := MemTable.get_all_rows (memtable_ engine) in
    let engine := mk (config_ engine) (base_path_ engine) (MemTable.clear (memtable_ engine))
                    (parts_ engine) (merger_ engine) in
    match rows with
    | [] => ret (disk, engine)
    | _ =>
        let '(id, engine) := get_next_part_id engine in
        let new_part := Part.new id (base_path_ engine) in
        do (disk, new_part) <- Part.write_from_memtable_rows now disk new_part rows;
        ret (disk, mk (config_ engine) (base_path_ engine) (memtable_ engine)
                     (parts_ engine ++ [new_part]) (merger_ engine))
    end.

(** [MergeTree::trigger_flush_if_needed] *)
Definition trigger_flush_if_needed `{StdSort} (now : Z) (disk : Disk.t) (engine : t)
    : Exc (Disk.t * t) :=
  let should_flush :=
    MergeTreeConfig.memtable_flush_threshold (config_ engine) <=? MemTable.size (memtable_ engine) in
  if should_flush then flush_memtable now disk engine else ret (disk, engine).

(** [MergeTree::insert] *)
Definition insert `{StdSort} (now : Z) (disk : Disk.t) (engine : t) (row : Row)
    : Exc (Disk.t * t) :=
  let engine := mk (config_ engine) (base_path_ engine)
                  (MemTable.insert (memtable_ engine) row) (parts_ engine) (merger_ engine) in
  trigger_flush_if_needed now disk engine.

(** The loop of [MergeTree::query] over the parts; a part that is queried
    may get loaded on the way. *)
Fixpoint query_parts `{StdSort} (disk : Disk.t) (parts : list Part.t)
    (start_key end_key : string) (result : RowVector) : Exc (RowVector * list Part.t) :=
  match parts with
  | [] => ret (result, [])
  | part :: rest =>
      if Part.overlaps_range part start_key end_key then
        do (part_results, part) <- Part.query disk part start_key end_key;
        do (result, rest) <- query_parts disk rest start_key end_key (result ++ part_results);
        ret (result, part :: rest)
      else
        do (result, rest) <- query_parts disk rest start_key end_key result;
        ret (result, part :: rest)
  end.

(** The predicate of the [std::unique] call in [MergeTree::query]. *)
Definition same_key_and_timestamp (a b : Row) : bool :=
  key_eq (key a) (key b) && (timestamp a =? timestamp b).

(** [MergeTree::query] *)
Definition query `{StdSort} (disk : Disk.t) (engine : t) (start_key end_key : string)
    : Exc (RowVector * t) :=
  let result := [] in
  let memtable_results := MemTable.query (memtable_ engine) start_key end_key in
  let result := result ++ memtable_results in
  do (result, parts_) <- query_parts disk (parts_ engine) start_key end_key result;
  let result := std_sort row_lt result in
  let result := std_unique same_key_and_timestamp result in
  ret (result, mk (config_ engine) (base_path_ engine) (memtable_ engine) parts_ (merger_ engine)).

(** [MergeTree::query_key] *)
Definition query_key `{StdSort} (disk : Disk.t) (engine : t) (k : string) : Exc (RowVector * t) :=
  query disk engine k k.

Definition part_count (engine : t) : Z := Z.of_nat (length (parts_ engine)).

(** [MergeTree::total_rows] *)
Definition total_rows (engine : t) : Z :=
  fold_left
    (fun total part => SizeT.add total (PartMetadata.row_count (Part.metadata part)))
    (parts_ engine) (SizeT.add 0 (MemTable.size (memtable_ engine))).

(** [MergeTree::disk_usage] *)
Definition disk_usage (disk : Disk.t) (engine : t) : Z :=
  fold_left (fun total part => SizeT.add total (Part.disk_usage disk part)) (parts_ engine) 0.

(** [MergeTree::should_trigger_merge] *)
Definition should_trigger_merge (engine : t) : bool :=
  MergeTreeConfig.max_parts (config_ engine) <? Z.of_nat (length (parts_ engine)).

(** The loop of [perform_merge] that moves every part out of [parts_]:
    into [parts_to_merge] when [std::find] meets its position among the
    indices of the candidate, into [remaining_parts] otherwise. *)
Fixpoint split_selected (part_indices : list Z) (i : Z) (parts : list Part.t)
    (parts_to_merge remaining_parts : list Part.t) : list Part.t * list Part.t :=
  match parts with
  | [] => (parts_to_merge, remaining_parts)
  | part :: rest =>
      let is_selected := existsb (Z.eqb i) part_indices in
      if is_selected
      then split_selected part_indices (i + 1) rest (parts_to_merge ++ [part]) remaining_parts
      else split_selected part_indices (i + 1) rest parts_to_merge (remaining_parts ++ [part])
  end.

Section Compaction.
Context `{StdSort} `{StdPriorityQueue}.

(** [MergeTree::perform_merge].  The result is [out_of_bounds] should
    [select_merge_candidates] read past the parts, [inl] when
    [merge_parts] throws, and the directory and the engine otherwise. *)
Definition perform_merge (now : Z) (disk : Disk.t) (engine : t)
    : checked (Exc (Disk.t * t)) :=
  if Z.of_nat (length (parts_ engine)) <? 2 then defined (ret (disk, engine))
  else
    get candidates <- Merger.select_merge_candidates disk (parts_ engine) 1;
    match candidates with
    | [] => defined (ret (disk, engine))
    | best_candidate :: _ =>
        let '(parts_to_merge, remaining_parts) :=
          split_selected (MergeCandidate.part_indices best_candidate) 0 (parts_ engine) [] [] in
        let engine := mk (config_ engine) (base_path_ engine) (memtable_ engine)
                        remaining_parts (merger_ engine) in
        match parts_to_merge with
        | [] => defined (ret (disk, engine))
        | _ =>
            defined
              (do (disk, merged_part) <-
                 Merger.merge_parts now (merger_ engine) disk parts_to_merge;
               ret (disk, mk (config_ engine) (base_path_ engine) (memtable_ engine)
                            (parts_ engine ++ [merged_part]) (merger_ engine)))
        end
    end.

(** [MergeTree::merge_parts_sync] *)
Definition merge_parts_sync (now : Z) (disk : Disk.t) (engine : t)
    : checked (Exc (Disk.t * t)) :=
  if should_trigger_merge engine then perform_merge now disk engine
  else defined (ret (disk, engine)).

(** The loop [while (should_trigger_merge()) perform_merge();] of
    [optimize]; [clock k] is the reading of the system clock the [k]-th
    merge takes, and [None] is returned when [fuel] iterations did not end
    the loop. *)
Fixpoint merge_while (fuel : nat) (clock : nat -> Z) (k : nat) (disk : Disk.t) (engine : t)
    : checked (Exc (option (Disk.t * t))) :=
  if should_trigger_merge engine then
    match fuel with
    | O => defined (ret None)
    | S fuel' =>
        get outcome <- perform_merge (clock k) disk engine;
        match outcome with
        | inl e => defined (inl e)
        | inr (disk, engine) => merge_while fuel' clock (S k) disk engine
        end
    end
  else defined (ret (Some (disk, engine))).

(** [MergeTree::optimize] *)
Definition optimize (fuel : nat) (clock : nat -> Z) (disk : Disk.t) (engine : t)
    : checked (Exc (option (Disk.t * t))) :=
  match flush_memtable (clock O) disk engine with
  | inl e => defined (inl e)
  | inr (disk, engine) => merge_while fuel clock 1%nat disk engine
  end.

End Compaction.

End MergeTree.

(** ** One implementation of the library contracts

    An insertion sort and a priority queue kept as an unordered list; they
    serve to run the model on concrete inputs.  The theorems about the
    engine hold for every implementation of the contracts. *)

Module Reference.

Fixpoint sort_insert {A} (comp : A -> A -> bool) (x : A) (l : list A) : list A :=
  match l with
  | [] => [x]
  | y :: t => if comp x y then x :: l else y :: sort_insert comp x t
  end.

Definition insertion_sort {A} (comp : A -> A -> bool) (l : list A) : list A :=
  fold_right (sort_insert comp) [] l.

(** The position and value of an element no other element is above. *)
Fixpoint top_from {A} (comp : A -> A -> bool) (best : A) (best_pos pos : nat) (l : list A)
    : nat * A :=
  match l with
  | [] => (best_pos, best)
  | y :: t => if comp best y then top_from comp y pos (S pos) t
              else top_from comp best best_pos (S pos) t
  end.

Definition list_pop {A} (comp : A -> A -> bool) (q : list A) : option (A * list A) :=
  match q with
  | [] => None
  | x :: t => let '(pos, best) := top_from comp x O 1%nat t in
              Some (best, delete pos q)
  end.

Definition list_is_empty {A} (q : list A) : bool :=
  match q with [] => true | _ => false end.

End Reference.

(** * Properties *)

(** ** The order on keys and on rows *)

Lemma key_lt_irrefl a : key_lt a a = false.
Proof.
  unfold key_lt, String.ltb.
  destruct (String.compare a a) eqn:E; try reflexivity.
  pose proof (String.compare_antisym a a) as Ha. rewrite E in Ha. discriminate.
Qed.

Lemma key_lt_trans a b c : key_lt a b = true -> key_lt b c = true -> key_lt a c = true.
Proof.
  unfold key_lt, String.ltb. intros Hab Hbc.
  destruct (String.compare a b) eqn:E1; try discriminate.
  destruct (String.compare b c) eqn:E2; try discriminate.
  apply String_as_OT.cmp_lt in E1, E2.
  pose proof (String_as_OT.lt_trans _ _ _ E1 E2) as Hac.
  apply String_as_OT.cmp_lt in Hac. unfold String_as_OT.cmp in Hac. now rewrite Hac.
Qed.

Lemma key_lt_asym a b : key_lt a b = true -> key_lt b a = false.
Proof.
  intros Hab. destruct (key_lt b a) eqn:Hba; [|reflexivity].
  pose proof (key_lt_trans _ _ _ Hab Hba) as Haa.
  rewrite key_lt_irrefl in Haa. discriminate.
Qed.

Lemma key_lt_total a b : key_lt a b = false -> key_lt b a = false -> a = b.
Proof.
  unfold key_lt, String.ltb. intros Hab Hba.
  rewrite (String.compare_antisym b a) in Hba.
  destruct (String.compare a b) eqn:E; try discriminate.
  now apply String.compare_eq_iff.
Qed.

Lemma key_eq_true a b : key_eq a b = true <-> a = b.
Proof. apply String.eqb_eq. Qed.

Lemma key_eq_false a b : key_eq a b = false <-> a <> b.
Proof. apply String.eqb_neq. Qed.

Lemma key_le_refl a : key_le a a = true.
Proof. unfold key_le. now rewrite key_lt_irrefl. Qed.

Lemma key_le_trans a b c : key_le a b = true -> key_le b c = true -> key_le a c = true.
Proof.
  unfold key_le. intros Hab Hbc.
  apply negb_true_iff in Hab, Hbc. apply negb_true_iff.
  destruct (key_lt c a) eqn:Hca; [|reflexivity].
  destruct (key_lt a b) eqn:E.
  - pose proof (key_lt_trans _ _ _ Hca E). congruence.
  - pose proof (key_lt_total _ _ E Hab). subst. congruence.
Qed.

Lemma key_lt_le a b : key_lt a b = true -> key_le a b = true.
Proof. intros Hab. unfold key_le. now rewrite (key_lt_asym _ _ Hab). Qed.

Lemma key_le_lt_trans a b c : key_le a b = true -> key_lt b c = true -> key_lt a c = true.
Proof.
  unfold key_le. intros Hab Hbc. apply negb_true_iff in Hab.
  destruct (key_lt a b) eqn:E.
  - eapply key_lt_trans; eassumption.
  - pose proof (key_lt_total _ _ E Hab). now subst.
Qed.

(** The order [Row::operator<] decides: the key, then the timestamp. *)
Definition row_before (a b : Row) : Prop :=
  key_lt (key a) (key b) = true \/ (key a = key b /\ timestamp a < timestamp b).

Definition row_before_eq (a b : Row) : Prop :=
  key_lt (key a) (key b) = true \/ (key a = key b /\ timestamp a <= timestamp b).

Lemma row_lt_spec a b : row_lt a b = true <-> row_before a b.
Proof.
  unfold row_lt, row_before. destruct (key_eq (key a) (key b)) eqn:E; simpl.
  - apply key_eq_true in E. rewrite E, key_lt_irrefl, Z.ltb_lt. intuition congruence.
  - apply key_eq_false in E. rewrite Z.ltb_lt || idtac. intuition congruence.
Qed.

Lemma row_lt_false a b : row_lt b a = false <-> row_before_eq a b.
Proof.
  unfold row_before_eq. split.
  - intros Hba. destruct (key_lt (key a) (key b)) eqn:Hab; [now left|right].
    destruct (key_lt (key b) (key a)) eqn:Hkba.
    + assert (row_lt b a = true) by (apply row_lt_spec; now left). congruence.
    + pose proof (key_lt_total _ _ Hab Hkba) as Heq. split; [exact Heq|].
      destruct (Z_lt_le_dec (timestamp b) (timestamp a)) as [Hlt|Hle]; [|exact Hle].
      assert (row_lt b a = true) by (apply row_lt_spec; right; split; [congruence|lia]).
      congruence.
  - intros Hab. destruct (row_lt b a) eqn:Hba; [|reflexivity].
    apply row_lt_spec in Hba. destruct Hab as [Hab|[Hk Ht]], Hba as [Hba|[Hk' Ht']].
    + rewrite (key_lt_asym _ _ Hab) in Hba. discriminate.
    + rewrite Hk', key_lt_irrefl in Hab. discriminate.
    + rewrite Hk, key_lt_irrefl in Hba. discriminate.
    + lia.
Qed.

Lemma row_before_trans a b c : row_before a b -> row_before b c -> row_before a c.
Proof.
  intros [Hab|[Hab Tab]] [Hbc|[Hbc Tbc]].
  - left. eapply key_lt_trans; eassumption.
  - left. now rewrite <- Hbc.
  - left. now rewrite Hab.
  - right. split; [congruence|lia].
Qed.

Lemma row_before_eq_trans a b c : row_before_eq a b -> row_before_eq b c -> row_before_eq a c.
Proof.
  intros [Hab|[Hab Tab]] [Hbc|[Hbc Tbc]].
  - left. eapply key_lt_trans; eassumption.
  - left. now rewrite <- Hbc.
  - left. now rewrite Hab.
  - right. split; [congruence|lia].
Qed.

Lemma row_lt_strict_weak_order l : strict_weak_order_on row_lt l.
Proof.
  split; [|split].
  - intros x _. apply row_lt_false. right. split; [reflexivity|lia].
  - intros x y z _ _ _ Hxy Hyz. apply row_lt_spec in Hxy, Hyz. apply row_lt_spec.
    eapply row_before_trans; eassumption.
  - intros x y z _ _ _ Hxy Hyx Hyz Hzy.
    apply row_lt_false in Hxy, Hyx, Hyz, Hzy.
    split; apply row_lt_false; eapply row_before_eq_trans; eassumption.
Qed.

(** ** The library contracts are implementable *)

Section ContractFacts.
Context {A : Type} (comp : A -> A -> bool).

Lemma strict_weak_order_on_incl (l l' : list A) :
  (forall x, In x l' -> In x l) ->
  strict_weak_order_on comp l -> strict_weak_order_on comp l'.
Proof.
  intros Hincl (Hirr & Htrans & Heqv). split; [|split].
  - intros x Hx. apply Hirr; auto.
  - intros x y z Hx Hy Hz. apply Htrans; auto.
  - intros x y z Hx Hy Hz Hxy Hyx Hyz Hzy.
    apply (Heqv x y z); auto.
Qed.

Lemma strict_weak_order_on_asym (l : list A) x y :
  strict_weak_order_on comp l -> In x l -> In y l ->
  comp x y = true -> comp y x = false.
Proof.
  intros (Hirr & Htrans & _) Hx Hy Hxy.
  destruct (comp y x) eqn:Hyx; [|reflexivity].
  rewrite <- (Hirr x Hx). symmetry. apply (Htrans x y x); auto.
Qed.

Lemma sort_insert_permutation x (l : list A) :
  Permutation (x :: l) (Reference.sort_insert comp x l).
Proof.
  induction l as [|y t IH]; simpl.
  - apply Permutation_refl.
  - destruct (comp x y).
    + apply Permutation_refl.
    + eapply perm_trans; [apply perm_swap|]. now apply perm_skip.
Qed.

Lemma insertion_sort_permutation (l : list A) :
  Permutation l (Reference.insertion_sort comp l).
Proof.
  induction l as [|x t IH]; simpl.
  - apply perm_nil.
  - eapply perm_trans; [apply perm_skip, IH|]. apply sort_insert_permutation.
Qed.

Lemma sort_insert_sorted x (l : list A) :
  strict_weak_order_on comp (x :: l) ->
  sorted_by comp l -> sorted_by comp (Reference.sort_insert comp x l).
Proof.
  unfold sorted_by. intros Hswo Hsorted. induction Hsorted as [|y t Hsorted IH Hy]; simpl.
  - constructor; constructor.
  - destruct (comp x y) eqn:Hxy.
    + constructor; [constructor; assumption|].
      constructor.
      * eapply strict_weak_order_on_asym; eauto; simpl; auto.
      * rewrite List.Forall_forall in Hy |- *. intros z Hz.
        destruct (comp z x) eqn:Hzx; [|reflexivity].
        destruct Hswo as (_ & Htrans & _).
        rewrite <- (Hy z Hz). symmetry.
        apply (Htrans z x y); simpl; auto.
    + constructor.
      * apply IH. eapply strict_weak_order_on_incl; [|exact Hswo].
        simpl. intuition.
      * rewrite List.Forall_forall in Hy |- *. intros z Hz.
        apply (Permutation_in _ (Permutation_sym (sort_insert_permutation x t))) in Hz.
        destruct Hz as [<-|Hz]; auto.
Qed.

Lemma insertion_sort_sorted (l : list A) :
  strict_weak_order_on comp l -> sorted_by comp (Reference.insertion_sort comp l).
Proof.
  induction l as [|x t IH]; intros Hswo; simpl.
  - constructor.
  - apply sort_insert_sorted.
    + eapply strict_weak_order_on_incl; [|exact Hswo].
      intros y [->|Hy]; [now left|right].
      eapply Permutation_in; [apply Permutation_sym, insertion_sort_permutation|exact Hy].
    + apply IH. eapply strict_weak_order_on_incl; [|exact Hswo]. simpl. auto.
Qed.

Lemma top_from_lookup (pre l : list A) best best_pos p b :
  (pre ++ l) !! best_pos = Some best ->
  Reference.top_from comp best best_pos (length pre) l = (p, b) ->
  (pre ++ l) !! p = Some b.
Proof.
  revert pre best best_pos. induction l as [|y t IH]; intros pre best best_pos Hbest; simpl.
  - intros [= <- <-]. exact Hbest.
  - replace (pre ++ y :: t) with ((pre ++ [y]) ++ t) in * by now rewrite <- app_assoc.
    replace (S (length pre)) with (length (pre ++ [y])) by (rewrite length_app; simpl; lia).
    destruct (comp best y).
    + apply IH. rewrite <- app_assoc. simpl. apply list_lookup_middle. reflexivity.
    + apply IH. exact Hbest.
Qed.

Lemma top_from_top (pre l : list A) best best_pos p b :
  strict_weak_order_on comp (pre ++ l) ->
  In best (pre ++ l) ->
  Forall (fun y => comp best y = false) pre ->
  Reference.top_from comp best best_pos (length pre) l = (p, b) ->
  Forall (fun y => comp b y = false) (pre ++ l).
Proof.
  revert pre best best_pos. induction l as [|y t IH]; intros pre best best_pos Hswo Hin Hpre; simpl.
  - intros [= <- <-]. now rewrite app_nil_r.
  - replace (pre ++ y :: t) with ((pre ++ [y]) ++ t) in * by now rewrite <- app_assoc.
    replace (S (length pre)) with (length (pre ++ [y])) by (rewrite length_app; simpl; lia).
    assert (Hy : In y ((pre ++ [y]) ++ t)).
    { apply in_or_app. left. apply in_or_app. right. now left. }
    destruct (comp best y) eqn:Hby.
    + apply IH; auto. apply Forall_app. split.
      * rewrite List.Forall_forall in Hpre |- *. intros z Hz.
        destruct (comp y z) eqn:Hyz; [|reflexivity].
        destruct Hswo as (_ & Htrans & _).
        rewrite <- (Hpre z Hz). symmetry. apply (Htrans best y z); auto.
        apply in_or_app. left. apply in_or_app. now left.
      * constructor; [|constructor]. destruct Hswo as (Hirr & _). now apply Hirr.
    + apply IH; auto. apply Forall_app. split; [exact Hpre|].
      constructor; [exact Hby|constructor].
Qed.

Lemma list_pop_elements (q : list A) x q' :
  Reference.list_pop comp q = Some (x, q') -> Permutation q (x :: q').
Proof.
  destruct q as [|a t]; simpl; [discriminate|].
  destruct (Reference.top_from comp a 0 1 t) as [pos best] eqn:Htop.
  intros [= <- <-].
  apply (top_from_lookup [a] t a O) in Htop; [|reflexivity].
  apply delete_Permutation. exact Htop.
Qed.

Lemma list_pop_top (q : list A) x q' :
  strict_weak_order_on comp q ->
  Reference.list_pop comp q = Some (x, q') ->
  Forall (fun y => comp x y = false) q'.
Proof.
  intros Hswo Hpop.
  pose proof (list_pop_elements _ _ _ Hpop) as Hperm.
  destruct q as [|a t]; simpl in Hpop; [discriminate|].
  destruct (Reference.top_from comp a 0 1 t) as [pos best] eqn:Htop.
  injection Hpop as <- <-.
  apply (top_from_top [a] t a O) in Htop; auto.
  - rewrite List.Forall_forall in Htop |- *. intros y Hy. apply Htop.
    eapply Permutation_in; [apply Permutation_sym, Hperm|]. now right.
  - now left.
  - constructor; [|constructor]. destruct Hswo as (Hirr & _). apply Hirr. now left.
Qed.

End ContractFacts.

#[export] Instance reference_sort : StdSort := {
  std_sort := @Reference.insertion_sort;
  std_sort_permutation := fun A comp l _ => insertion_sort_permutation comp l;
  std_sort_sorted := @insertion_sort_sorted
}.

#[export, refine] Instance reference_priority_queue : StdPriorityQueue := {
  pq := list;
  pq_new := @nil;
  pq_push := fun A _ x q => x :: q;
  pq_pop := @Reference.list_pop;
  pq_is_empty := @Reference.list_is_empty;
  pq_elements := fun A q => q
}.
Proof.
  - reflexivity.
  - intros. apply Permutation_refl.
  - intros A [|x q]; simpl; split; congruence.
  - intros A comp [|x q]; simpl.
    + split; reflexivity.
    + destruct (Reference.top_from comp x 0 1 q). split; discriminate.
  - intros A comp q x q'. apply list_pop_elements.
  - intros A comp q x q'. apply list_pop_top.
Defined.

(** ** The sparse index *)

Lemma overlaps_range_inclusive (e : IndexEntry.t) (start_key end_key : string) :
  IndexEntry.overlaps_range e start_key end_key = true
  <-> key_le start_key (IndexEntry.max_key e) = true
      /\ key_le (IndexEntry.min_key e) end_key = true.
Proof.
  unfold IndexEntry.overlaps_range, key_le, key_gt.
  rewrite negb_true_iff, orb_false_iff, !negb_true_iff. tauto.
Qed.

Lemma find_granules_fold (entries : list IndexEntry.t) (start_key end_key : string) acc :
  fold_left
    (fun result entry =>
       if IndexEntry.overlaps_range entry start_key end_key
       then result ++ [IndexEntry.granule_index entry]
       else result)
    entries acc
  = acc ++ map IndexEntry.granule_index
             (List.filter (fun e => IndexEntry.overlaps_range e start_key end_key) entries).
Proof.
  revert acc. induction entries as [|e t IH]; intros acc; simpl.
  - now rewrite app_nil_r.
  - rewrite IH. destruct (IndexEntry.overlaps_range e start_key end_key); simpl.
    + now rewrite <- app_assoc.
    + reflexivity.
Qed.

Lemma find_granules_filter (idx : SparseIndex.t) (start_key end_key : string) :
  SparseIndex.find_granules idx start_key end_key
  = map IndexEntry.granule_index
      (List.filter (fun e => IndexEntry.overlaps_range e start_key end_key)
                   (SparseIndex.entries idx)).
Proof. unfold SparseIndex.find_granules. now rewrite find_granules_fold. Qed.

Lemma StronglySorted_map_filter {A B} (R : B -> B -> Prop) (f : A -> B) (keep : A -> bool) l :
  StronglySorted R (map f l) -> StronglySorted R (map f (List.filter keep l)).
Proof.
  induction l as [|x t IH]; simpl; intros Hs; [constructor|].
  apply StronglySorted_inv in Hs as [Hs Hx].
  destruct (keep x); simpl; [|now apply IH].
  constructor; [now apply IH|].
  rewrite List.Forall_forall in Hx |- *. intros y Hy. apply Hx.
  apply in_map_iff in Hy as (a & <- & Ha). apply in_map.
  now apply filter_In in Ha as [Ha _].
Qed.

(** Entries added with increasing granule indices are stored in that
    order. *)
Definition ascending_granules (idx : SparseIndex.t) : Prop :=
  StronglySorted Z.lt (map IndexEntry.granule_index (SparseIndex.entries idx)).

Lemma add_entry_ascending (idx : SparseIndex.t) min_key max_key granule_index row_count :
  ascending_granules idx ->
  Forall (fun e => IndexEntry.granule_index e < granule_index) (SparseIndex.entries idx) ->
  ascending_granules (SparseIndex.add_entry idx min_key max_key granule_index row_count).
Proof.
  unfold ascending_granules, SparseIndex.add_entry, SparseIndex.entries. simpl.
  intros Hs Hlt. rewrite map_app. simpl.
  apply StronglySorted_app_2; [|exact Hs|repeat constructor].
  intros x1 x2 Hx1 Hx2. apply list_elem_of_In in Hx1, Hx2.
  destruct Hx2 as [<-|[]]. simpl.
  apply in_map_iff in Hx1 as (e & <- & He).
  rewrite List.Forall_forall in Hlt. now apply Hlt.
Qed.

(** C8: an entry overlaps [[start_key, end_key]] exactly when
    [start_key <= max_key] and [min_key <= end_key], both ends included;
    [find_granules] returns the granule index of every overlapping entry and
    of no other entry, and returns them in ascending order when the entries
    were added in ascending order of granule index. *)
Theorem find_granules_overlapping (idx : SparseIndex.t) (start_key end_key : string) :
  ascending_granules idx ->
  (forall e : IndexEntry.t,
     IndexEntry.overlaps_range e start_key end_key
     = negb (key_lt (IndexEntry.max_key e) start_key
             || key_gt (IndexEntry.min_key e) end_key)
     /\ (IndexEntry.overlaps_range e start_key end_key = true
         <-> key_le start_key (IndexEntry.max_key e) = true
             /\ key_le (IndexEntry.min_key e) end_key = true))
  /\ SparseIndex.find_granules idx start_key end_key
     = map IndexEntry.granule_index
         (List.filter (fun e => IndexEntry.overlaps_range e start_key end_key)
                      (SparseIndex.entries idx))
  /\ (forall g : Z,
        In g (SparseIndex.find_granules idx start_key end_key)
        <-> exists e, In e (SparseIndex.entries idx)
                      /\ IndexEntry.granule_index e = g
                      /\ IndexEntry.overlaps_range e start_key end_key = true)
  /\ StronglySorted Z.lt (SparseIndex.find_granules idx start_key end_key).
Proof.
  intros Hasc. split; [|split; [|split]].
  - intros e. split; [reflexivity|apply overlaps_range_inclusive].
  - apply find_granules_filter.
  - intros g. rewrite find_granules_filter, in_map_iff. split.
    + intros (e & Hg & He). apply filter_In in He as [He Hov]. eauto.
    + intros (e & He & Hg & Hov). exists e. split; [exact Hg|].
      apply filter_In. auto.
  - rewrite find_granules_filter. now apply StronglySorted_map_filter.
Qed.

Definition sample_index : SparseIndex.t :=
  SparseIndex.add_entry
    (SparseIndex.add_entry
       (SparseIndex.add_entry SparseIndex.new "a" "c" 0 3)
       "c" "f" 1 4)
    "g" "k" 2 2.

Lemma find_granules_overlapping_witness :
  SparseIndex.find_granules sample_index "c" "e" = [0; 1]
  /\ StronglySorted Z.lt (SparseIndex.find_granules sample_index "c" "e").
Proof.
  assert (Hasc : ascending_granules sample_index).
  { unfold ascending_granules. simpl. repeat constructor; lia. }
  destruct (find_granules_overlapping sample_index "c" "e" Hasc) as (_ & _ & _ & Hsorted).
  split; [reflexivity|exact Hsorted].
Defined.

(** ** Merging one part, merging no part *)

(** C6: [merge_parts] on exactly one part returns that part, the directory
    content is as before (no part is built, no row is written) and the
    merger, which the function only reads, keeps its next part id; on no
    part at all it throws the [EmptyInput] error. *)
Theorem merge_parts_single_or_empty `{StdSort} `{StdPriorityQueue}
    (now : Z) (m : Merger.t) (disk : Disk.t) (part : Part.t) :
  Merger.merge_parts now m disk [part] = inr (disk, part)
  /\ Merger.merge_parts now m disk [] = inl (runtime_error "Cannot merge empty parts")
  /\ is_EmptyInput (runtime_error "Cannot merge empty parts") = true.
Proof. repeat split. Qed.

(** ** Range queries *)

Definition in_range (start_key end_key : string) (r : Row) : Prop :=
  key_le start_key (key r) = true /\ key_le (key r) end_key = true.

Lemma scan_range_in_range start_key end_key rows :
  Forall (in_range start_key end_key) (Granule.scan_range start_key end_key rows).
Proof.
  induction rows as [|row rest IH]; simpl; [constructor|].
  destruct (key_ge (key row) start_key && key_le (key row) end_key) eqn:Hin.
  - apply andb_true_iff in Hin as [Hge Hle]. constructor; [|exact IH].
    split; [exact Hge|exact Hle].
  - destruct (key_gt (key row) end_key); [constructor|exact IH].
Qed.

Lemma query_range_in_range g start_key end_key result :
  Granule.query_range g start_key end_key = inr result ->
  Forall (in_range start_key end_key) result.
Proof.
  unfold Granule.query_range. destruct (negb (Granule.sorted_ g)); [discriminate|].
  intros [= <-]. apply scan_range_in_range.
Qed.

Lemma query_granules_in_range granules granule_indices start_key end_key result result' :
  Forall (in_range start_key end_key) result ->
  Part.query_granules granules granule_indices start_key end_key result = inr result' ->
  Forall (in_range start_key end_key) result'.
Proof.
  revert result. induction granule_indices as [|i rest IH]; intros result Hres; simpl.
  - now intros [= <-].
  - destruct (i <? Z.of_nat (length granules)); [|now apply IH].
    destruct (granules !! Z.to_nat i) as [g|]; [|now apply IH].
    destruct (Granule.query_range g start_key end_key) as [e|rows] eqn:Hq; simpl; [discriminate|].
    apply IH. apply Forall_app. split; [exact Hres|].
    eapply query_range_in_range; eassumption.
Qed.

Lemma part_query_in_range `{StdSort} disk p start_key end_key result p' :
  Part.query disk p start_key end_key = inr (result, p') ->
  Forall (in_range start_key end_key) result.
Proof.
  unfold Part.query.
  destruct (if negb (Part.loaded_ p) then Part.load disk p else ret p) as [e|q]; simpl;
    [discriminate|].
  destruct (negb (Part.overlaps_range q start_key end_key)).
  - intros [= <- <-]. constructor.
  - destruct (Part.query_granules _ _ _ _ _) as [e|rows] eqn:Hq; simpl; [discriminate|].
    intros [= <- <-]. eapply query_granules_in_range; [|exact Hq]. constructor.
Qed.

Lemma query_parts_in_range `{StdSort} disk parts start_key end_key result result' parts' :
  Forall (in_range start_key end_key) result ->
  MergeTree.query_parts disk parts start_key end_key result = inr (result', parts') ->
  Forall (in_range start_key end_key) result'.
Proof.
  revert result result' parts'.
  induction parts as [|p rest IH]; intros result result' parts' Hres; simpl.
  - now intros [= <- <-].
  - destruct (Part.overlaps_range p start_key end_key).
    + destruct (Part.query disk p start_key end_key) as [e|[rows q]] eqn:Hq; simpl;
        [discriminate|].
      destruct (MergeTree.query_parts disk rest start_key end_key (result ++ rows))
        as [e|[res ps]] eqn:Hrest; simpl; [discriminate|].
      intros [= <- <-]. eapply IH; [|exact Hrest].
      apply Forall_app. split; [exact Hres|]. eapply part_query_in_range; eassumption.
    + destruct (MergeTree.query_parts disk rest start_key end_key result)
        as [e|[res ps]] eqn:Hrest; simpl; [discriminate|].
      intros [= <- <-]. eapply IH; eassumption.
Qed.

(** [std::unique] keeps elements of its input, in their order. *)
Lemma unique_from_In {A} (pred : A -> A -> bool) last l x :
  In x (unique_from pred last l) -> In x l.
Proof.
  revert last. induction l as [|y t IH]; intros last; simpl; [tauto|].
  destruct (pred last y); simpl.
  - intros Hx. right. eapply IH; eassumption.
  - intros [<-|Hx]; [now left|right]. eapply IH; eassumption.
Qed.

Lemma std_unique_In {A} (pred : A -> A -> bool) l x :
  In x (std_unique pred l) -> In x l.
Proof.
  destruct l as [|y t]; simpl; [tauto|].
  intros [<-|Hx]; [now left|right]. eapply unique_from_In; eassumption.
Qed.

(** On a list sorted by [Row::operator<], dropping the rows that repeat the
    key and timestamp of the row kept last leaves a strictly increasing
    list. *)
Lemma unique_from_strict last l :
  StronglySorted row_before_eq (last :: l) ->
  StronglySorted row_before (last :: unique_from MergeTree.same_key_and_timestamp last l).
Proof.
  revert last. induction l as [|x t IH]; intros last Hs; simpl.
  - repeat constructor.
  - apply StronglySorted_inv in Hs as [Hs Hlast].
    apply Forall_cons in Hlast as [Hlx Hlt].
    destruct (MergeTree.same_key_and_timestamp last x) eqn:Hsame.
    + apply IH. apply StronglySorted_inv in Hs as [Hs _]. now constructor.
    + specialize (IH x Hs). constructor; [exact IH|].
      assert (Hstrict : row_before last x).
      { destruct Hlx as [Hlt'|[Hk Ht]]; [now left|right]. split; [exact Hk|].
        unfold MergeTree.same_key_and_timestamp in Hsame.
        apply andb_false_iff in Hsame as [Hne|Hne].
        - apply key_eq_false in Hne. contradiction.
        - apply Z.eqb_neq in Hne. lia. }
      constructor; [exact Hstrict|].
      apply StronglySorted_inv in IH as [_ IH].
      eapply Forall_impl; [exact IH|].
      intros y Hy. eapply row_before_trans; eassumption.
Qed.

Lemma std_unique_strict l :
  StronglySorted row_before_eq l ->
  StronglySorted row_before (std_unique MergeTree.same_key_and_timestamp l).
Proof.
  destruct l as [|x t]; simpl; [constructor|]. apply unique_from_strict.
Qed.

Lemma sorted_by_row_lt l : sorted_by row_lt l <-> StronglySorted row_before_eq l.
Proof.
  unfold sorted_by. split; intros Hs; induction Hs; constructor; auto;
    (eapply Forall_impl; [eassumption|]); intros y Hy; now apply row_lt_false.
Qed.

Lemma row_before_weaken a b : row_before a b -> row_before_eq a b.
Proof. intros [Hlt|[Hk Ht]]; [now left|right]. split; [exact Hk|lia]. Qed.

Lemma StronglySorted_impl {A} (R R' : A -> A -> Prop) l :
  (forall x y, R x y -> R' x y) -> StronglySorted R l -> StronglySorted R' l.
Proof.
  intros HR Hs. induction Hs; constructor; auto.
  eapply Forall_impl; [eassumption|]. intros y Hy. now apply HR.
Qed.

Lemma StronglySorted_lookup {A} (R : A -> A -> Prop) (l : list A) (i j : nat) x y :
  StronglySorted R l -> (i < j)%nat -> l !! i = Some x -> l !! j = Some y -> R x y.
Proof.
  intros Hs. revert i j. induction Hs as [|a t Hs IH Ha]; intros i j Hij Hi Hj.
  - discriminate.
  - destruct j as [|j]; [lia|]. destruct i as [|i]; simpl in *.
    + injection Hi as <-. rewrite List.Forall_forall in Ha. apply Ha.
      apply list_elem_of_In. eapply list_elem_of_lookup_2. exact Hj.
    + apply (IH i j); auto. lia.
Qed.

(** What [MergeTree::query] returns on every path that returns: the rows
    are strictly increasing in (key, timestamp) and lie in the range. *)
Lemma query_result `{StdSort} disk engine start_key end_key result engine' :
  MergeTree.query disk engine start_key end_key = inr (result, engine') ->
  StronglySorted row_before result /\ Forall (in_range start_key end_key) result.
Proof.
  unfold MergeTree.query. simpl.
  destruct (MergeTree.query_parts _ _ _ _ _) as [e|[rows ps]] eqn:Hparts; simpl; [discriminate|].
  intros [= <- <-].
  pose proof (row_lt_strict_weak_order rows) as Hswo.
  pose proof (std_sort_permutation _ row_lt rows Hswo) as Hperm.
  pose proof (std_sort_sorted _ row_lt rows Hswo) as Hsorted.
  split.
  - apply std_unique_strict. now apply sorted_by_row_lt.
  - apply query_parts_in_range in Hparts; [|unfold MemTable.query; apply scan_range_in_range].
    rewrite List.Forall_forall in Hparts |- *. intros r Hr.
    apply std_unique_In in Hr. apply Hparts.
    eapply Permutation_in; [apply Permutation_sym, Hperm|exact Hr].
Qed.

Lemma row_before_differs a b :
  row_before a b -> ~ (key a = key b /\ timestamp a = timestamp b).
Proof.
  intros [Hlt|[_ Hts]] [Hk Ht].
  - rewrite Hk, key_lt_irrefl in Hlt. discriminate.
  - lia.
Qed.

(** C1: the list [MergeTree::query(a, b)] returns is sorted by
    (key, timestamp) ascending, and every row [r] of it has
    [a <= r.key <= b]. *)
Theorem query_sorted_in_range `{StdSort} (disk : Disk.t) (engine : MergeTree.t)
    (a b : string) (result : RowVector) (engine' : MergeTree.t) :
  MergeTree.query disk engine a b = inr (result, engine') ->
  StronglySorted row_before_eq result
  /\ Forall (fun r => key_le a (key r) = true /\ key_le (key r) b = true) result.
Proof.
  intros Hq. apply query_result in Hq as [Hsorted Hrange]. split.
  - eapply StronglySorted_impl; [|exact Hsorted]. apply row_before_weaken.
  - exact Hrange.
Qed.

(** C2: the list [MergeTree::query(a, b)] returns is the sorted
    concatenation of the memtable rows and the part rows with [std::unique]
    applied on (key, timestamp), and no two distinct positions of it hold
    rows with the same key and the same timestamp. *)
Theorem query_deduplicated `{StdSort} (disk : Disk.t) (engine : MergeTree.t)
    (a b : string) (result : RowVector) (engine' : MergeTree.t) :
  MergeTree.query disk engine a b = inr (result, engine') ->
  (exists rows parts',
     MergeTree.query_parts disk (MergeTree.parts_ engine) a b
       (MemTable.query (MergeTree.memtable_ engine) a b) = inr (rows, parts')
     /\ result = std_unique MergeTree.same_key_and_timestamp (std_sort row_lt rows))
  /\ forall (i j : nat) (ri rj : Row),
       i <> j -> result !! i = Some ri -> result !! j = Some rj ->
       ~ (key ri = key rj /\ timestamp ri = timestamp rj).
Proof.
  intros Hq. split.
  - unfold MergeTree.query in Hq. simpl in Hq.
    destruct (MergeTree.query_parts _ _ _ _ _) as [e|[rows ps]] eqn:Hparts; simpl in Hq;
      [discriminate|].
    injection Hq as <- _. eauto.
  - apply query_result in Hq as [Hsorted _].
    intros i j ri rj Hij Hi Hj.
    destruct (Nat.lt_total i j) as [Hlt|[Heq|Hgt]]; [|contradiction|].
    + apply row_before_differs. eapply StronglySorted_lookup; eauto.
    + intros [Hk Ht]. eapply row_before_differs.
      * eapply (StronglySorted_lookup _ _ j i); eauto.
      * split; congruence.
Qed.

(** A part can be queried when it is loaded with sorted granules, or can
    be loaded from the directory; what [Part::load] builds has sorted
    granules. *)
Definition part_ready `{StdSort} (disk : Disk.t) (p : Part.t) : Prop :=
  exists p', (if negb (Part.loaded_ p) then Part.load disk p else ret p) = inr p'
             /\ Forall (fun g => Granule.sorted_ g = true) (Part.granules_ p').

Lemma sort_sets_sorted `{StdSort} g : Granule.sorted_ (Granule.sort g) = true.
Proof.
  unfold Granule.sort. destruct (Granule.sorted_ g) eqn:Hs; simpl; [exact Hs|].
  unfold Granule.update_key_range. simpl.
  destruct (std_sort row_lt (Granule.rows_ g)); reflexivity.
Qed.

Lemma read_granules_sorted `{StdSort} dir d i count granules :
  Part.read_granules dir d i count = inr granules ->
  Forall (fun g => Granule.sorted_ g = true) granules.
Proof.
  revert i granules. induction count as [|count IH]; intros i granules; simpl.
  - intros [= <-]. constructor.
  - destruct (Serialization.read_granule dir d i) as [e|g] eqn:Hg; simpl; [discriminate|].
    destruct (Part.read_granules dir d (i + 1) count) as [e|gs] eqn:Hgs; simpl; [discriminate|].
    intros [= <-]. constructor; [|eapply IH; eassumption].
    unfold Serialization.read_granule in Hg.
    destruct (Disk.granule_bin d !! i) as [rows|]; [|discriminate].
    destruct (Serialization.add_rows Granule.new rows); simpl in Hg; [discriminate|].
    injection Hg as <-. apply sort_sets_sorted.
Qed.

Lemma load_granules_sorted `{StdSort} disk p p' :
  Part.loaded_ p = false -> Part.load disk p = inr p' ->
  Forall (fun g => Granule.sorted_ g = true) (Part.granules_ p').
Proof.
  unfold Part.load. intros ->.
  destruct (negb (Part.exists_on_disk disk p)); [discriminate|].
  destruct (disk !! Part.dir_name p) as [[|d]|]; try discriminate.
  destruct (Disk.metadata_bin d) as [m|]; [|discriminate].
  destruct (disk !! _) as [[|d']|]; try discriminate.
  destruct (Disk.primary_idx d') as [entries|]; [|discriminate].
  destruct (Part.read_granules _ _ _ _) as [e|gs] eqn:Hgs; simpl; [discriminate|].
  intros [= <-]. simpl. eapply read_granules_sorted; eassumption.
Qed.

Lemma query_granules_returns granules granule_indices start_key end_key result :
  Forall (fun g => Granule.sorted_ g = true) granules ->
  exists result',
    Part.query_granules granules granule_indices start_key end_key result = inr result'.
Proof.
  intros Hsorted. revert result.
  induction granule_indices as [|i rest IH]; intros result; simpl; [eauto|].
  destruct (i <? Z.of_nat (length granules)); [|apply IH].
  destruct (granules !! Z.to_nat i) as [g|] eqn:Hg; [|apply IH].
  unfold Granule.query_range.
  rewrite List.Forall_forall in Hsorted. rewrite (Hsorted g); simpl; [apply IH|].
  apply list_elem_of_In. eapply list_elem_of_lookup_2. exact Hg.
Qed.

Lemma part_query_returns `{StdSort} disk p start_key end_key :
  part_ready disk p ->
  exists result p', Part.query disk p start_key end_key = inr (result, p').
Proof.
  intros (q & Hq & Hsorted). unfold Part.query. rewrite Hq. simpl.
  destruct (negb (Part.overlaps_range q start_key end_key)); [eauto|].
  destruct (query_granules_returns (Part.granules_ q)
              (SparseIndex.find_granules (Part.index_ q) start_key end_key)
              start_key end_key [] Hsorted) as [rows ->].
  simpl. eauto.
Qed.

Lemma query_parts_returns `{StdSort} disk parts start_key end_key result :
  Forall (fun p => Part.overlaps_range p start_key end_key = true -> part_ready disk p) parts ->
  exists result' parts',
    MergeTree.query_parts disk parts start_key end_key result = inr (result', parts').
Proof.
  intros Hready. revert result.
  induction Hready as [|p rest Hp Hrest IH]; intros result; simpl; [eauto|].
  destruct (Part.overlaps_range p start_key end_key) eqn:Hov.
  - destruct (part_query_returns disk p start_key end_key (Hp eq_refl)) as (rows & q & ->).
    simpl. destruct (IH (result ++ rows)) as (res & ps & ->). simpl. eauto.
  - destruct (IH result) as (res & ps & ->). simpl. eauto.
Qed.

(** C10: when [start_key > end_key], every list [MergeTree::query] returns
    is empty, and the call does return, with the empty list, whenever the
    parts whose metadata overlaps the range can be queried. *)
Theorem query_inverted_range_empty `{StdSort} (disk : Disk.t) (engine : MergeTree.t)
    (start_key end_key : string) :
  key_gt start_key end_key = true ->
  (forall result engine',
     MergeTree.query disk engine start_key end_key = inr (result, engine') -> result = [])
  /\ (Forall (fun p => Part.overlaps_range p start_key end_key = true -> part_ready disk p)
             (MergeTree.parts_ engine) ->
      exists engine', MergeTree.query disk engine start_key end_key = inr ([], engine')).
Proof.
  intros Hgt.
  assert (Hempty : forall result engine',
            MergeTree.query disk engine start_key end_key = inr (result, engine') ->
            result = []).
  { intros result engine' Hq. apply query_result in Hq as [_ Hrange].
    destruct result as [|r rest]; [reflexivity|].
    apply Forall_cons in Hrange as [[Hlo Hhi] _].
    pose proof (key_le_trans _ _ _ Hlo Hhi) as Hle.
    unfold key_le in Hle. unfold key_gt in Hgt. rewrite Hgt in Hle. discriminate. }
  split; [exact Hempty|].
  intros Hready.
  destruct (query_parts_returns disk (MergeTree.parts_ engine) start_key end_key
              (MemTable.query (MergeTree.memtable_ engine) start_key end_key) Hready)
    as (rows & ps & Hparts).
  destruct (MergeTree.query disk engine start_key end_key) as [e|[result engine']] eqn:Hq.
  - unfold MergeTree.query in Hq. simpl in Hq. rewrite Hparts in Hq. discriminate.
  - rewrite (Hempty _ _ eq_refl). eauto.
Qed.

(** *** A small engine: one flushed part and one row in the memtable *)

Definition insert_rows `{StdSort} (now : Z) (disk : Disk.t) (engine : MergeTree.t)
    (rows : RowVector) : Exc (Disk.t * MergeTree.t) :=
  fold_left
    (fun state row => do (disk, engine) <- state; MergeTree.insert now disk engine row)
    rows (ret (disk, engine)).

Definition sample_config : MergeTreeConfig.t := MergeTreeConfig.mk 2 10 30 false.

Definition sample_state : Disk.t * MergeTree.t :=
  Eval vm_compute in
    let engine := MergeTree.new (H := reference_sort) ∅ "./data" sample_config in
    match insert_rows (H := reference_sort) 1700000000 ∅ engine
            [mkRow "key1" "v1" 1000; mkRow "key2" "v2" 2000; mkRow "key2" "v2" 2000] with
    | inr state => state
    | inl _ => (∅, engine)
    end.

Definition sample_disk : Disk.t := fst sample_state.
Definition sample_engine : MergeTree.t := snd sample_state.

Definition sample_query : RowVector * MergeTree.t :=
  Eval vm_compute in
    match MergeTree.query (H := reference_sort) sample_disk sample_engine "key1" "key3" with
    | inr outcome => outcome
    | inl _ => ([], sample_engine)
    end.

Example sample_engine_parts :
  map (fun p => PartMetadata.part_id (Part.metadata p)) (MergeTree.parts_ sample_engine) = [1]
  /\ MemTable.nodes (MergeTree.memtable_ sample_engine) = [mkRow "key2" "v2" 2000].
Proof. split; reflexivity. Qed.

Example sample_query_rows :
  fst sample_query = [mkRow "key1" "v1" 1000; mkRow "key2" "v2" 2000].
Proof. reflexivity. Qed.

Lemma sample_query_runs :
  MergeTree.query (H := reference_sort) sample_disk sample_engine "key1" "key3"
  = inr (fst sample_query, snd sample_query).
Proof. vm_compute. reflexivity. Qed.

Lemma query_sorted_in_range_witness :
  StronglySorted row_before_eq (fst sample_query)
  /\ Forall (fun r => key_le "key1" (key r) = true /\ key_le (key r) "key3" = true)
            (fst sample_query).
Proof.
  apply (query_sorted_in_range (H := reference_sort) sample_disk sample_engine
           "key1" "key3" (fst sample_query) (snd sample_query)).
  vm_compute. reflexivity.
Defined.

Lemma query_deduplicated_witness :
  length (MemTable.nodes (MergeTree.memtable_ sample_engine)) = 1%nat
  /\ length (fst sample_query) = 2%nat
  /\ forall (i j : nat) (ri rj : Row),
       i <> j -> fst sample_query !! i = Some ri -> fst sample_query !! j = Some rj ->
       ~ (key ri = key rj /\ timestamp ri = timestamp rj).
Proof.
  split; [reflexivity|split; [reflexivity|]].
  apply (query_deduplicated (H := reference_sort) sample_disk sample_engine
           "key1" "key3" (fst sample_query) (snd sample_query)).
  vm_compute. reflexivity.
Defined.

Lemma query_inverted_range_empty_witness :
  exists engine',
    MergeTree.query (H := reference_sort) sample_disk sample_engine "key3" "key1"
    = inr ([], engine').
Proof.
  apply (query_inverted_range_empty (H := reference_sort) sample_disk sample_engine
           "key3" "key1").
  - reflexivity.
  - repeat constructor. intros _. eexists. split; [reflexivity|].
    repeat constructor.
Defined.

(** ** Candidate selection *)

(** *** Scores that pass the test [score > 0] are totally ordered *)

Definition positive_score (s : Double.double) : Prop :=
  Double.gtb s (Double.of_Z 0) = true.

Lemma positive_score_cases s :
  positive_score s -> s = S754_infinity false \/ exists m e, s = S754_finite false m e.
Proof.
  unfold positive_score, Double.gtb. change (Double.of_Z 0) with (S754_zero false).
  destruct s as [sg|sg| |sg m e]; simpl; try discriminate.
  - destruct sg; [discriminate|]. now left.
  - destruct sg; [discriminate|]. right. eauto.
Qed.

Lemma ltb_finite (m1 m2 : positive) (e1 e2 : Z) :
  Double.ltb (S754_finite false m1 e1) (S754_finite false m2 e2) = true
  <-> e1 < e2 \/ (e1 = e2 /\ (m1 < m2)%positive).
Proof.
  unfold Double.ltb, SFltb. simpl.
  change (Pos.compare_cont Eq m1 m2) with (Pos.compare m1 m2).
  destruct (Z.compare_spec e1 e2); [destruct (Pos.compare_spec m1 m2)| |];
    split; intros Hlt; try discriminate; try reflexivity; lia.
Qed.

Lemma ltb_finite_false (m1 m2 : positive) (e1 e2 : Z) :
  Double.ltb (S754_finite false m1 e1) (S754_finite false m2 e2) = false
  <-> e2 < e1 \/ (e1 = e2 /\ (m2 <= m1)%positive).
Proof.
  rewrite <- not_true_iff_false, ltb_finite. lia.
Qed.

Lemma ltb_positive_irrefl s : positive_score s -> Double.ltb s s = false.
Proof.
  intros Hs. destruct (positive_score_cases s Hs) as [->|(m & e & ->)]; [reflexivity|].
  apply ltb_finite_false. lia.
Qed.

Lemma ltb_positive_trans a b c :
  positive_score a -> positive_score b -> positive_score c ->
  Double.ltb a b = true -> Double.ltb b c = true -> Double.ltb a c = true.
Proof.
  intros Ha Hb Hc.
  destruct (positive_score_cases a Ha) as [->|(ma & ea & ->)];
  destruct (positive_score_cases b Hb) as [->|(mb & eb & ->)];
  destruct (positive_score_cases c Hc) as [->|(mc & ec & ->)];
  try (unfold Double.ltb, SFltb; simpl; congruence).
  rewrite !ltb_finite. lia.
Qed.

Lemma ltb_positive_equiv a b c :
  positive_score a -> positive_score b -> positive_score c ->
  Double.ltb a b = false -> Double.ltb b a = false ->
  Double.ltb b c = false -> Double.ltb c b = false ->
  Double.ltb a c = false /\ Double.ltb c a = false.
Proof.
  intros Ha Hb Hc.
  destruct (positive_score_cases a Ha) as [->|(ma & ea & ->)];
  destruct (positive_score_cases b Hb) as [->|(mb & eb & ->)];
  destruct (positive_score_cases c Hc) as [->|(mc & ec & ->)];
  try (unfold Double.ltb, SFltb; simpl; intuition congruence).
  rewrite !ltb_finite_false. lia.
Qed.

Lemma by_score_desc_strict_weak_order (l : list MergeCandidate.t) :
  Forall (fun c => positive_score (MergeCandidate.score c)) l ->
  strict_weak_order_on MergeCandidate.by_score_desc l.
Proof.
  rewrite List.Forall_forall. intros Hpos.
  unfold MergeCandidate.by_score_desc, Double.gtb. split; [|split].
  - intros x Hx. apply ltb_positive_irrefl; auto.
  - intros x y z Hx Hy Hz Hxy Hyz. eapply (ltb_positive_trans _ (MergeCandidate.score y)); auto.
  - intros x y z Hx Hy Hz Hxy Hyx Hyz Hzy.
    destruct (ltb_positive_equiv (MergeCandidate.score z) (MergeCandidate.score y)
                (MergeCandidate.score x)); auto.
Qed.

(** *** The loops collect candidates until the cap is reached *)

Definition cap_room (max_candidates : Z) (candidates : list MergeCandidate.t) : nat :=
  Z.to_nat (max_candidates - Merger.vector_size candidates).

Lemma below_cap_room max_candidates candidates :
  Merger.below_cap max_candidates candidates = true <-> (0 < cap_room max_candidates candidates)%nat.
Proof. unfold Merger.below_cap, cap_room. rewrite Z.ltb_lt. lia. Qed.

Lemma cap_room_app max_candidates candidates more :
  cap_room max_candidates (candidates ++ take (cap_room max_candidates candidates) more)
  = (cap_room max_candidates candidates - length more)%nat.
Proof.
  unfold cap_room, Merger.vector_size. rewrite length_app, length_take. lia.
Qed.

Lemma for_range_collect (max_candidates : Z) (found : Z -> list MergeCandidate.t)
    (body : Z -> list MergeCandidate.t -> checked (list MergeCandidate.t))
    (count : nat) (lo : Z) (candidates : list MergeCandidate.t) :
  (forall i cs, lo <= i < lo + Z.of_nat count ->
                Merger.below_cap max_candidates cs = true ->
                body i cs = defined (cs ++ take (cap_room max_candidates cs) (found i))) ->
  for_range count lo (Merger.below_cap max_candidates) body candidates
  = defined (candidates ++ take (cap_room max_candidates candidates)
                             (concat (map found (seqZ lo (Z.of_nat count))))).
Proof.
  revert lo candidates. induction count as [|count IH]; intros lo candidates Hbody.
  - simpl. now rewrite take_nil, app_nil_r.
  - cbn [for_range].
    replace (Z.of_nat (S count)) with (Z.succ (Z.of_nat count)) by lia.
    rewrite seqZ_cons by lia. rewrite Z.pred_succ. cbn [map concat].
    destruct (Merger.below_cap max_candidates candidates) eqn:Hcap.
    + rewrite Hbody by (auto; lia). cbn [checked_bind].
      rewrite IH by (intros; apply Hbody; auto; lia).
      rewrite cap_room_app, take_app, <- app_assoc. reflexivity.
    + assert (cap_room max_candidates candidates = 0%nat) as ->.
      { destruct (cap_room max_candidates candidates) eqn:E; [reflexivity|].
        assert (Merger.below_cap max_candidates candidates = true)
          by (apply below_cap_room; lia). congruence. }
      now rewrite take_0, app_nil_r.
Qed.

(** What one iteration over the pair [(i, j)], or over the triple starting
    at [i], adds when there is room: the candidate, if its score is
    positive. *)
Definition pair_candidate (disk : Disk.t) (parts : list Part.t) (i j : Z)
    : list MergeCandidate.t :=
  match parts !! Z.to_nat i, parts !! Z.to_nat j with
  | Some part_i, Some part_j =>
      Merger.push_if_positive
        (MergeCandidate.mk [i; j]
           (SizeT.add (PartMetadata.row_count (Part.metadata part_i))
                      (PartMetadata.row_count (Part.metadata part_j)))
           (SizeT.add (Part.disk_usage disk part_i) (Part.disk_usage disk part_j))
           (Merger.calculate_merge_score disk [i; j] parts))
        []
  | _, _ => []
  end.

Definition triple_candidate (disk : Disk.t) (parts : list Part.t) (i : Z)
    : list MergeCandidate.t :=
  match parts !! Z.to_nat i, parts !! Z.to_nat (i + 1), parts !! Z.to_nat (i + 2) with
  | Some part_i, Some part_i1, Some part_i2 =>
      Merger.push_if_positive
        (MergeCandidate.mk [i; i + 1; i + 2]
           (SizeT.add (SizeT.add (PartMetadata.row_count (Part.metadata part_i))
                                 (PartMetadata.row_count (Part.metadata part_i1)))
                      (PartMetadata.row_count (Part.metadata part_i2)))
           (SizeT.add (SizeT.add (Part.disk_usage disk part_i) (Part.disk_usage disk part_i1))
                      (Part.disk_usage disk part_i2))
           (Merger.calculate_merge_score disk [i; i + 1; i + 2] parts))
        []
  | _, _, _ => []
  end.

(** The candidates in the order the loops meet them: the pairs [(i, j)],
    [i < j], by [i] then [j], then the triples. *)
Definition pairs_from (disk : Disk.t) (parts : list Part.t) (i : Z) : list MergeCandidate.t :=
  concat (map (pair_candidate disk parts i)
              (seqZ (i + 1) (Z.of_nat (Z.to_nat (Merger.vector_size parts - (i + 1)))))).

Definition all_pairs (disk : Disk.t) (parts : list Part.t) : list MergeCandidate.t :=
  concat (map (pairs_from disk parts)
              (seqZ 0 (Z.of_nat (Z.to_nat (Merger.vector_size parts - 0))))).

Definition all_triples (disk : Disk.t) (parts : list Part.t) : list MergeCandidate.t :=
  concat (map (triple_candidate disk parts)
              (seqZ 0 (Z.of_nat (Z.to_nat (Merger.triple_loop_bound parts - 0))))).

Lemma push_if_positive_app candidate candidates :
  Merger.push_if_positive candidate candidates
  = candidates ++ Merger.push_if_positive candidate [].
Proof. unfold Merger.push_if_positive. destruct (Double.gtb _ _); simpl; now rewrite ?app_nil_r. Qed.

Lemma push_if_positive_length candidate :
  (length (Merger.push_if_positive candidate []) <= 1)%nat.
Proof. unfold Merger.push_if_positive. destruct (Double.gtb _ _); simpl; lia. Qed.

Lemma at_index_defined {A} (v : list A) (i : Z) :
  0 <= i < Z.of_nat (length v) -> exists a, v !! Z.to_nat i = Some a /\ at_index v i = defined a.
Proof.
  intros Hi. unfold at_index.
  destruct (v !! Z.to_nat i) as [a|] eqn:Ha.
  - exists a. split; [reflexivity|].
    replace ((0 <=? i) && (i <? Z.of_nat (length v))) with true; [reflexivity|].
    symmetry. apply andb_true_iff. split; [apply Z.leb_le|apply Z.ltb_lt]; lia.
  - apply lookup_ge_None in Ha. lia.
Qed.

Lemma pair_body_collect disk parts max_candidates i j cs :
  0 <= i < Merger.vector_size parts -> 0 <= j < Merger.vector_size parts ->
  Merger.below_cap max_candidates cs = true ->
  Merger.pair_body disk parts i j cs
  = defined (cs ++ take (cap_room max_candidates cs) (pair_candidate disk parts i j)).
Proof.
  intros Hi Hj Hcap. unfold Merger.pair_body, pair_candidate.
  destruct (at_index_defined parts i Hi) as (pi & -> & ->).
  destruct (at_index_defined parts j Hj) as (pj & -> & ->).
  cbn [checked_bind]. rewrite push_if_positive_app. f_equal. f_equal.
  symmetry. apply take_ge. apply below_cap_room in Hcap.
  etransitivity; [apply push_if_positive_length|lia].
Qed.

Lemma triple_body_collect disk parts max_candidates i cs :
  0 <= i -> i + 2 < Merger.vector_size parts ->
  Merger.below_cap max_candidates cs = true ->
  Merger.triple_body disk parts i cs
  = defined (cs ++ take (cap_room max_candidates cs) (triple_candidate disk parts i)).
Proof.
  intros Hi Hi2 Hcap. unfold Merger.triple_body, triple_candidate.
  destruct (at_index_defined parts i) as (pi & -> & ->); [unfold Merger.vector_size in *; lia|].
  destruct (at_index_defined parts (i + 1)) as (pi1 & -> & ->);
    [unfold Merger.vector_size in *; lia|].
  destruct (at_index_defined parts (i + 2)) as (pi2 & -> & ->);
    [unfold Merger.vector_size in *; lia|].
  cbn [checked_bind]. rewrite push_if_positive_app. f_equal. f_equal.
  symmetry. apply take_ge. apply below_cap_room in Hcap.
  etransitivity; [apply push_if_positive_length|lia].
Qed.

Lemma pair_loops_collect disk parts max_candidates candidates :
  Merger.pair_loops disk parts max_candidates candidates
  = defined (candidates ++ take (cap_room max_candidates candidates) (all_pairs disk parts)).
Proof.
  unfold Merger.pair_loops, for_loop, all_pairs.
  apply for_range_collect. intros i cs Hi _.
  unfold pairs_from. apply for_range_collect. intros j cs' Hj Hcap.
  apply pair_body_collect; auto; lia.
Qed.

Lemma triple_loop_bound_le parts :
  Merger.reaches_loops parts = true ->
  0 <= Merger.triple_loop_bound parts <= Merger.vector_size parts - 2.
Proof.
  unfold Merger.reaches_loops, Merger.triple_loop_bound, SizeT.sub, SizeT.modulus.
  rewrite negb_true_iff, Z.ltb_ge. intros Hn. split.
  - apply Z.mod_pos_bound. lia.
  - apply Z.mod_le; lia.
Qed.

Lemma triple_loop_collect disk parts max_candidates candidates :
  Merger.reaches_loops parts = true ->
  Merger.triple_loop disk parts max_candidates candidates
  = defined (candidates ++ take (cap_room max_candidates candidates) (all_triples disk parts)).
Proof.
  intros Hreach. pose proof (triple_loop_bound_le parts Hreach) as Hbound.
  unfold Merger.triple_loop, for_loop, all_triples.
  apply for_range_collect. intros i cs Hi Hcap.
  apply triple_body_collect; auto; lia.
Qed.

(** The candidates [select_merge_candidates] hands to [std::sort]. *)
Definition collected (disk : Disk.t) (parts : list Part.t) (max_candidates : Z)
    : list MergeCandidate.t :=
  take (Z.to_nat max_candidates) (all_pairs disk parts ++ all_triples disk parts).

Lemma select_merge_candidates_collect `{StdSort} disk parts max_candidates :
  Merger.select_merge_candidates disk parts max_candidates
  = defined (if Merger.reaches_loops parts
             then std_sort MergeCandidate.by_score_desc (collected disk parts max_candidates)
             else []).
Proof.
  unfold Merger.select_merge_candidates.
  destruct (Merger.reaches_loops parts) eqn:Hreach; [|reflexivity].
  cbn [negb]. rewrite pair_loops_collect. cbn [checked_bind].
  rewrite triple_loop_collect by exact Hreach. cbn [checked_bind].
  do 2 f_equal. unfold collected. rewrite cap_room_app.
  cbn [app]. unfold cap_room, Merger.vector_size. cbn [length].
  rewrite Z.sub_0_r, take_app. reflexivity.
Qed.

(** *** What the collected candidates are *)

Definition is_pair (disk : Disk.t) (parts : list Part.t) (c : MergeCandidate.t) : Prop :=
  exists i j, 0 <= i < j /\ j < Merger.vector_size parts
              /\ MergeCandidate.part_indices c = [i; j]
              /\ MergeCandidate.score c = Merger.calculate_merge_score disk [i; j] parts.

Definition is_adjacent_triple (disk : Disk.t) (parts : list Part.t) (c : MergeCandidate.t) : Prop :=
  exists i, 0 <= i /\ i + 2 < Merger.vector_size parts
            /\ MergeCandidate.part_indices c = [i; i + 1; i + 2]
            /\ MergeCandidate.score c
               = Merger.calculate_merge_score disk [i; i + 1; i + 2] parts.

Lemma in_push_if_positive c candidate :
  In c (Merger.push_if_positive candidate [])
  <-> c = candidate /\ positive_score (MergeCandidate.score candidate).
Proof.
  unfold Merger.push_if_positive, positive_score.
  destruct (Double.gtb _ _); simpl; intuition congruence.
Qed.

Lemma in_all_pairs disk parts c :
  In c (all_pairs disk parts)
  <-> exists i j, 0 <= i < j /\ j < Merger.vector_size parts
                  /\ In c (pair_candidate disk parts i j).
Proof.
  unfold all_pairs, pairs_from. rewrite in_concat. split.
  - intros (l & Hl & Hc). apply in_map_iff in Hl as (i & <- & Hi).
    apply in_concat in Hc as (l & Hl & Hc). apply in_map_iff in Hl as (j & <- & Hj).
    apply list_elem_of_In, elem_of_seqZ in Hi, Hj.
    exists i, j. repeat split; auto; lia.
  - intros (i & j & Hij & Hj & Hc).
    exists (pairs_from disk parts i). split.
    + apply in_map. apply list_elem_of_In, elem_of_seqZ. lia.
    + unfold pairs_from. apply in_concat. exists (pair_candidate disk parts i j).
      split; [|exact Hc]. apply in_map. apply list_elem_of_In, elem_of_seqZ. lia.
Qed.

Lemma in_all_triples disk parts c :
  In c (all_triples disk parts)
  <-> exists i, 0 <= i < Merger.triple_loop_bound parts /\ In c (triple_candidate disk parts i).
Proof.
  unfold all_triples. rewrite in_concat. split.
  - intros (l & Hl & Hc). apply in_map_iff in Hl as (i & <- & Hi).
    apply list_elem_of_In, elem_of_seqZ in Hi. exists i. split; [lia|exact Hc].
  - intros (i & Hi & Hc). exists (triple_candidate disk parts i). split; [|exact Hc].
    apply in_map. apply list_elem_of_In, elem_of_seqZ. lia.
Qed.

Lemma in_pair_candidate disk parts i j c :
  In c (pair_candidate disk parts i j) ->
  MergeCandidate.part_indices c = [i; j]
  /\ MergeCandidate.score c = Merger.calculate_merge_score disk [i; j] parts
  /\ positive_score (MergeCandidate.score c).
Proof.
  unfold pair_candidate.
  destruct (parts !! Z.to_nat i); [|intros []].
  destruct (parts !! Z.to_nat j); [|intros []].
  intros Hc. apply in_push_if_positive in Hc as [-> Hpos]. auto.
Qed.

Lemma in_triple_candidate disk parts i c :
  In c (triple_candidate disk parts i) ->
  MergeCandidate.part_indices c = [i; i + 1; i + 2]
  /\ MergeCandidate.score c = Merger.calculate_merge_score disk [i; i + 1; i + 2] parts
  /\ positive_score (MergeCandidate.score c).
Proof.
  unfold triple_candidate.
  destruct (parts !! Z.to_nat i); [|intros []].
  destruct (parts !! Z.to_nat (i + 1)); [|intros []].
  destruct (parts !! Z.to_nat (i + 2)); [|intros []].
  intros Hc. apply in_push_if_positive in Hc as [-> Hpos]. auto.
Qed.

Lemma pair_candidate_found disk parts i j :
  0 <= i < j -> j < Merger.vector_size parts ->
  positive_score (Merger.calculate_merge_score disk [i; j] parts) ->
  exists c, In c (pair_candidate disk parts i j) /\ MergeCandidate.part_indices c = [i; j].
Proof.
  intros Hij Hj Hpos. unfold pair_candidate.
  destruct (at_index_defined parts i) as (pi & -> & _); [unfold Merger.vector_size in *; lia|].
  destruct (at_index_defined parts j) as (pj & -> & _); [unfold Merger.vector_size in *; lia|].
  eexists. split; [apply in_push_if_positive; split; [reflexivity|exact Hpos]|reflexivity].
Qed.

Lemma triple_candidate_found disk parts i :
  0 <= i -> i + 2 < Merger.vector_size parts ->
  positive_score (Merger.calculate_merge_score disk [i; i + 1; i + 2] parts) ->
  exists c, In c (triple_candidate disk parts i)
            /\ MergeCandidate.part_indices c = [i; i + 1; i + 2].
Proof.
  intros Hi Hi2 Hpos. unfold triple_candidate.
  destruct (at_index_defined parts i) as (pi & -> & _); [unfold Merger.vector_size in *; lia|].
  destruct (at_index_defined parts (i + 1)) as (pi1 & -> & _);
    [unfold Merger.vector_size in *; lia|].
  destruct (at_index_defined parts (i + 2)) as (pi2 & -> & _);
    [unfold Merger.vector_size in *; lia|].
  eexists. split; [apply in_push_if_positive; split; [reflexivity|exact Hpos]|reflexivity].
Qed.

Lemma in_take {A} (n : nat) (l : list A) x : In x (take n l) -> In x l.
Proof. intros Hx. apply list_elem_of_In in Hx. apply list_elem_of_In. eapply subseteq_take. exact Hx. Qed.

Lemma collected_sound disk parts max_candidates c :
  Merger.reaches_loops parts = true ->
  In c (collected disk parts max_candidates) ->
  positive_score (MergeCandidate.score c)
  /\ (is_pair disk parts c \/ is_adjacent_triple disk parts c).
Proof.
  intros Hreach Hc. apply in_take in Hc. apply in_app_or in Hc as [Hc|Hc].
  - apply in_all_pairs in Hc as (i & j & Hij & Hj & Hc).
    apply in_pair_candidate in Hc as (Hidx & Hscore & Hpos).
    split; [exact Hpos|left]. exists i, j. auto.
  - apply in_all_triples in Hc as (i & Hi & Hc).
    apply in_triple_candidate in Hc as (Hidx & Hscore & Hpos).
    pose proof (triple_loop_bound_le parts Hreach).
    split; [exact Hpos|right]. exists i. repeat split; auto; lia.
Qed.

(** ** The bound of the loop over triples *)

(** The subtraction [parts.size() - 2] is reached and wraps around. *)
Definition triple_bound_wraps (parts : list Part.t) : Prop :=
  Merger.reaches_loops parts = true /\ Merger.vector_size parts - 2 < 0.

(** C5, as the code has it: [select_merge_candidates] never evaluates
    [parts.size() - 2] on fewer than two parts, because it returns before
    its loops, and with two parts the bound is 0; so the subtraction never
    wraps, no index is read out of range, and a list of fewer than three
    parts yields pairs only. *)
Theorem select_merge_candidates_in_bounds `{StdSort} (disk : Disk.t) (parts : list Part.t)
    (max_candidates : Z) :
  ~ triple_bound_wraps parts
  /\ exists candidates,
       Merger.select_merge_candidates disk parts max_candidates = defined candidates
       /\ (Merger.vector_size parts < 2 -> candidates = [])
       /\ (Merger.vector_size parts = 2 -> Merger.triple_loop_bound parts = 0)
       /\ (Merger.vector_size parts < 3 ->
           Forall (fun c => length (MergeCandidate.part_indices c) = 2%nat) candidates).
Proof.
  split.
  - unfold triple_bound_wraps, Merger.reaches_loops.
    rewrite negb_true_iff, Z.ltb_ge. lia.
  - rewrite select_merge_candidates_collect. eexists. split; [reflexivity|].
    split; [|split].
    + intros Hn. unfold Merger.reaches_loops.
      apply Z.ltb_lt in Hn. now rewrite Hn.
    + intros Hn. unfold Merger.triple_loop_bound. now rewrite Hn.
    + intros Hn. destruct (Merger.reaches_loops parts) eqn:Hreach; [|constructor].
      pose proof (triple_loop_bound_le parts Hreach) as Hbound.
      assert (Hperm : Permutation (collected disk parts max_candidates)
                (std_sort MergeCandidate.by_score_desc (collected disk parts max_candidates))).
      { apply std_sort_permutation, by_score_desc_strict_weak_order.
        apply List.Forall_forall. intros c Hc.
        now apply (collected_sound disk parts max_candidates c Hreach). }
      apply List.Forall_forall. intros c Hc.
      apply (Permutation_in _ (Permutation_sym Hperm)) in Hc.
      apply in_take in Hc. apply in_app_or in Hc as [Hc|Hc].
      * apply in_all_pairs in Hc as (i & j & _ & _ & Hc).
        apply in_pair_candidate in Hc as (-> & _). reflexivity.
      * apply in_all_triples in Hc as (i & Hi & _). lia.
Qed.

(** The claim of an underflow on a short list, refuted: with two parts the
    bound is 0 and the call returns, and no list of fewer than three parts
    makes the subtraction wrap or an index fall out of range. *)
Lemma triple_loop_guarded_below_three :
  Merger.triple_loop_bound [Part.new 1 "./data"; Part.new 2 "./data"] = 0
  /\ Merger.select_merge_candidates (H := reference_sort) ∅
       [Part.new 1 "./data"; Part.new 2 "./data"] 3 = defined []
  /\ Merger.select_merge_candidates (H := reference_sort) ∅ [Part.new 1 "./data"] 3
     = defined []
  /\ ~ (exists (sorter : StdSort) (disk : Disk.t) (parts : list Part.t) (max_candidates : Z),
          (length parts < 3)%nat
          /\ (triple_bound_wraps parts
              \/ exists index size,
                   Merger.select_merge_candidates disk parts max_candidates
                   = out_of_bounds index size)).
Proof.
  split; [reflexivity|split; [reflexivity|split; [reflexivity|]]].
  intros (sorter & disk & parts & max_candidates & _ & [Hwrap|(index & size & Hoob)]).
  - destruct Hwrap as [Hreach Hneg]. unfold Merger.reaches_loops in Hreach.
    rewrite negb_true_iff, Z.ltb_ge in Hreach. lia.
  - rewrite select_merge_candidates_collect in Hoob. discriminate.
Qed.

(** ** The candidates returned *)

(** C4, as the code has it: [select_merge_candidates] returns candidates
    that are pairs [(i, j)] with [i < j], adjacent or not, or adjacent
    triples [(i, i+1, i+2)], each with the score [calculate_merge_score]
    gives it and that score positive; it returns at most [max_candidates]
    of them, sorted by descending score, and when it returns fewer than
    [max_candidates] it returns every such pair and triple. *)
Theorem select_merge_candidates_enumeration `{StdSort} (disk : Disk.t) (parts : list Part.t)
    (max_candidates : Z) :
  Merger.vector_size parts <= SizeT.SIZE_MAX ->
  0 <= max_candidates ->
  exists result,
    Merger.select_merge_candidates disk parts max_candidates = defined result
    /\ (forall c, In c result ->
          positive_score (MergeCandidate.score c)
          /\ (is_pair disk parts c \/ is_adjacent_triple disk parts c))
    /\ Merger.vector_size result <= max_candidates
    /\ sorted_by MergeCandidate.by_score_desc result
    /\ (Merger.vector_size result < max_candidates ->
        (forall i j, 0 <= i < j -> j < Merger.vector_size parts ->
           positive_score (Merger.calculate_merge_score disk [i; j] parts) ->
           In [i; j] (map MergeCandidate.part_indices result))
        /\ (forall i, 0 <= i -> i + 2 < Merger.vector_size parts ->
              positive_score (Merger.calculate_merge_score disk [i; i + 1; i + 2] parts) ->
              In [i; i + 1; i + 2] (map MergeCandidate.part_indices result))).
Proof.
  intros Hsize Hmax. rewrite select_merge_candidates_collect. eexists. split; [reflexivity|].
  destruct (Merger.reaches_loops parts) eqn:Hreach.
  - assert (Hpos : Forall (fun c => positive_score (MergeCandidate.score c))
                     (collected disk parts max_candidates)).
    { apply List.Forall_forall. intros c Hc.
      now apply (collected_sound disk parts max_candidates c Hreach). }
    pose proof (by_score_desc_strict_weak_order _ Hpos) as Hswo.
    pose proof (std_sort_permutation _ _ _ Hswo) as Hperm.
    split; [|split; [|split]].
    + intros c Hc. apply (Permutation_in _ (Permutation_sym Hperm)) in Hc.
      now apply (collected_sound disk parts max_candidates c Hreach).
    + unfold Merger.vector_size. rewrite <- (Permutation_length Hperm).
      unfold collected. rewrite length_take. lia.
    + now apply std_sort_sorted.
    + unfold Merger.vector_size at 1. rewrite <- (Permutation_length Hperm).
      intros Hroom.
      assert (Hall : collected disk parts max_candidates
                     = all_pairs disk parts ++ all_triples disk parts).
      { unfold collected in *. rewrite length_take in Hroom. apply take_ge. lia. }
      split.
      * intros i j Hij Hj Hscore.
        destruct (pair_candidate_found disk parts i j Hij Hj Hscore) as (c & Hc & <-).
        apply in_map. apply (Permutation_in _ Hperm). rewrite Hall.
        apply in_or_app. left. apply in_all_pairs. eauto.
      * intros i Hi Hi2 Hscore.
        destruct (triple_candidate_found disk parts i Hi Hi2 Hscore) as (c & Hc & <-).
        apply in_map. apply (Permutation_in _ Hperm). rewrite Hall.
        apply in_or_app. right. apply in_all_triples. exists i. split; [|exact Hc].
        unfold Merger.triple_loop_bound. rewrite SizeT.sub_no_wrap.
        -- lia.
        -- lia.
        -- unfold SizeT.SIZE_MAX in Hsize. lia.
  - unfold Merger.reaches_loops in Hreach. rewrite negb_false_iff, Z.ltb_lt in Hreach.
    split; [intros c []|split; [unfold Merger.vector_size; simpl; lia|split; [constructor|]]].
    intros _. split; intros; lia.
Qed.

(** *** Three parts of sizes 166, 266 and 266 bytes *)

Definition long_value : string :=
  "0123456789012345678901234567890123456789012345678901234567890123456789012345678901234567890123456789!".

Definition three_state : Disk.t * MergeTree.t :=
  Eval vm_compute in
    let engine := MergeTree.new (H := reference_sort) ∅ "./data"
                    (MergeTreeConfig.mk 1 10 30 false) in
    match insert_rows (H := reference_sort) 1700000000 ∅ engine
            [mkRow "a" "x" 1; mkRow "b" long_value 2; mkRow "c" long_value 3] with
    | inr state => state
    | inl _ => (∅, engine)
    end.

Definition three_disk : Disk.t := fst three_state.
Definition three_parts : list Part.t := MergeTree.parts_ (snd three_state).

Example three_parts_sizes :
  map (Part.disk_usage three_disk) three_parts = [166; 266; 266]
  /\ map (fun p => PartMetadata.row_count (Part.metadata p)) three_parts = [1; 1; 1].
Proof. split; vm_compute; reflexivity. Qed.

Lemma select_merge_candidates_enumeration_witness :
  exists result,
    Merger.select_merge_candidates (H := reference_sort) three_disk three_parts 10
    = defined result
    /\ map MergeCandidate.part_indices result = [[1; 2]; [0; 1; 2]; [0; 2]; [0; 1]]
    /\ sorted_by MergeCandidate.by_score_desc result.
Proof.
  destruct (select_merge_candidates_enumeration (H := reference_sort)
              three_disk three_parts 10) as (result & Hresult & _ & _ & Hsorted & _).
  - vm_compute. discriminate.
  - lia.
  - exists result. split; [exact Hresult|]. split; [|exact Hsorted].
    vm_compute in Hresult. injection Hresult as <-. reflexivity.
Defined.

(** The claim of a best-first selection among adjacent candidates, refuted
    on the three parts: asked for one candidate, as [perform_merge] asks,
    the function returns the pair (0, 1), the first with a positive score,
    although the adjacent pair (1, 2) scores higher; asked for ten, it
    returns the pair (0, 2), which is not adjacent. *)
Lemma select_merge_candidates_first_not_best :
  exists c result,
    Merger.select_merge_candidates (H := reference_sort) three_disk three_parts 1
    = defined [c]
    /\ MergeCandidate.part_indices c = [0; 1]
    /\ Double.gtb (Merger.calculate_merge_score three_disk [1; 2] three_parts)
                  (MergeCandidate.score c) = true
    /\ Merger.select_merge_candidates (H := reference_sort) three_disk three_parts 10
       = defined result
    /\ In [0; 2] (map MergeCandidate.part_indices result).
Proof.
  eexists. eexists. split; [vm_compute; reflexivity|].
  split; [reflexivity|]. split; [vm_compute; reflexivity|].
  split; [vm_compute; reflexivity|].
  vm_compute. tauto.
Qed.

(** ** Recovery of the parts at construction *)

(** The ids the scan of [base_path] collects. *)
Definition observed_part_ids (disk : Disk.t) : list Z :=
  MergeTree.scan_part_ids (map_to_list disk) [].






Lemma push_existing_parts_filter disk base_path part_ids parts :
  MergeTree.push_existing_parts disk base_path part_ids parts
  = parts ++ map (fun id => Part.new id base_path)
               (List.filter (fun id => Part.exists_on_disk disk (Part.new id base_path))
                            part_ids).
Proof.
  revert parts. induction part_ids as [|id rest IH]; intros parts; simpl.
  - now rewrite app_nil_r.
  - rewrite IH. destruct (Part.exists_on_disk disk (Part.new id base_path)); simpl.
    + now rewrite <- app_assoc.
    + reflexivity.
Qed.

(** *** Which ids the scan observes *)












(** *** A data directory whose only part has the greatest id [size_t] holds *)



(** *** A data directory whose only directory is named [part_12abc] *)

Definition suffixed_name_disk : Disk.t :=
  {[ "part_12abc" :=
       Disk.directory (Disk.mk_dir (Some (PartMetadata.new 12)) (Some []) ∅) ]}.

(** No directory is named [part_<decimal id>], yet the scan observes the
    id 12: no part is recovered, and the next part id is 13, not 1. *)
Example recovery_observes_suffixed_name :
  observed_part_ids suffixed_name_disk = [12]
  /\ MergeTree.parts_
       (MergeTree.new (H := reference_sort) suffixed_name_disk "./data" MergeTreeConfig.default)
     = []
  /\ Merger.get_next_part_id
       (MergeTree.merger_
          (MergeTree.new (H := reference_sort) suffixed_name_disk "./data"
             MergeTreeConfig.default))
     = 13.
Proof. repeat split; vm_compute; reflexivity. Qed.


(** ** The k-way merge *)

(** *** The order of the heap *)

Lemma greater_spec a b :
  MergeIterator.greater a b = true
  <-> key_lt (key (MergeIterator.row b)) (key (MergeIterator.row a)) = true
      \/ (key (MergeIterator.row a) = key (MergeIterator.row b)
          /\ timestamp (MergeIterator.row a) < timestamp (MergeIterator.row b)).
Proof.
  unfold MergeIterator.greater, key_gt.
  rewrite orb_true_iff, andb_true_iff, key_eq_true, Z.ltb_lt. tauto.
Qed.

Lemma greater_false a b :
  MergeIterator.greater a b = false
  <-> key_lt (key (MergeIterator.row a)) (key (MergeIterator.row b)) = true
      \/ (key (MergeIterator.row a) = key (MergeIterator.row b)
          /\ timestamp (MergeIterator.row b) <= timestamp (MergeIterator.row a)).
Proof.
  rewrite <- not_true_iff_false, greater_spec. split.
  - intros Hno.
    destruct (key_lt (key (MergeIterator.row a)) (key (MergeIterator.row b))) eqn:Hab;
      [now left|right].
    destruct (key_lt (key (MergeIterator.row b)) (key (MergeIterator.row a))) eqn:Hba;
      [exfalso; apply Hno; now left|].
    pose proof (key_lt_total _ _ Hab Hba) as Heq. split; [exact Heq|].
    destruct (Z_lt_le_dec (timestamp (MergeIterator.row a)) (timestamp (MergeIterator.row b)));
      [exfalso; apply Hno; now right|lia].
  - intros [Hab|[Heq Hts]] [Hba|[Heq' Hlt]].
    + rewrite (key_lt_asym _ _ Hab) in Hba. discriminate.
    + rewrite Heq', key_lt_irrefl in Hab. discriminate.
    + rewrite Heq, key_lt_irrefl in Hba. discriminate.
    + lia.
Qed.

Lemma greater_strict_weak_order (l : list MergeIterator.RowWithSource) :
  strict_weak_order_on MergeIterator.greater l.
Proof.
  split; [|split].
  - intros x _. apply greater_false. right. split; [reflexivity|lia].
  - intros x y z _ _ _ Hxy Hyz. apply greater_spec in Hxy, Hyz. apply greater_spec.
    destruct Hxy as [Hxy|[Hxy Txy]], Hyz as [Hyz|[Hyz Tyz]].
    + left. eapply key_lt_trans; eassumption.
    + left. now rewrite <- Hyz.
    + left. now rewrite Hxy.
    + right. split; [congruence|lia].
  - intros x y z _ _ _ Hxy Hyx Hyz Hzy.
    apply greater_false in Hxy, Hyx, Hyz, Hzy.
    assert (Hkxy : key (MergeIterator.row x) = key (MergeIterator.row y)
                   /\ timestamp (MergeIterator.row x) = timestamp (MergeIterator.row y)).
    { destruct Hxy as [Hxy|[Hxy Txy]], Hyx as [Hyx|[Hyx Tyx]].
      - rewrite (key_lt_asym _ _ Hxy) in Hyx. discriminate.
      - rewrite Hyx, key_lt_irrefl in Hxy. discriminate.
      - rewrite Hxy, key_lt_irrefl in Hyx. discriminate.
      - split; [exact Hxy|lia]. }
    assert (Hkyz : key (MergeIterator.row y) = key (MergeIterator.row z)
                   /\ timestamp (MergeIterator.row y) = timestamp (MergeIterator.row z)).
    { destruct Hyz as [Hyz|[Hyz Tyz]], Hzy as [Hzy|[Hzy Tzy]].
      - rewrite (key_lt_asym _ _ Hyz) in Hzy. discriminate.
      - rewrite Hzy, key_lt_irrefl in Hyz. discriminate.
      - rewrite Hyz, key_lt_irrefl in Hzy. discriminate.
      - split; [exact Hyz|lia]. }
    destruct Hkxy as [K1 T1], Hkyz as [K2 T2].
    split; apply greater_false; right; split; try congruence; lia.
Qed.

(** The popped element has the smallest key of the heap. *)
Lemma greater_false_key_le a b :
  MergeIterator.greater a b = false ->
  key_le (key (MergeIterator.row a)) (key (MergeIterator.row b)) = true.
Proof.
  intros Hab. apply greater_false in Hab as [Hlt|[Heq _]].
  - now apply key_lt_le.
  - rewrite Heq. apply key_le_refl.
Qed.

(** *** The heap holds the current row of every part that has one *)

Section MergeInvariant.
Context `{StdPriorityQueue}.

Definition source_entry (i : nat) (rows : RowVector) (k : nat)
    : list MergeIterator.RowWithSource :=
  match rows !! k with
  | Some r => [MergeIterator.mkSource r i k]
  | None => []
  end.

Fixpoint heads_from (i : nat) (part_rows : list RowVector) (indices : list nat)
    : list MergeIterator.RowWithSource :=
  match part_rows, indices with
  | rows :: part_rows', k :: indices' =>
      source_entry i rows k ++ heads_from (S i) part_rows' indices'
  | _, _ => []
  end.

Fixpoint remaining (part_rows : list RowVector) (indices : list nat) : nat :=
  match part_rows, indices with
  | rows :: part_rows', k :: indices' => (length rows - k) + remaining part_rows' indices'
  | _, _ => O
  end.

Definition heap_invariant (it : MergeIterator.t) : Prop :=
  Permutation (pq_elements (MergeIterator.heap_ it))
    (heads_from O (MergeIterator.part_rows_ it) (MergeIterator.current_indices_ it)).

Lemma heads_from_In i part_rows indices x :
  In x (heads_from i part_rows indices) ->
  exists p rows,
    MergeIterator.part_index x = (i + p)%nat
    /\ part_rows !! p = Some rows
    /\ indices !! p = Some (MergeIterator.row_index x)
    /\ rows !! MergeIterator.row_index x = Some (MergeIterator.row x).
Proof.
  revert i indices. induction part_rows as [|rows part_rows IH]; intros i [|k indices];
    simpl; try tauto.
  intros Hx. apply in_app_or in Hx as [Hx|Hx].
  - unfold source_entry in Hx. destruct (rows !! k) as [r|] eqn:Hr; [|destruct Hx].
    destruct Hx as [<-|[]]. exists O, rows. simpl. rewrite Nat.add_0_r. auto.
  - apply IH in Hx as (p & rows' & Hp & Hrows & Hk & Hr).
    exists (S p), rows'. simpl. repeat split; auto. lia.
Qed.

Lemma heads_from_lookup i part_rows indices p rows k r :
  part_rows !! p = Some rows -> indices !! p = Some k -> rows !! k = Some r ->
  In (MergeIterator.mkSource r (i + p) k) (heads_from i part_rows indices).
Proof.
  revert i indices p. induction part_rows as [|rows0 part_rows IH]; intros i indices p Hrows Hk Hr.
  - destruct p; discriminate.
  - destruct indices as [|k0 indices]; [destruct p; discriminate|].
    destruct p as [|p]; simpl in *.
    + injection Hrows as ->. injection Hk as ->. apply in_or_app. left.
      unfold source_entry. rewrite Hr, Nat.add_0_r. now left.
    + apply in_or_app. right.
      replace (i + S p)%nat with (S i + p)%nat by lia. now apply IH.
Qed.

Lemma heads_from_advance i part_rows indices p rows k k' :
  part_rows !! p = Some rows -> indices !! p = Some k ->
  Permutation (source_entry (i + p) rows k ++ heads_from i part_rows (<[p := k']> indices))
              (source_entry (i + p) rows k' ++ heads_from i part_rows indices).
Proof.
  revert i indices p. induction part_rows as [|rows0 part_rows IH]; intros i indices p Hrows Hk.
  - destruct p; discriminate.
  - destruct indices as [|k0 indices]; [destruct p; discriminate|].
    destruct p as [|p]; simpl in *.
    + injection Hrows as ->. injection Hk as ->. rewrite Nat.add_0_r.
      apply Permutation_app_swap_app.
    + replace (i + S p)%nat with (S i + p)%nat by lia.
      etransitivity; [apply Permutation_app_swap_app|].
      etransitivity; [|apply Permutation_app_swap_app].
      apply Permutation_app_head. now apply IH.
Qed.

Lemma remaining_advance part_rows indices p rows k :
  part_rows !! p = Some rows -> indices !! p = Some k -> (k < length rows)%nat ->
  S (remaining part_rows (<[p := S k]> indices)) = remaining part_rows indices.
Proof.
  revert indices p. induction part_rows as [|rows0 part_rows IH]; intros indices p Hrows Hk Hlt.
  - destruct p; discriminate.
  - destruct indices as [|k0 indices]; [destruct p; discriminate|].
    destruct p as [|p]; simpl in *.
    + injection Hrows as ->. injection Hk as ->. lia.
    + rewrite <- (IH indices p Hrows Hk Hlt). lia.
Qed.

Lemma remaining_start part_rows :
  remaining part_rows (replicate (length part_rows) O) = length (concat part_rows).
Proof.
  induction part_rows as [|rows part_rows IH]; simpl; [reflexivity|].
  rewrite IH, length_app. lia.
Qed.

Lemma initialize_heap_elements part_rows heap i :
  Permutation
    (pq_elements
       (fst (fold_left
               (fun '(heap, i) rows =>
                  (match rows with
                   | [] => heap
                   | front :: _ =>
                       pq_push MergeIterator.greater (MergeIterator.mkSource front i 0) heap
                   end,
                   S i))
               part_rows (heap, i))))
    (pq_elements heap ++ heads_from i part_rows (replicate (length part_rows) O)).
Proof.
  revert heap i. induction part_rows as [|rows part_rows IH]; intros heap i; simpl.
  - now rewrite app_nil_r.
  - etransitivity; [apply IH|]. destruct rows as [|front rows]; simpl.
    + reflexivity.
    + etransitivity; [apply Permutation_app_tail, pq_push_elements|].
      simpl. apply Permutation_middle.
Qed.

Lemma new_invariant part_rows : heap_invariant (MergeIterator.new part_rows).
Proof.
  unfold heap_invariant, MergeIterator.new, MergeIterator.initialize_heap. simpl.
  etransitivity; [apply initialize_heap_elements|]. now rewrite pq_new_elements.
Qed.


Lemma next_returns it :
  MergeIterator.has_next it = true -> exists r it', MergeIterator.next it = inr (r, it').
Proof.
  unfold MergeIterator.has_next, MergeIterator.next. rewrite negb_true_iff. intros Hne.
  destruct (pq_pop MergeIterator.greater (MergeIterator.heap_ it)) as [[x heap]|] eqn:Hpop;
    [eauto|].
  apply pq_pop_empty in Hpop. apply pq_is_empty_elements in Hpop. congruence.
Qed.

Lemma next_step it r it' :
  heap_invariant it ->
  MergeIterator.next it = inr (r, it') ->
  exists p rows k,
    MergeIterator.part_rows_ it !! p = Some rows
    /\ MergeIterator.current_indices_ it !! p = Some k
    /\ rows !! k = Some r
    /\ MergeIterator.part_rows_ it' = MergeIterator.part_rows_ it
    /\ MergeIterator.current_indices_ it' = <[p := S k]> (MergeIterator.current_indices_ it)
    /\ heap_invariant it'
    /\ Forall (fun y => MergeIterator.greater (MergeIterator.mkSource r p k) y = false)
              (heads_from O (MergeIterator.part_rows_ it) (MergeIterator.current_indices_ it)).
Proof.
  unfold heap_invariant, MergeIterator.next. intros Hinv.
  destruct (pq_pop MergeIterator.greater (MergeIterator.heap_ it)) as [[x heap]|] eqn:Hpop;
    [|discriminate].
  intros [= <- <-].
  pose proof (pq_pop_elements _ _ _ _ _ Hpop) as Hperm.
  pose proof (pq_pop_top _ _ _ _ _ (greater_strict_weak_order _) Hpop) as Htop.
  assert (Hx : In x (heads_from O (MergeIterator.part_rows_ it)
                       (MergeIterator.current_indices_ it))).
  { eapply Permutation_in; [exact Hinv|]. eapply Permutation_in; [apply Permutation_sym, Hperm|].
    now left. }
  destruct (heads_from_In _ _ _ _ Hx) as (p & rows & Hp & Hrows & Hk & Hr).
  simpl in Hp. destruct x as [r p' k]. simpl in *. subst p'.
  exists p, rows, k. unfold MergeIterator.advance_part. simpl. rewrite Hk, Hrows.
  assert (Hentry : source_entry p rows k = [MergeIterator.mkSource r p k]).
  { unfold source_entry. now rewrite Hr. }
  pose proof (heads_from_advance O _ _ p rows k (S k) Hrows Hk) as Hadv.
  simpl in Hadv. rewrite Hentry in Hadv.
  assert (Hnew : Permutation
            (source_entry p rows (S k) ++ pq_elements heap)
            (heads_from O (MergeIterator.part_rows_ it)
               (<[p := S k]> (MergeIterator.current_indices_ it)))).
  { apply (Permutation_cons_inv (a := MergeIterator.mkSource r p k)).
    etransitivity; [|apply Permutation_sym, Hadv].
    etransitivity; [apply Permutation_middle|].
    apply Permutation_app_head. etransitivity; [apply Permutation_sym, Hperm|exact Hinv]. }
  assert (Hmin : Forall (fun y => MergeIterator.greater (MergeIterator.mkSource r p k) y = false)
                   (heads_from O (MergeIterator.part_rows_ it)
                      (MergeIterator.current_indices_ it))).
  { apply List.Forall_forall. intros y Hy.
    apply (Permutation_in _ (Permutation_sym Hinv)) in Hy.
    apply (Permutation_in _ Hperm) in Hy.
    destruct Hy as [<-|Hy].
    - apply greater_false. right. split; [reflexivity|lia].
    - rewrite List.Forall_forall in Htop. now apply Htop. }
  unfold source_entry in Hnew.
  destruct (rows !! S k) as [r'|]; simpl; repeat split; auto.
  etransitivity; [apply pq_push_elements|exact Hnew].
Qed.


(** *** What the merge loop keeps *)

Definition keys_ascending (l : RowVector) : Prop :=
  StronglySorted (fun a b => key_le (key a) (key b) = true) l.

Definition no_adjacent_repeat (l : RowVector) : Prop :=
  forall (i : nat) (x y : Row),
    l !! i = Some x -> l !! S i = Some y ->
    ~ (key x = key y /\ timestamp x = timestamp y).

(** Every row a part has not given yet is at or above [back] in key. *)
Definition bounded_below (back : Row) (part_rows : list RowVector) (indices : list nat) : Prop :=
  forall p rows k,
    part_rows !! p = Some rows -> indices !! p = Some k ->
    Forall (fun r => key_le (key back) (key r) = true) (drop k rows).

Lemma last_cons_default {A} (x : A) (l : list A) (d : A) :
  last (x :: l) = Some (List.last (x :: l) d).
Proof.
  revert x. induction l as [|y l IH]; intros x; [reflexivity|].
  change (last (x :: y :: l)) with (last (y :: l)).
  change (List.last (x :: y :: l) d) with (List.last (y :: l) d).
  apply IH.
Qed.

Lemma differs_from_back_last merged current_row :
  Merger.differs_from_back merged current_row
  = match last merged with
    | None => true
    | Some back =>
        negb (key_eq (key back) (key current_row))
        || negb (timestamp back =? timestamp current_row)
    end.
Proof.
  unfold Merger.differs_from_back. destruct merged as [|front rest]; [reflexivity|].
  now rewrite (last_cons_default front rest front).
Qed.

Lemma keys_ascending_drop rows k h :
  keys_ascending rows -> rows !! k = Some h ->
  Forall (fun r => key_le (key h) (key r) = true) (drop k rows).
Proof.
  intros Hs Hh. apply Forall_lookup. intros j r Hr. rewrite lookup_drop in Hr.
  destruct j as [|j].
  - rewrite Nat.add_0_r, Hh in Hr. injection Hr as <-. apply key_le_refl.
  - apply (StronglySorted_lookup (fun a b => key_le (key a) (key b) = true)
             rows k (k + S j) h r Hs); [lia|exact Hh|exact Hr].
Qed.

Lemma keys_ascending_last merged back :
  keys_ascending merged -> last merged = Some back ->
  Forall (fun r => key_le (key r) (key back) = true) merged.
Proof.
  intros Hs. induction Hs as [|x rest Hs IH Hx]; [discriminate|].
  destruct rest as [|y rest'].
  - intros [= <-]. repeat constructor. apply key_le_refl.
  - intros Hlast. change (last (x :: y :: rest')) with (last (y :: rest')) in Hlast.
    specialize (IH Hlast). constructor; [|exact IH].
    rewrite List.Forall_forall in Hx. apply Hx.
    apply list_elem_of_In. eapply list_elem_of_lookup_2.
    rewrite last_lookup in Hlast. exact Hlast.
Qed.

Lemma keys_ascending_snoc merged r :
  keys_ascending merged ->
  (forall back, last merged = Some back -> key_le (key back) (key r) = true) ->
  keys_ascending (merged ++ [r]).
Proof.
  intros Hs Hback. apply StronglySorted_app_2; [|exact Hs|repeat constructor].
  intros x y Hx Hy. apply list_elem_of_In in Hy. destruct Hy as [<-|[]].
  destruct (last merged) as [back|] eqn:Hlast.
  - pose proof (keys_ascending_last _ _ Hs Hlast) as Hall.
    rewrite List.Forall_forall in Hall. apply list_elem_of_In in Hx.
    eapply key_le_trans; [apply Hall, Hx|apply Hback; reflexivity].
  - apply last_None in Hlast. subst. inversion Hx.
Qed.

Lemma no_adjacent_repeat_snoc merged r :
  no_adjacent_repeat merged ->
  (forall back, last merged = Some back ->
     ~ (key back = key r /\ timestamp back = timestamp r)) ->
  no_adjacent_repeat (merged ++ [r]).
Proof.
  intros Hold Hback i x y Hx Hy.
  destruct (Nat.lt_ge_cases (S i) (length merged)) as [Hlt|Hge].
  - rewrite lookup_app_l in Hx by lia. rewrite lookup_app_l in Hy by lia.
    eapply Hold; eassumption.
  - pose proof (lookup_lt_Some _ _ _ Hy) as Hlen. rewrite length_app in Hlen. simpl in Hlen.
    assert (S i = length merged) as Hi by lia.
    rewrite lookup_app_l in Hx by lia.
    rewrite lookup_app_r, Hi, Nat.sub_diag in Hy by lia. injection Hy as <-.
    apply Hback. rewrite last_lookup. rewrite <- Hi. exact Hx.
Qed.

Lemma bounded_below_heads r part_rows indices :
  Forall keys_ascending part_rows ->
  Forall (fun y => key_le (key r) (key (MergeIterator.row y)) = true)
         (heads_from O part_rows indices) ->
  bounded_below r part_rows indices.
Proof.
  intros Hsorted Hheads p rows k Hrows Hk.
  destruct (rows !! k) as [h|] eqn:Hh.
  - rewrite List.Forall_forall in Hheads.
    pose proof (Hheads _ (heads_from_lookup O _ _ _ _ _ _ Hrows Hk Hh)) as Hle. simpl in Hle.
    rewrite Forall_lookup in Hsorted. specialize (Hsorted _ _ Hrows).
    eapply Forall_impl; [apply (keys_ascending_drop _ _ _ Hsorted Hh)|].
    intros x Hx. simpl in Hx. eapply key_le_trans; eassumption.
  - apply lookup_ge_None in Hh. rewrite drop_ge by lia. constructor.
Qed.

Lemma bounded_below_advance back part_rows indices p k :
  indices !! p = Some k ->
  bounded_below back part_rows indices ->
  bounded_below back part_rows (<[p := S k]> indices).
Proof.
  intros Hk Hb q rows k' Hrows Hk'.
  destruct (decide (q = p)) as [->|Hne].
  - rewrite list_lookup_insert_eq in Hk' by (eapply lookup_lt_Some; eassumption).
    injection Hk' as <-. specialize (Hb _ _ _ Hrows Hk).
    rewrite <- (Nat.add_1_r k), <- drop_drop. now apply Forall_drop.
  - rewrite list_lookup_insert_ne in Hk' by congruence. now apply (Hb q).
Qed.

Lemma merge_loop_sorted fuel it merged out it' :
  Forall keys_ascending (MergeIterator.part_rows_ it) ->
  heap_invariant it ->
  (forall back, last merged = Some back ->
     bounded_below back (MergeIterator.part_rows_ it) (MergeIterator.current_indices_ it)) ->
  keys_ascending merged -> no_adjacent_repeat merged ->
  Merger.merge_loop fuel it merged = inr (out, it') ->
  keys_ascending out /\ no_adjacent_repeat out.
Proof.
  revert it merged. induction fuel as [|fuel IH]; intros it merged Hsorted Hinv Hbound Hasc Hrep;
    simpl.
  - intros [= <- <-]. auto.
  - destruct (MergeIterator.has_next it); [|intros [= <- <-]; auto].
    destruct (MergeIterator.next it) as [e|[r it1]] eqn:Hnext; simpl; [discriminate|].
    destruct (next_step _ _ _ Hinv Hnext)
      as (p & rows & k & Hrows & Hk & Hr & Hparts & Hindices & Hinv1 & Hmin).
    assert (Hbr : bounded_below r (MergeIterator.part_rows_ it)
                    (MergeIterator.current_indices_ it)).
    { apply bounded_below_heads; [exact Hsorted|].
      eapply Forall_impl; [exact Hmin|]. intros y Hy.
      apply (greater_false_key_le _ _ Hy). }
    assert (Hback_le : forall back, last merged = Some back ->
                                    key_le (key back) (key r) = true).
    { intros back Hlast. specialize (Hbound back Hlast p rows k Hrows Hk).
      rewrite Forall_lookup in Hbound. apply (Hbound O). rewrite lookup_drop, Nat.add_0_r.
      exact Hr. }
    apply IH; clear IH.
    + now rewrite Hparts.
    + exact Hinv1.
    + rewrite Hparts, Hindices. intros back Hlast.
      apply bounded_below_advance; [exact Hk|].
      rewrite differs_from_back_last in Hlast.
      destruct (last merged) as [old|] eqn:Hold.
      * destruct (negb (key_eq (key old) (key r)) || negb (timestamp old =? timestamp r))
          eqn:Hdiff.
        -- rewrite last_snoc in Hlast. injection Hlast as <-. exact Hbr.
        -- rewrite Hold in Hlast. injection Hlast as <-.
           apply orb_false_iff in Hdiff as [Hkey _]. apply negb_false_iff, key_eq_true in Hkey.
           intros q rows' k' Hq Hk'. rewrite Hkey. now apply (Hbr q).
      * rewrite last_snoc in Hlast. injection Hlast as <-. exact Hbr.
    + destruct (Merger.differs_from_back merged r); [|exact Hasc].
      now apply keys_ascending_snoc.
    + destruct (Merger.differs_from_back merged r) eqn:Hdiff; [|exact Hrep].
      apply no_adjacent_repeat_snoc; [exact Hrep|].
      intros back Hlast [Hkey Hts]. rewrite differs_from_back_last, Hlast in Hdiff.
      apply orb_true_iff in Hdiff as [Hd|Hd]; apply negb_true_iff in Hd.
      * apply key_eq_false in Hd. contradiction.
      * apply Z.eqb_neq in Hd. contradiction.
Qed.

Lemma merge_loop_returns fuel it merged :
  exists out it', Merger.merge_loop fuel it merged = inr (out, it').
Proof.
  revert it merged. induction fuel as [|fuel IH]; intros it merged; simpl; [eauto|].
  destruct (MergeIterator.has_next it) eqn:Hnext; [|eauto].
  destruct (next_returns it Hnext) as (r & it1 & ->). simpl. apply IH.
Qed.

Lemma merge_loop_complete fuel it merged out it' :
  heap_invariant it ->
  (remaining (MergeIterator.part_rows_ it) (MergeIterator.current_indices_ it) < fuel)%nat ->
  Merger.merge_loop fuel it merged = inr (out, it') ->
  MergeIterator.has_next it' = false.
Proof.
  revert it merged. induction fuel as [|fuel IH]; intros it merged Hinv Hfuel; [lia|].
  simpl. destruct (MergeIterator.has_next it) eqn:Hnext; [|now intros [= <- <-]].
  destruct (MergeIterator.next it) as [e|[r it1]] eqn:Hstep; simpl; [discriminate|].
  destruct (next_step _ _ _ Hinv Hstep)
    as (p & rows & k & Hrows & Hk & Hr & Hparts & Hindices & Hinv1 & _).
  apply IH; [exact Hinv1|]. rewrite Hparts, Hindices.
  pose proof (remaining_advance _ _ _ _ _ Hrows Hk (lookup_lt_Some _ _ _ Hr)). lia.
Qed.

Lemma merge_loop_rows fuel it merged out it' :
  heap_invariant it ->
  Merger.merge_loop fuel it merged = inr (out, it') ->
  forall r, In r out -> In r merged \/ In r (concat (MergeIterator.part_rows_ it)).
Proof.
  revert it merged. induction fuel as [|fuel IH]; intros it merged Hinv; simpl.
  - intros [= <- <-]. auto.
  - destruct (MergeIterator.has_next it); [|intros [= <- <-]; auto].
    destruct (MergeIterator.next it) as [e|[r it1]] eqn:Hstep; simpl; [discriminate|].
    destruct (next_step _ _ _ Hinv Hstep)
      as (p & rows & k & Hrows & Hk & Hr & Hparts & Hindices & Hinv1 & _).
    intros Hloop x Hx. destruct (IH _ _ Hinv1 Hloop x Hx) as [Hin|Hin].
    + destruct (Merger.differs_from_back merged r); [|now left].
      apply in_app_or in Hin as [Hin|[<-|[]]]; [now left|right].
      apply in_concat. exists rows. split; apply list_elem_of_In; eapply list_elem_of_lookup_2;
        eassumption.
    + right. now rewrite <- Hparts.
Qed.


Lemma has_next_heads it :
  heap_invariant it ->
  MergeIterator.has_next it = true
  <-> heads_from O (MergeIterator.part_rows_ it) (MergeIterator.current_indices_ it) <> [].
Proof.
  unfold heap_invariant, MergeIterator.has_next. intros Hinv.
  rewrite negb_true_iff, <- not_true_iff_false, pq_is_empty_elements. split.
  - intros Hne Hnil. apply Hne. rewrite Hnil in Hinv. now apply Permutation_nil_r in Hinv.
  - intros Hne Hnil. apply Hne. rewrite Hnil in Hinv.
    now apply Permutation_sym, Permutation_nil_r in Hinv.
Qed.

(** One iteration of the merge loop, whatever the heap breaks ties by. *)
Lemma merge_loop_unfold fuel it merged out it' :
  heap_invariant it ->
  Merger.merge_loop (S fuel) it merged = inr (out, it') ->
  (heads_from O (MergeIterator.part_rows_ it) (MergeIterator.current_indices_ it) = []
   /\ out = merged)
  \/ exists p rows k r it1,
       MergeIterator.part_rows_ it !! p = Some rows
       /\ MergeIterator.current_indices_ it !! p = Some k
       /\ rows !! k = Some r
       /\ Forall (fun y => MergeIterator.greater (MergeIterator.mkSource r p k) y = false)
                 (heads_from O (MergeIterator.part_rows_ it)
                    (MergeIterator.current_indices_ it))
       /\ MergeIterator.part_rows_ it1 = MergeIterator.part_rows_ it
       /\ MergeIterator.current_indices_ it1
          = <[p := S k]> (MergeIterator.current_indices_ it)
       /\ heap_invariant it1
       /\ Merger.merge_loop fuel it1
            (if Merger.differs_from_back merged r then merged ++ [r] else merged)
          = inr (out, it').
Proof.
  intros Hinv. simpl. destruct (MergeIterator.has_next it) eqn:Hnext.
  - destruct (MergeIterator.next it) as [e|[r it1]] eqn:Hstep; simpl; [discriminate|].
    intros Hloop. right.
    destruct (next_step _ _ _ Hinv Hstep)
      as (p & rows & k & Hrows & Hk & Hr & Hparts & Hindices & Hinv1 & Hmin).
    exists p, rows, k, r, it1. auto 10.
  - intros [= <- <-]. left. split; [|reflexivity].
    destruct (heads_from O _ _) eqn:Hheads; [reflexivity|].
    assert (MergeIterator.has_next it = true) by (apply has_next_heads; [exact Hinv|congruence]).
    congruence.
Qed.

End MergeInvariant.

(** ** Merging two parts that share a (key, timestamp) pair *)

Definition rows_a : RowVector := [mkRow "k" "a" 1; mkRow "k" "b" 3].
Definition rows_b : RowVector := [mkRow "k" "c" 2; mkRow "k" "d" 3].

Lemma min_check (x : MergeIterator.RowWithSource) (l : list MergeIterator.RowWithSource) :
  Forall (fun y => MergeIterator.greater x y = false) l ->
  forallb (fun y => negb (MergeIterator.greater x y)) l = true.
Proof.
  intros Hall. apply forallb_forall. intros y Hy.
  rewrite List.Forall_forall in Hall. now rewrite (Hall y Hy).
Qed.

(** One iteration on known rows and cursors: the part the popped row comes
    from is found by cases, and the order of the heap rules out every part
    whose current row is not the least. *)
Ltac merge_cases Hloop :=
  let p := fresh "p" in
  let rows := fresh "rows" in
  let k := fresh "k" in
  let r := fresh "r" in
  let it1 := fresh "it" in
  let Hrows := fresh "Hrows" in
  let Hk := fresh "Hk" in
  let Hr := fresh "Hr" in
  let Hmin := fresh "Hmin" in
  let Hparts := fresh "Hparts" in
  let Hindices := fresh "Hindices" in
  let Hinv := fresh "Hinv" in
  destruct Hloop as (p & rows & k & r & it1 & Hrows & Hk & Hr & Hmin & Hparts & Hindices
                     & Hinv & Hloop);
  destruct p as [|[|p]]; cbn in Hrows, Hk; try discriminate Hrows;
  injection Hrows as <-; injection Hk as <-; cbn in Hr; try discriminate Hr;
  injection Hr as <-; apply min_check in Hmin; vm_compute in Hmin; try discriminate Hmin;
  clear Hmin; cbn in Hindices;
  match type of Hloop with
  | Merger.merge_loop ?fuel ?it ?merged = ?result =>
      let merged' := eval vm_compute in merged in
      change (Merger.merge_loop fuel it merged' = result) in Hloop
  end.

Ltac merge_step :=
  match goal with
  | Hloop : Merger.merge_loop (S _) ?it _ = inr _,
    Hinv : heap_invariant ?it,
    Hparts : MergeIterator.part_rows_ ?it = _,
    Hindices : MergeIterator.current_indices_ ?it = _ |- _ =>
      apply (merge_loop_unfold _ _ _ _ _ Hinv) in Hloop;
      rewrite Hparts, Hindices in Hloop;
      clear Hinv Hparts Hindices;
      let Hnil := fresh "Hnil" in
      destruct Hloop as [[Hnil ?]|Hloop];
      [try (vm_compute in Hnil; discriminate Hnil)|merge_cases Hloop]
  end.

(** Part A holds (k, 1) and (k, 3), part B holds (k, 2) and (k, 3), each
    sorted as [Row::operator<] sorts.  Whatever priority queue runs the
    merge, the heap gives the later timestamp first: (k, 2) and (k, 3) of
    part B come out before (k, 1) of part A, and the (k, 3) of part A is
    then compared with (k, 1) only, and kept. *)
Lemma merge_fetched_two_parts `{StdPriorityQueue} :
  exists it,
    Merger.merge_fetched [rows_a; rows_b]
    = inr ([mkRow "k" "c" 2; mkRow "k" "d" 3; mkRow "k" "a" 1; mkRow "k" "b" 3], it).
Proof.
  unfold Merger.merge_fetched.
  destruct (merge_loop_returns (Merger.merge_fuel [rows_a; rows_b])
              (MergeIterator.new [rows_a; rows_b]) []) as (out & it' & Hloop).
  exists it'. rewrite Hloop. do 2 f_equal.
  pose proof (new_invariant [rows_a; rows_b]) as Hinv.
  assert (Hparts : MergeIterator.part_rows_ (MergeIterator.new [rows_a; rows_b])
                   = [rows_a; rows_b]) by reflexivity.
  assert (Hindices : MergeIterator.current_indices_ (MergeIterator.new [rows_a; rows_b])
                     = [O; O]) by reflexivity.
  change (Merger.merge_fuel [rows_a; rows_b]) with 5%nat in Hloop.
  revert Hloop Hinv Hparts Hindices.
  generalize (MergeIterator.new [rows_a; rows_b]). intros it Hloop Hinv Hparts Hindices.
  merge_step. merge_step. merge_step. merge_step.
  apply (merge_loop_unfold _ _ _ _ _ Hinv) in Hloop.
  rewrite Hparts, Hindices in Hloop.
  destruct Hloop as [[_ ->]|Hloop]; [reflexivity|].
  destruct Hloop as (p & rows & k & r & it4 & Hrows & Hk & Hr & _).
  destruct p as [|[|p]]; cbn in Hrows, Hk; try discriminate Hrows;
    injection Hrows as <-; injection Hk as <-; discriminate Hr.
Qed.

(** ** Merging parts sorted by [Row::operator<] *)

Lemma sorted_by_keys_ascending (rows : RowVector) :
  sorted_by row_lt rows -> keys_ascending rows.
Proof.
  apply StronglySorted_impl. intros x y Hxy. apply row_lt_false in Hxy.
  destruct Hxy as [Hlt|[Hk _]]; [now apply key_lt_le|rewrite Hk; apply key_le_refl].
Qed.

Lemma merge_rows_fetched `{StdSort} `{StdPriorityQueue}
    (disk : Disk.t) (parts : list Part.t) (part_rows : list RowVector)
    (merged : RowVector) (it : MergeIterator.t) :
  parts <> [] ->
  Merger.fetch_rows disk parts = inr part_rows ->
  Merger.merge_fetched part_rows = inr (merged, it) ->
  Merger.merge_rows disk parts = inr merged.
Proof.
  intros Hparts Hfetch Hmerged. unfold Merger.merge_rows.
  destruct parts as [|part parts]; [congruence|].
  rewrite Hfetch. simpl. rewrite Hmerged. reflexivity.
Qed.

(** C9, as the code has it: for a non-empty list of parts whose row
    sequences are each sorted by [Row::operator<], [merge_rows] returns; the
    loop ends with the heap empty; the rows it returns are rows of the
    parts, their keys ascend, and no row is followed at once by a row of the
    same key and the same timestamp. *)
Theorem merge_rows_keys_ascending `{StdSort} `{StdPriorityQueue}
    (disk : Disk.t) (parts : list Part.t) (part_rows : list RowVector) :
  parts <> [] ->
  Merger.fetch_rows disk parts = inr part_rows ->
  Forall (sorted_by row_lt) part_rows ->
  exists merged it,
    Merger.merge_fetched part_rows = inr (merged, it)
    /\ MergeIterator.has_next it = false
    /\ Merger.merge_rows disk parts = inr merged
    /\ keys_ascending merged
    /\ no_adjacent_repeat merged
    /\ (forall r, In r merged -> In r (concat part_rows)).
Proof.
  intros Hparts Hfetch Hsorted.
  destruct (merge_loop_returns (Merger.merge_fuel part_rows) (MergeIterator.new part_rows) [])
    as (merged & it & Hloop).
  exists merged, it.
  pose proof (new_invariant part_rows) as Hinv.
  assert (Hasc : Forall keys_ascending (MergeIterator.part_rows_ (MergeIterator.new part_rows))).
  { simpl. eapply Forall_impl; [exact Hsorted|]. apply sorted_by_keys_ascending. }
  split; [exact Hloop|].
  split.
  { eapply merge_loop_complete; [exact Hinv| |exact Hloop].
    simpl. rewrite remaining_start. unfold Merger.merge_fuel. lia. }
  split.
  { eapply merge_rows_fetched; [exact Hparts|exact Hfetch|exact Hloop]. }
  assert (Hout : keys_ascending merged /\ no_adjacent_repeat merged).
  { eapply merge_loop_sorted; [exact Hasc|exact Hinv| | | |exact Hloop].
    - intros back Hback. discriminate Hback.
    - constructor.
    - intros i x y Hx. discriminate Hx. }
  destruct Hout as [Hkeys Hrep]. split; [exact Hkeys|]. split; [exact Hrep|].
  intros r Hr. destruct (merge_loop_rows _ _ _ _ _ Hinv Hloop r Hr) as [[]|Hin].
  exact Hin.
Qed.

(** *** Two flushed parts that share the pair (k, 3) *)

Definition merge_state : Disk.t * MergeTree.t :=
  Eval vm_compute in
    let engine := MergeTree.new (H := reference_sort) ∅ "./data" sample_config in
    match insert_rows (H := reference_sort) 1700000000 ∅ engine (rows_a ++ rows_b) with
    | inr state => state
    | inl _ => (∅, engine)
    end.

Definition merge_disk : Disk.t := fst merge_state.
Definition merge_input : list Part.t := MergeTree.parts_ (snd merge_state).

Example merge_input_loaded :
  map (fun p => PartMetadata.part_id (Part.metadata p)) merge_input = [1; 2]
  /\ map Part.loaded_ merge_input = [true; true].
Proof. split; vm_compute; reflexivity. Qed.

Lemma merge_input_rows `{StdSort} :
  Merger.fetch_rows merge_disk merge_input = inr [rows_a; rows_b].
Proof. vm_compute. reflexivity. Qed.

Lemma merge_input_sorted : Forall (sorted_by row_lt) [rows_a; rows_b].
Proof. repeat constructor. Qed.

(** The order of the rows of one key that puts the later timestamp first. *)
Definition key_then_newest (a b : Row) : Prop :=
  key_lt (key a) (key b) = true \/ (key a = key b /\ timestamp b < timestamp a).

Definition same_key_and_timestamp_at (l : RowVector) (i j : nat) : Prop :=
  exists x y, l !! i = Some x /\ l !! j = Some y
              /\ key x = key y /\ timestamp x = timestamp y.

(** C3, at the failing input: the engine flushed (k, a, 1), (k, b, 3) into
    part 1 and (k, c, 2), (k, d, 3) into part 2.  For every [std::sort]
    and every priority queue [merge_rows] returns four rows, and the pair
    (k, 3) is among them twice, at positions 1 and 3. *)
Theorem merge_rows_keeps_duplicate `{StdSort} `{StdPriorityQueue} :
  Merger.fetch_rows merge_disk merge_input = inr [rows_a; rows_b]
  /\ Merger.merge_rows merge_disk merge_input
     = inr [mkRow "k" "c" 2; mkRow "k" "d" 3; mkRow "k" "a" 1; mkRow "k" "b" 3]
  /\ same_key_and_timestamp_at
       [mkRow "k" "c" 2; mkRow "k" "d" 3; mkRow "k" "a" 1; mkRow "k" "b" 3] 1 3.
Proof.
  split; [apply merge_input_rows|]. split.
  - destruct merge_fetched_two_parts as (it & Hmerged).
    eapply merge_rows_fetched; [|apply merge_input_rows|exact Hmerged].
    vm_compute. discriminate.
  - exists (mkRow "k" "d" 3), (mkRow "k" "b" 3). repeat split; reflexivity.
Qed.

Lemma merge_rows_keys_ascending_witness :
  exists merged,
    Merger.merge_rows (H := reference_sort) (H0 := reference_priority_queue)
      merge_disk merge_input = inr merged
    /\ keys_ascending merged /\ no_adjacent_repeat merged.
Proof.
  destruct (merge_rows_keys_ascending (H := reference_sort) (H0 := reference_priority_queue)
              merge_disk merge_input [rows_a; rows_b])
    as (merged & it & _ & _ & Hmerged & Hkeys & Hrepeat & _).
  - vm_compute. discriminate.
  - vm_compute. reflexivity.
  - repeat constructor.
  - exists merged. auto.
Defined.

(** The claim of an output with timestamps strictly descending within a key
    and no (key, timestamp) pair twice, refuted on the two flushed parts,
    whose rows are sorted: the merge returns the timestamps 2, 3, 1, 3 for
    the key k. *)
Lemma merge_rows_not_newest_first :
  exists merged,
    Forall (sorted_by row_lt) [rows_a; rows_b]
    /\ Merger.fetch_rows (H := reference_sort) merge_disk merge_input = inr [rows_a; rows_b]
    /\ Merger.merge_rows (H := reference_sort) (H0 := reference_priority_queue)
         merge_disk merge_input = inr merged
    /\ map timestamp merged = [2; 3; 1; 3]
    /\ ~ StronglySorted key_then_newest merged
    /\ same_key_and_timestamp_at merged 1 3.
Proof.
  exists [mkRow "k" "c" 2; mkRow "k" "d" 3; mkRow "k" "a" 1; mkRow "k" "b" 3].
  split; [exact merge_input_sorted|].
  split; [vm_compute; reflexivity|].
  split; [vm_compute; reflexivity|].
  split; [reflexivity|]. split.
  - intros Hsorted. inversion Hsorted as [|x l _ Hall]; subst.
    inversion Hall as [|y l' Hhead _]; subst.
    destruct Hhead as [Hlt|[_ Hts]]; [vm_compute in Hlt; discriminate Hlt|].
    simpl in Hts. lia.
  - exists (mkRow "k" "d" 3), (mkRow "k" "b" 3). repeat split; reflexivity.
Qed.

(** * The write path and the read path *)

(** ** The memtable *)

Lemma row_lt_asym a b : row_lt a b = true -> row_lt b a = false.
Proof.
  intros Hab. apply row_lt_false. apply row_before_weaken. now apply row_lt_spec.
Qed.

Lemma row_lt_false_trans a b c :
  row_lt b a = false -> row_lt c b = false -> row_lt c a = false.
Proof.
  intros Hab Hbc. apply row_lt_false in Hab, Hbc. apply row_lt_false.
  eapply row_before_eq_trans; eassumption.
Qed.

Lemma link_permutation row nodes : Permutation (row :: nodes) (MemTable.link row nodes).
Proof.
  induction nodes as [|data forward IH]; simpl; [reflexivity|].
  destruct (row_lt data row); [|reflexivity].
  rewrite perm_swap. now constructor.
Qed.

Lemma link_sorted row nodes :
  sorted_by row_lt nodes -> sorted_by row_lt (MemTable.link row nodes).
Proof.
  unfold sorted_by. intros Hs. induction Hs as [|data forward Hs IH Hall]; simpl.
  - repeat constructor.
  - destruct (row_lt data row) eqn:Hlt.
    + constructor; [exact IH|].
      rewrite List.Forall_forall in Hall |- *. intros y Hy.
      apply (Permutation_in _ (Permutation_sym (link_permutation row forward))) in Hy.
      destruct Hy as [<-|Hy]; [now apply row_lt_asym|now apply Hall].
    + constructor; [now constructor|].
      constructor; [exact Hlt|].
      eapply Forall_impl; [exact Hall|]. intros y Hy. cbv beta in *.
      eapply row_lt_false_trans; eassumption.
Qed.

(** The rows a sequence of [insert]s leaves in the memtable. *)
Definition memtable_of (rows : RowVector) : MemTable.t :=
  fold_left MemTable.insert rows MemTable.new.

Lemma fold_insert_nodes rows m :
  sorted_by row_lt (MemTable.nodes m) ->
  sorted_by row_lt (MemTable.nodes (fold_left MemTable.insert rows m))
  /\ Permutation (MemTable.nodes m ++ rows)
       (MemTable.nodes (fold_left MemTable.insert rows m)).
Proof.
  revert m. induction rows as [|row rows IH]; intros m Hs; simpl.
  - split; [exact Hs|]. now rewrite app_nil_r.
  - destruct (IH (MemTable.insert m row)) as [Hs' Hp]; [now apply link_sorted|].
    split; [exact Hs'|]. rewrite <- Hp. simpl.
    rewrite <- (link_permutation row (MemTable.nodes m)).
    symmetry. apply Permutation_middle.
Qed.

Lemma fold_insert_size rows m :
  0 <= MemTable.size m < SizeT.modulus ->
  MemTable.size (fold_left MemTable.insert rows m)
  = (MemTable.size m + Z.of_nat (length rows)) mod SizeT.modulus.
Proof.
  revert m. induction rows as [|row rows IH]; intros m Hm.
  - simpl. rewrite Z.add_0_r. symmetry. now apply Z.mod_small.
  - change (fold_left MemTable.insert (row :: rows) m)
      with (fold_left MemTable.insert rows (MemTable.insert m row)).
    rewrite IH; [|apply SizeT.add_in_range].
    unfold MemTable.insert, MemTable.size. cbn [MemTable.size_].
    unfold SizeT.add. rewrite Zplus_mod_idemp_l. f_equal.
    change (length (row :: rows)) with (S (length rows)). lia.
Qed.

(** [MemTable::insert], then [MemTable::get_all_rows]: whatever the order
    of the inserts, the memtable holds the inserted rows, each as many
    times as it was inserted, in the order of [Row::operator<]; [size]
    counts them on [size_t]. *)
Theorem memtable_holds_inserted_rows (rows : RowVector) :
  sorted_by row_lt (MemTable.get_all_rows (memtable_of rows))
  /\ Permutation rows (MemTable.get_all_rows (memtable_of rows))
  /\ MemTable.size (memtable_of rows) = Z.of_nat (length rows) mod SizeT.modulus.
Proof.
  unfold memtable_of, MemTable.get_all_rows.
  destruct (fold_insert_nodes rows MemTable.new) as [Hs Hp]; [constructor|].
  split; [exact Hs|]. split; [exact Hp|].
  rewrite fold_insert_size; [reflexivity|]. simpl. unfold SizeT.modulus. lia.
Qed.

(** ** Scanning a sorted run of rows *)

Definition in_rangeb (start_key end_key : string) (r : Row) : bool :=
  key_ge (key r) start_key && key_le (key r) end_key.

Lemma in_rangeb_spec start_key end_key r :
  in_rangeb start_key end_key r = true <-> in_range start_key end_key r.
Proof.
  unfold in_rangeb, in_range, key_ge, key_le. rewrite andb_true_iff. tauto.
Qed.

Lemma key_lt_le_trans a b c : key_lt a b = true -> key_le b c = true -> key_lt a c = true.
Proof.
  unfold key_le. intros Hab Hbc. apply negb_true_iff in Hbc.
  destruct (key_lt b c) eqn:E.
  - eapply key_lt_trans; eassumption.
  - pose proof (key_lt_total _ _ E Hbc). now subst.
Qed.

Lemma filter_none {A} (f : A -> bool) (l : list A) :
  Forall (fun x => f x = false) l -> List.filter f l = [].
Proof.
  induction 1 as [|x l Hx _ IH]; simpl; [reflexivity|]. now rewrite Hx.
Qed.

(** On rows whose keys ascend, the scan that stops at the first key past
    [end_key] misses no row of the range. *)
Lemma scan_range_filter start_key end_key rows :
  keys_ascending rows ->
  Granule.scan_range start_key end_key rows = List.filter (in_rangeb start_key end_key) rows.
Proof.
  unfold keys_ascending. intros Hs. induction Hs as [|row rest Hs IH Hall]; simpl; [reflexivity|].
  unfold in_rangeb at 1.
  destruct (key_ge (key row) start_key && key_le (key row) end_key) eqn:Hin.
  - now rewrite IH.
  - destruct (key_gt (key row) end_key) eqn:Hgt; [|exact IH].
    symmetry. apply filter_none.
    eapply Forall_impl; [exact Hall|]. intros y Hy. cbv beta in Hy.
    unfold in_rangeb. apply andb_false_iff. right.
    unfold key_le. apply negb_false_iff.
    unfold key_gt in Hgt. eapply key_lt_le_trans; eassumption.
Qed.

(** [MemTable::query] after any sequence of inserts: the rows returned are
    the rows of the memtable whose key lies in [[start_key, end_key]], all
    of them and in the order of the memtable; so every inserted row of the
    range is returned, and only inserted rows are. *)
Theorem memtable_query_exact (rows : RowVector) (start_key end_key : string) :
  MemTable.query (memtable_of rows) start_key end_key
  = List.filter (in_rangeb start_key end_key) (MemTable.get_all_rows (memtable_of rows))
  /\ (forall r, In r (MemTable.query (memtable_of rows) start_key end_key)
                <-> In r rows /\ in_range start_key end_key r).
Proof.
  destruct (fold_insert_nodes rows MemTable.new) as [Hs Hp]; [constructor|].
  fold (memtable_of rows) in Hs, Hp. simpl in Hp.
  assert (Heq : MemTable.query (memtable_of rows) start_key end_key
                = List.filter (in_rangeb start_key end_key)
                    (MemTable.get_all_rows (memtable_of rows))).
  { unfold MemTable.query, MemTable.get_all_rows. apply scan_range_filter.
    now apply sorted_by_keys_ascending. }
  split; [exact Heq|]. intros r. rewrite Heq, filter_In, in_rangeb_spec.
  unfold MemTable.get_all_rows. split; intros [Hin Hr]; (split; [|exact Hr]).
  - eapply Permutation_in; [symmetry; exact Hp|exact Hin].
  - eapply Permutation_in; [exact Hp|exact Hin].
Qed.

(** ** Granules *)

(** [min_key_] and [max_key_] are the least and the greatest key of the
    rows. *)
Definition key_range_of (rows : RowVector) (min_key max_key : string) : Prop :=
  match rows with
  | [] => min_key = "" /\ max_key = ""
  | _ =>
      Forall (fun r => key_le min_key (key r) = true /\ key_le (key r) max_key = true) rows
      /\ (exists r, In r rows /\ key r = min_key)
      /\ (exists r, In r rows /\ key r = max_key)
  end.

Lemma min_element_fold (t : RowVector) (x : Row) :
  let m := fold_left (fun smallest y => if Granule.by_key y smallest then y else smallest) t x in
  In m (x :: t)
  /\ key_le (key m) (key x) = true
  /\ Forall (fun r => key_le (key m) (key r) = true) t.
Proof.
  revert x. induction t as [|y t IH]; intros x; simpl.
  - split; [now left|]. split; [apply key_le_refl|constructor].
  - destruct (IH (if Granule.by_key y x then y else x)) as (Hin & Hle & Hall).
    unfold Granule.by_key in *.
    destruct (key_lt (key y) (key x)) eqn:Hyx.
    + split; [simpl in Hin |- *; tauto|].
      split; [eapply key_le_trans; [exact Hle|now apply key_lt_le]|].
      constructor; [exact Hle|exact Hall].
    + split; [simpl in Hin |- *; tauto|].
      split; [exact Hle|].
      constructor; [|exact Hall].
      eapply key_le_trans; [exact Hle|]. unfold key_le. now rewrite Hyx.
Qed.

Lemma max_element_fold (t : RowVector) (x : Row) :
  let m := fold_left (fun largest y => if Granule.by_key largest y then y else largest) t x in
  In m (x :: t)
  /\ key_le (key x) (key m) = true
  /\ Forall (fun r => key_le (key r) (key m) = true) t.
Proof.
  revert x. induction t as [|y t IH]; intros x; simpl.
  - split; [now left|]. split; [apply key_le_refl|constructor].
  - destruct (IH (if Granule.by_key x y then y else x)) as (Hin & Hle & Hall).
    unfold Granule.by_key in *.
    destruct (key_lt (key x) (key y)) eqn:Hxy.
    + split; [simpl in Hin |- *; tauto|].
      split; [eapply key_le_trans; [apply key_lt_le; exact Hxy|exact Hle]|].
      constructor; [exact Hle|exact Hall].
    + split; [simpl in Hin |- *; tauto|].
      split; [exact Hle|].
      constructor; [|exact Hall].
      eapply key_le_trans; [|exact Hle]. unfold key_le. now rewrite Hxy.
Qed.

Lemma update_key_range_rows g :
  Granule.rows_ (Granule.update_key_range g) = Granule.rows_ g
  /\ Granule.sorted_ (Granule.update_key_range g) = Granule.sorted_ g.
Proof.
  unfold Granule.update_key_range. destruct (Granule.rows_ g) as [|front rest] eqn:Hrows.
  - simpl. auto.
  - destruct (Granule.sorted_ g) eqn:Hs; simpl; auto.
Qed.

Lemma sorted_last_bounds (front : Row) (rest : RowVector) :
  keys_ascending (front :: rest) ->
  Forall (fun r => key_le (key front) (key r) = true
                   /\ key_le (key r) (key (List.last (front :: rest) front)) = true)
         (front :: rest).
Proof.
  intros Hs.
  pose proof (keys_ascending_last _ _ Hs (last_cons_default front rest front)) as Hlast.
  pose proof (keys_ascending_drop _ O front Hs eq_refl) as Hfirst.
  rewrite drop_0 in Hfirst.
  rewrite List.Forall_forall in Hlast, Hfirst |- *. intros r Hr. split; auto.
Qed.

Lemma last_In {A} (x : A) (l : list A) : In (List.last (x :: l) x) (x :: l).
Proof.
  pose proof (last_cons_default x l x) as Hl. rewrite last_lookup in Hl.
  apply list_elem_of_In. eapply list_elem_of_lookup_2. exact Hl.
Qed.

(** [Granule::update_key_range] computes the key range of the rows, given
    that rows flagged as sorted are sorted. *)
Lemma update_key_range_spec g :
  (Granule.sorted_ g = true -> sorted_by row_lt (Granule.rows_ g)) ->
  key_range_of (Granule.rows_ g) (Granule.min_key (Granule.update_key_range g))
    (Granule.max_key (Granule.update_key_range g)).
Proof.
  intros Hsorted. unfold Granule.update_key_range, key_range_of.
  destruct (Granule.rows_ g) as [|front rest] eqn:Hrows; [simpl; auto|].
  destruct (Granule.sorted_ g) eqn:Hs.
  - simpl.
    specialize (Hsorted eq_refl). apply sorted_by_keys_ascending in Hsorted.
    split; [now apply sorted_last_bounds|].
    split; [exists front; split; [now left|reflexivity]|].
    exists (List.last (front :: rest) front). split; [apply last_In|reflexivity].
  - unfold std_min_element, std_max_element.
    destruct (min_element_fold rest front) as (Hmin_in & Hmin_x & Hmin_all).
    destruct (max_element_fold rest front) as (Hmax_in & Hmax_x & Hmax_all).
    simpl. split; [|split; eauto].
    constructor; [split; assumption|].
    rewrite List.Forall_forall in Hmin_all, Hmax_all |- *. intros r Hr. split; auto.
Qed.

Lemma granule_add_row_step (g : Granule.t) (row : Row) :
  if Granule.is_full g
  then Granule.add_row g row = inl (runtime_error "Granule is full, cannot add more rows")
  else exists g',
         Granule.add_row g row = inr g'
         /\ Granule.rows g' = Granule.rows g ++ [row]
         /\ Granule.sorted_ g' = false
         /\ Granule.size g' = Granule.size g + 1
         /\ Granule.size g' <= GRANULE_SIZE
         /\ key_range_of (Granule.rows g') (Granule.min_key g') (Granule.max_key g').
Proof.
  unfold Granule.add_row. destruct (Granule.is_full g) eqn:Hfull; [reflexivity|].
  eexists. split; [reflexivity|].
  set (g1 := Granule.mk _ _ _ _).
  destruct (update_key_range_rows g1) as [Hrows Hflag].
  unfold Granule.rows, Granule.size. rewrite Hrows, Hflag. simpl.
  split; [reflexivity|]. split; [reflexivity|].
  split; [rewrite length_app; simpl; lia|].
  split.
  { unfold Granule.is_full, Granule.size in Hfull. apply Z.leb_gt in Hfull.
    rewrite length_app. simpl. lia. }
  change (Granule.rows_ g ++ [row]) with (Granule.rows_ g1).
  apply update_key_range_spec. intros Hs. discriminate Hs.
Qed.

(** [Granule::add_row]: a granule that holds [GRANULE_SIZE] rows refuses
    the row; otherwise the row is appended, the granule is flagged unsorted
    and [min_key], [max_key] are the least and greatest key of its rows. *)
Theorem granule_add_row_key_range (g : Granule.t) (row : Row) :
  if Granule.is_full g
  then Granule.add_row g row = inl (runtime_error "Granule is full, cannot add more rows")
  else exists g',
         Granule.add_row g row = inr g'
         /\ Granule.rows g' = Granule.rows g ++ [row]
         /\ Granule.sorted_ g' = false
         /\ Granule.size g' = Granule.size g + 1
         /\ Granule.size g' <= GRANULE_SIZE
         /\ key_range_of (Granule.rows g') (Granule.min_key g') (Granule.max_key g').
Proof. exact (granule_add_row_step g row). Qed.

(** What holds of every granule built from [Granule()] by [add_row] and
    [sort]: rows flagged as sorted are sorted, the key range is the range
    of the rows, and no granule outgrows [GRANULE_SIZE]. *)
Definition granule_wf (g : Granule.t) : Prop :=
  (Granule.sorted_ g = true -> sorted_by row_lt (Granule.rows_ g))
  /\ key_range_of (Granule.rows_ g) (Granule.min_key_ g) (Granule.max_key_ g)
  /\ Granule.size g <= GRANULE_SIZE.

Lemma granule_wf_new : granule_wf Granule.new.
Proof.
  split; [intros Hs; discriminate Hs|]. split; [split; reflexivity|].
  unfold Granule.size, GRANULE_SIZE. simpl. lia.
Qed.

Lemma granule_wf_add_row g row g' :
  Granule.add_row g row = inr g' -> granule_wf g'.
Proof.
  intros Hadd. pose proof (granule_add_row_step g row) as Hstep.
  destruct (Granule.is_full g); [congruence|].
  destruct Hstep as (g1 & Hg1 & _ & Hflag & _ & Hsize & Hrange).
  assert (g1 = g') by congruence. subst g1.
  split; [intros Hs; congruence|]. split; [exact Hrange|exact Hsize].
Qed.

Lemma granule_sort_step `{StdSort} g :
  granule_wf g ->
  granule_wf (Granule.sort g)
  /\ Granule.sorted_ (Granule.sort g) = true
  /\ sorted_by row_lt (Granule.rows (Granule.sort g))
  /\ Permutation (Granule.rows g) (Granule.rows (Granule.sort g)).
Proof.
  intros (Hsorted & Hrange & Hsize). unfold Granule.sort.
  destruct (Granule.sorted_ g) eqn:Hs; simpl.
  - split; [split; [intros _; now apply Hsorted|split; assumption]|].
    split; [exact Hs|]. split; [now apply Hsorted|reflexivity].
  - set (g1 := Granule.mk _ _ _ _).
    destruct (update_key_range_rows g1) as [Hrows Hflag].
    pose proof (row_lt_strict_weak_order (Granule.rows_ g)) as Hswo.
    pose proof (std_sort_sorted _ row_lt _ Hswo) as Hs1.
    pose proof (std_sort_permutation _ row_lt _ Hswo) as Hp1.
    assert (Hg1 : Granule.sorted_ g1 = true -> sorted_by row_lt (Granule.rows_ g1))
      by (intros _; exact Hs1).
    pose proof (update_key_range_spec g1 Hg1) as Hrange1.
    unfold granule_wf, Granule.rows, Granule.size in *.
    fold g1. rewrite Hrows, Hflag.
    change (Granule.rows_ g1) with (std_sort row_lt (Granule.rows_ g)) in *.
    change (Granule.sorted_ g1) with true.
    rewrite <- (Permutation_length Hp1). auto 10.
Qed.

(** [Granule::sort]: the rows become a permutation of themselves sorted by
    [Row::operator<], the flag is set, the key range and the size bound
    are kept, and a second [sort] changes nothing. *)
Theorem granule_sort_sorted `{StdSort} (g : Granule.t) :
  granule_wf g ->
  granule_wf (Granule.sort g)
  /\ Granule.sorted_ (Granule.sort g) = true
  /\ sorted_by row_lt (Granule.rows (Granule.sort g))
  /\ Permutation (Granule.rows g) (Granule.rows (Granule.sort g))
  /\ Granule.sort (Granule.sort g) = Granule.sort g.
Proof.
  intros Hwf. destruct (granule_sort_step g Hwf) as (Hwf' & Hflag & Hs & Hp).
  repeat (split; [assumption|]).
  unfold Granule.sort at 1. now rewrite Hflag.
Qed.

(** [Granule::query_range]: on a granule not flagged as sorted it throws;
    after [sort] it returns the rows of the granule whose key lies in
    [[start_key, end_key]], all of them. *)
Theorem granule_query_range_exact `{StdSort} (g : Granule.t) (start_key end_key : string) :
  granule_wf g ->
  (Granule.sorted_ g = false ->
   Granule.query_range g start_key end_key
   = inl (runtime_error "Granule must be sorted before querying"))
  /\ Granule.query_range (Granule.sort g) start_key end_key
     = inr (List.filter (in_rangeb start_key end_key) (Granule.rows (Granule.sort g)))
  /\ (forall r, In r (List.filter (in_rangeb start_key end_key) (Granule.rows (Granule.sort g)))
                <-> In r (Granule.rows g) /\ in_range start_key end_key r).
Proof.
  intros Hwf. destruct (granule_sort_step g Hwf) as (_ & Hflag & Hs & Hp).
  split; [intros Hunsorted; unfold Granule.query_range; now rewrite Hunsorted|].
  split.
  - unfold Granule.query_range. rewrite Hflag. simpl. unfold ret. f_equal.
    apply scan_range_filter. now apply sorted_by_keys_ascending.
  - intros r. rewrite filter_In, in_rangeb_spec.
    split; intros [Hin Hr]; (split; [|exact Hr]).
    + eapply Permutation_in; [symmetry; exact Hp|exact Hin].
    + eapply Permutation_in; [exact Hp|exact Hin].
Qed.

Definition sample_granule : Granule.t :=
  Eval vm_compute in
    match Serialization.add_rows Granule.new
            [mkRow "m" "1" 30; mkRow "c" "2" 20; mkRow "x" "3" 10; mkRow "c" "4" 5] with
    | inr g => g
    | inl _ => Granule.new
    end.

Lemma sample_granule_wf : granule_wf sample_granule.
Proof.
  split; [intros Hs; discriminate Hs|]. split.
  - split; [repeat constructor|].
    split; [exists (mkRow "c" "2" 20)|exists (mkRow "x" "3" 10)]; simpl; auto.
  - vm_compute. discriminate.
Qed.

Lemma granule_sort_sorted_witness :
  map key (Granule.rows (Granule.sort (H := reference_sort) sample_granule)) = ["c"; "c"; "m"; "x"]
  /\ sorted_by row_lt (Granule.rows (Granule.sort (H := reference_sort) sample_granule)).
Proof.
  destruct (granule_sort_sorted (H := reference_sort) sample_granule sample_granule_wf)
    as (_ & _ & Hs & _).
  split; [vm_compute; reflexivity|exact Hs].
Defined.

Lemma granule_query_range_exact_witness :
  Granule.query_range (Granule.sort (H := reference_sort) sample_granule) "d" "x"
  = inr [mkRow "m" "1" 30; mkRow "x" "3" 10].
Proof.
  destruct (granule_query_range_exact (H := reference_sort) sample_granule "d" "x"
              sample_granule_wf) as (_ & Hq & _).
  rewrite Hq. vm_compute. reflexivity.
Defined.

(** ** Packing rows into granules *)

Definition all_rows (granules : list Granule.t) : RowVector :=
  concat (map Granule.rows granules).

Lemma all_rows_app (gs gs' : list Granule.t) : all_rows (gs ++ gs') = all_rows gs ++ all_rows gs'.
Proof. unfold all_rows. now rewrite map_app, concat_app. Qed.

(** A granule the packing loop has sealed. *)
Definition sealed (g : Granule.t) : Prop :=
  granule_wf g /\ Granule.sorted_ g = true /\ Granule.rows_ g <> [].

Lemma sorted_by_permuted_prefix (a a' b : RowVector) :
  sorted_by row_lt (a ++ b) -> Permutation a a' -> sorted_by row_lt a' ->
  sorted_by row_lt (a' ++ b).
Proof.
  unfold sorted_by. intros Hab Hp Ha'.
  apply StronglySorted_app_2; [|exact Ha'|eapply StronglySorted_app_1_r; exact Hab].
  intros x y Hx Hy. rewrite <- Hp in Hx.
  exact (StronglySorted_app_1_elem_of _ a b x y Hab Hx Hy).
Qed.

Lemma sorted_by_suffix (a b : RowVector) : sorted_by row_lt (a ++ b) -> sorted_by row_lt b.
Proof. unfold sorted_by. apply StronglySorted_app_1_r. Qed.

Lemma pack_rows_spec `{StdSort} (rows : RowVector) (granules : list Granule.t)
    (current_granule : Granule.t) :
  granule_wf current_granule ->
  exists gs cur,
    Part.pack_rows rows granules current_granule = inr (granules ++ gs, cur)
    /\ Forall sealed gs
    /\ granule_wf cur
    /\ Permutation (Granule.rows current_granule ++ rows) (all_rows gs ++ Granule.rows cur)
    /\ (rows <> [] -> Granule.rows cur <> [])
    /\ (sorted_by row_lt (Granule.rows current_granule ++ rows) ->
        sorted_by row_lt (all_rows gs ++ Granule.rows cur))
    /\ Forall (fun g => Granule.size g = GRANULE_SIZE) gs.
Proof.
  revert granules current_granule.
  induction rows as [|row rest IH]; intros granules current Hwf.
  - exists [], current. simpl. rewrite !app_nil_r.
    split; [reflexivity|]. split; [constructor|]. split; [exact Hwf|].
    split; [reflexivity|]. split; [congruence|]. split; [auto|constructor].
  - cbn [Part.pack_rows].
    pose proof (granule_add_row_step current row) as Hadd.
    destruct (Granule.is_full current) eqn:Hfull.
    + pose proof (granule_add_row_step Granule.new row) as Hnew.
      change (Granule.is_full Granule.new) with false in Hnew.
      destruct Hnew as (c1 & Hc1 & Hrows1 & _). rewrite Hc1. simpl.
      destruct (IH (granules ++ [Granule.sort current]) c1 (granule_wf_add_row _ _ _ Hc1))
        as (gs & cur & Hpack & Hsealed & Hcur & Hperm & Hne & Hsorted & Hsizes).
      destruct (granule_sort_step current Hwf) as (Hwf' & Hflag & Hs & Hp).
      exists (Granule.sort current :: gs), cur.
      rewrite Hpack, <- app_assoc. simpl.
      change (Granule.rows Granule.new) with (@nil Row) in Hrows1. simpl in Hrows1.
      rewrite Hrows1 in Hperm, Hsorted. simpl in Hperm, Hsorted.
      assert (Hfull_size : Granule.size current = GRANULE_SIZE).
      { destruct Hwf as (_ & _ & Hle). unfold Granule.is_full in Hfull.
        apply Z.leb_le in Hfull. lia. }
      assert (Hnonempty : Granule.rows_ (Granule.sort current) <> []).
      { intros Hnil. pose proof (Permutation_length Hp) as Hlen.
        unfold Granule.rows in Hlen. rewrite Hnil in Hlen.
        unfold Granule.size, GRANULE_SIZE in Hfull_size. simpl in Hlen. lia. }
      split; [reflexivity|].
      split; [constructor; [split; [exact Hwf'|split; [exact Hflag|exact Hnonempty]]|exact Hsealed]|].
      split; [exact Hcur|].
      split.
      { unfold all_rows. simpl. rewrite <- app_assoc. apply Permutation_app; [exact Hp|exact Hperm]. }
      split.
      { intros _. destruct rest as [|r rest]; [|apply Hne; discriminate].
        simpl in Hpack. injection Hpack as Hgs <-. rewrite Hrows1. discriminate. }
      split.
      { intros Hall. unfold all_rows. simpl. rewrite <- app_assoc.
        apply sorted_by_permuted_prefix with (a := Granule.rows current); [|exact Hp|exact Hs].
        unfold sorted_by in *.
        apply StronglySorted_app_2;
          [|eapply StronglySorted_app_1_l; exact Hall
           |apply Hsorted; eapply StronglySorted_app_1_r; exact Hall].
        intros x y Hx Hy. fold (all_rows gs) in Hy. rewrite <- Hperm in Hy.
        exact (StronglySorted_app_1_elem_of _ _ _ x y Hall Hx Hy). }
      constructor; [|exact Hsizes].
      unfold Granule.size in *. unfold Granule.rows in Hp.
      now rewrite <- (Permutation_length Hp).
    + destruct Hadd as (c1 & Hc1 & Hrows1 & _). rewrite Hc1. simpl.
      destruct (IH granules c1 (granule_wf_add_row _ _ _ Hc1))
        as (gs & cur & Hpack & Hsealed & Hcur & Hperm & Hne & Hsorted & Hsizes).
      exists gs, cur. rewrite Hrows1, <- app_assoc in Hperm, Hsorted. simpl in Hperm, Hsorted.
      split; [exact Hpack|]. split; [exact Hsealed|]. split; [exact Hcur|].
      split; [exact Hperm|]. split; [|split; [exact Hsorted|exact Hsizes]].
      intros _. destruct rest as [|r rest]; [|apply Hne; discriminate].
      simpl in Hpack. injection Hpack as Hgs <-.
      rewrite Hrows1. now destruct (Granule.rows current).
Qed.

(** The packing loop run on all rows, from no granule and an empty current
    granule, and the granules once the last one is sealed. *)
Lemma pack_rows_all `{StdSort} (rows : RowVector) :
  rows <> [] ->
  exists gs cur,
    Part.pack_rows rows [] Granule.new = inr (gs, cur)
    /\ Granule.is_empty cur = false
    /\ Permutation rows (all_rows (gs ++ [Granule.sort cur]))
    /\ (sorted_by row_lt rows -> sorted_by row_lt (all_rows (gs ++ [Granule.sort cur])))
    /\ Forall sealed (gs ++ [Granule.sort cur])
    /\ Forall (fun g => Granule.size g = GRANULE_SIZE) gs
    /\ 0 < Granule.size (Granule.sort cur) <= GRANULE_SIZE.
Proof.
  intros Hne.
  destruct (pack_rows_spec rows [] Granule.new granule_wf_new)
    as (gs & cur & Hpack & Hsealed & Hcur & Hperm & Hnonempty & Hsorted & Hsizes).
  exists gs, cur. split; [exact Hpack|].
  specialize (Hnonempty Hne). simpl in Hperm, Hsorted.
  destruct (granule_sort_step cur Hcur) as (Hwf' & Hflag & Hs' & Hp').
  assert (Hcur_rows : Granule.rows_ (Granule.sort cur) <> []).
  { intros Hnil. unfold Granule.rows in Hp'. rewrite Hnil in Hp'.
    apply Permutation_sym, Permutation_nil in Hp'. now apply Hnonempty. }
  split; [unfold Granule.is_empty; unfold Granule.rows in Hnonempty;
          now destruct (Granule.rows_ cur)|].
  rewrite all_rows_app. unfold all_rows at 2 4. cbn [map concat]. rewrite app_nil_r.
  split; [rewrite Hperm; apply Permutation_app; [reflexivity|exact Hp']|].
  split.
  { intros Hrows. specialize (Hsorted Hrows). unfold sorted_by in *.
    apply StronglySorted_app_2;
      [|eapply StronglySorted_app_1_l; exact Hsorted|exact Hs'].
    intros x y Hx Hy. rewrite <- Hp' in Hy.
    exact (StronglySorted_app_1_elem_of _ _ _ x y Hsorted Hx Hy). }
  split.
  { apply Forall_app. split; [exact Hsealed|].
    constructor; [split; [exact Hwf'|split; [exact Hflag|exact Hcur_rows]]|constructor]. }
  split; [exact Hsizes|].
  destruct Hwf' as (_ & _ & Hle). split; [|exact Hle].
  unfold Granule.size. destruct (Granule.rows_ (Granule.sort cur)); [congruence|].
  simpl. lia.
Qed.

(** [MemTable::flush_to_granules] after any sequence of inserts: a memtable
    whose [size] is 0 gives no granule; otherwise the granules hold the
    inserted rows, sorted by [Row::operator<] from the first granule to the
    last; every granule is sorted and non-empty, and all but the last hold
    exactly [GRANULE_SIZE] rows. *)
Theorem flush_to_granules_packs `{StdSort} (rows : RowVector) :
  if Z.of_nat (length rows) mod SizeT.modulus =? 0
  then MemTable.flush_to_granules (memtable_of rows) = inr []
  else exists gs last,
         MemTable.flush_to_granules (memtable_of rows) = inr (gs ++ [last])
         /\ Permutation rows (all_rows (gs ++ [last]))
         /\ sorted_by row_lt (all_rows (gs ++ [last]))
         /\ Forall sealed (gs ++ [last])
         /\ Forall (fun g => Granule.size g = GRANULE_SIZE) gs
         /\ 0 < Granule.size last <= GRANULE_SIZE.
Proof.
  destruct (fold_insert_nodes rows MemTable.new) as [Hs Hp]; [constructor|].
  pose proof (fold_insert_size rows MemTable.new) as Hsize.
  fold (memtable_of rows) in Hs, Hp, Hsize. simpl in Hp, Hsize.
  specialize (Hsize ltac:(unfold SizeT.modulus; lia)). rewrite Z.add_0_l in Hsize.
  unfold MemTable.flush_to_granules. unfold MemTable.size in Hsize. rewrite Hsize.
  destruct (Z.of_nat (length rows) mod SizeT.modulus =? 0) eqn:Hzero; [reflexivity|].
  assert (Hne : MemTable.nodes (memtable_of rows) <> []).
  { intros Hnil. rewrite Hnil in Hp. apply Permutation_sym, Permutation_nil in Hp.
    subst rows. discriminate Hzero. }
  destruct (pack_rows_all _ Hne)
    as (gs & cur & Hpack & Hempty & Hperm & Hsorted & Hsealed & Hsizes & Hlast).
  rewrite Hpack. simpl. rewrite Hempty. simpl.
  exists gs, (Granule.sort cur). split; [reflexivity|].
  split; [now rewrite Hp|]. auto.
Qed.

(** ** Parts *)

(** The entries [Part::build_index] adds for the granules from position
    [i] on. *)
Fixpoint index_entries_from (i : Z) (granules : list Granule.t) : list IndexEntry.t :=
  match granules with
  | [] => []
  | granule :: rest =>
      (if negb (Granule.is_empty granule)
       then [IndexEntry.mk (Granule.min_key granule) (Granule.max_key granule) i
               (Granule.size granule)]
       else [])
      ++ index_entries_from (i + 1) rest
  end.

Lemma build_index_fold (granules : list Granule.t) (index : SparseIndex.t) (i : Z) :
  fold_left
    (fun '(index, i) granule =>
       (if negb (Granule.is_empty granule)
        then SparseIndex.add_entry index (Granule.min_key granule)
               (Granule.max_key granule) i (Granule.size granule)
        else index,
        i + 1))
    granules (index, i)
  = (SparseIndex.mk (SparseIndex.entries_ index ++ index_entries_from i granules),
     i + Z.of_nat (length granules)).
Proof.
  revert index i. induction granules as [|g gs IH]; intros index i.
  - simpl. rewrite app_nil_r, Z.add_0_r. now destruct index.
  - cbn [fold_left index_entries_from]. rewrite IH. f_equal.
    + f_equal. destruct (negb (Granule.is_empty g)); simpl.
      * now rewrite <- app_assoc.
      * reflexivity.
    + change (length (g :: gs)) with (S (length gs)). lia.
Qed.

Lemma build_index_entries (granules : list Granule.t) :
  Part.build_index granules = SparseIndex.mk (index_entries_from 0 granules).
Proof. unfold Part.build_index. now rewrite build_index_fold. Qed.

(** A granule whose key range does not meet the query range holds no row
    of the query range. *)
Lemma filter_outside_key_range (g : Granule.t) (start_key end_key : string) i :
  granule_wf g ->
  IndexEntry.overlaps_range
    (IndexEntry.mk (Granule.min_key g) (Granule.max_key g) i (Granule.size g))
    start_key end_key = false ->
  List.filter (in_rangeb start_key end_key) (Granule.rows g) = [].
Proof.
  intros (_ & Hrange & _) Hov. apply filter_none.
  unfold IndexEntry.overlaps_range in Hov. simpl in Hov.
  apply negb_false_iff, orb_true_iff in Hov.
  unfold Granule.rows, Granule.min_key, Granule.max_key in *.
  unfold key_range_of in Hrange. destruct (Granule.rows_ g) as [|r0 rs]; [constructor|].
  destruct Hrange as (Hbounds & _).
  eapply Forall_impl; [exact Hbounds|]. intros r [Hmin Hmax]. cbv beta.
  unfold in_rangeb. apply andb_false_iff. destruct Hov as [Hlt|Hgt].
  - left. unfold key_ge. apply negb_false_iff.
    eapply key_le_lt_trans; eassumption.
  - right. unfold key_le at 1. apply negb_false_iff.
    unfold key_gt in Hgt. eapply key_lt_le_trans; eassumption.
Qed.

Lemma query_granules_exact (pre gs : list Granule.t) (start_key end_key : string)
    (result : RowVector) :
  Forall sealed gs ->
  Part.query_granules (pre ++ gs)
    (map IndexEntry.granule_index
       (List.filter (fun e => IndexEntry.overlaps_range e start_key end_key)
          (index_entries_from (Z.of_nat (length pre)) gs)))
    start_key end_key result
  = inr (result ++ List.filter (in_rangeb start_key end_key) (all_rows gs)).
Proof.
  intros Hsealed. revert pre result.
  induction Hsealed as [|g gs (Hwf & Hflag & Hne) Hsealed IH]; intros pre result.
  - simpl. now rewrite app_nil_r.
  - cbn [index_entries_from]. unfold Granule.is_empty.
    destruct (Granule.rows_ g) as [|r0 rs] eqn:Hrows; [congruence|]. cbn [negb app].
    assert (Hnext : Z.of_nat (length pre) + 1 = Z.of_nat (length (pre ++ [g])))
      by (rewrite length_app; simpl; lia).
    assert (Hall : all_rows (g :: gs) = Granule.rows g ++ all_rows gs) by reflexivity.
    rewrite Hall, List.filter_app.
    cbn [List.filter].
    destruct (IndexEntry.overlaps_range _ start_key end_key) eqn:Hov.
    + cbn [map IndexEntry.granule_index Part.query_granules].
      assert (Hlt : (Z.of_nat (length pre) <? Z.of_nat (length (pre ++ g :: gs))) = true).
      { apply Z.ltb_lt. rewrite length_app. simpl. lia. }
      rewrite Hlt, Nat2Z.id. rewrite list_lookup_middle; [|reflexivity].
      unfold Granule.query_range. rewrite Hflag. simpl.
      rewrite Hnext. rewrite (cons_middle g pre gs), app_assoc. rewrite IH.
      f_equal. rewrite <- app_assoc. f_equal. f_equal.
      unfold Granule.rows. destruct Hwf as (Hsorted & _).
      apply scan_range_filter.
      apply sorted_by_keys_ascending. now apply Hsorted.
    + rewrite Hnext. rewrite (cons_middle g pre gs), app_assoc. rewrite IH.
      rewrite (filter_outside_key_range g start_key end_key _ Hwf Hov). reflexivity.
Qed.

(** A part as [write_granules] leaves it in memory: loaded, its granules
    sorted and non-empty, the rows ascending from the first granule to the
    last, the index built from the granules, and the metadata describing
    the rows. *)
Definition part_wf (p : Part.t) : Prop :=
  Part.loaded_ p = true
  /\ Part.granules_ p <> []
  /\ Forall sealed (Part.granules_ p)
  /\ sorted_by row_lt (all_rows (Part.granules_ p))
  /\ Part.index_ p = Part.build_index (Part.granules_ p)
  /\ key_range_of (all_rows (Part.granules_ p))
       (PartMetadata.min_key (Part.metadata_ p)) (PartMetadata.max_key (Part.metadata_ p))
  /\ PartMetadata.row_count (Part.metadata_ p)
     = Z.of_nat (length (all_rows (Part.granules_ p))) mod SizeT.modulus
  /\ PartMetadata.granule_count (Part.metadata_ p) = Z.of_nat (length (Part.granules_ p)).

Lemma filter_outside_part_range (rows : RowVector) (min_key max_key start_key end_key : string) :
  key_range_of rows min_key max_key ->
  key_lt max_key start_key || key_gt min_key end_key = true ->
  List.filter (in_rangeb start_key end_key) rows = [].
Proof.
  intros Hrange Hov. apply filter_none. apply orb_true_iff in Hov.
  unfold key_range_of in Hrange. destruct rows as [|r0 rs]; [constructor|].
  destruct Hrange as (Hbounds & _).
  eapply Forall_impl; [exact Hbounds|]. intros r [Hmin Hmax]. cbv beta.
  unfold in_rangeb. apply andb_false_iff. destruct Hov as [Hlt|Hgt].
  - left. unfold key_ge. apply negb_false_iff.
    eapply key_le_lt_trans; eassumption.
  - right. unfold key_le at 1. apply negb_false_iff.
    unfold key_gt in Hgt. eapply key_lt_le_trans; eassumption.
Qed.

Lemma part_query_exact `{StdSort} (disk : Disk.t) (p : Part.t) (start_key end_key : string) :
  part_wf p ->
  Part.query disk p start_key end_key
  = inr (List.filter (in_rangeb start_key end_key) (all_rows (Part.granules_ p)), p).
Proof.
  intros (Hloaded & _ & Hsealed & _ & Hindex & Hrange & _).
  unfold Part.query. rewrite Hloaded. simpl.
  unfold Part.overlaps_range.
  destruct (key_lt _ start_key || key_gt _ end_key) eqn:Hov; simpl.
  - now rewrite (filter_outside_part_range _ _ _ _ _ Hrange Hov).
  - rewrite find_granules_filter, Hindex, build_index_entries.
    pose proof (query_granules_exact [] (Part.granules_ p) start_key end_key [] Hsealed) as Hq.
    change (Z.of_nat (length [])) with 0 in Hq.
    change ([] ++ Part.granules_ p) with (Part.granules_ p) in Hq.
    unfold SparseIndex.entries. cbn [SparseIndex.entries_].
    rewrite Hq. reflexivity.
Qed.

Lemma get_all_rows_fold (granules : list Granule.t) (result : RowVector) :
  fold_left (fun result granule => result ++ Granule.rows granule) granules result
  = result ++ all_rows granules.
Proof.
  revert result. induction granules as [|g gs IH]; intros result; simpl.
  - now rewrite app_nil_r.
  - rewrite IH, <- app_assoc. reflexivity.
Qed.

Lemma part_get_all_rows `{StdSort} (disk : Disk.t) (p : Part.t) :
  Part.loaded_ p = true ->
  Part.get_all_rows disk p = inr (all_rows (Part.granules_ p), p).
Proof.
  intros Hloaded. unfold Part.get_all_rows. rewrite Hloaded. simpl.
  now rewrite get_all_rows_fold.
Qed.

(** *** What [update_metadata] computes *)

Lemma metadata_rows_fold (rows : RowVector) (row_count min_ts max_ts : Z) :
  fold_left
    (fun '(row_count, min_ts, max_ts) row =>
       (row_count, Z.min min_ts (timestamp row), Z.max max_ts (timestamp row)))
    rows (row_count, min_ts, max_ts)
  = (row_count, fold_left Z.min (map timestamp rows) min_ts,
     fold_left Z.max (map timestamp rows) max_ts).
Proof.
  revert min_ts max_ts. induction rows as [|row rows IH]; intros min_ts max_ts; simpl;
    [reflexivity|apply IH].
Qed.

Lemma metadata_granules_fold (granules : list Granule.t) (row_count min_ts max_ts : Z) :
  fold_left
    (fun '(row_count, min_ts, max_ts) granule =>
       fold_left
         (fun '(row_count, min_ts, max_ts) row =>
            (row_count, Z.min min_ts (timestamp row), Z.max max_ts (timestamp row)))
         (Granule.rows granule)
         (SizeT.add row_count (Granule.size granule), min_ts, max_ts))
    granules (row_count, min_ts, max_ts)
  = (fold_left (fun row_count granule => SizeT.add row_count (Granule.size granule))
       granules row_count,
     fold_left Z.min (map timestamp (all_rows granules)) min_ts,
     fold_left Z.max (map timestamp (all_rows granules)) max_ts).
Proof.
  revert row_count min_ts max_ts.
  induction granules as [|g gs IH]; intros row_count min_ts max_ts; [reflexivity|].
  cbn [fold_left]. rewrite metadata_rows_fold, IH.
  unfold all_rows. cbn [map concat]. now rewrite map_app, !fold_left_app.
Qed.

Lemma row_count_fold (granules : list Granule.t) (row_count : Z) :
  0 <= row_count < SizeT.modulus ->
  fold_left (fun row_count granule => SizeT.add row_count (Granule.size granule))
    granules row_count
  = (row_count + Z.of_nat (length (all_rows granules))) mod SizeT.modulus.
Proof.
  revert row_count. induction granules as [|g gs IH]; intros row_count Hrc.
  - simpl. rewrite Z.add_0_r. symmetry. now apply Z.mod_small.
  - cbn [fold_left]. rewrite IH by apply SizeT.add_in_range.
    unfold SizeT.add, Granule.size, all_rows. cbn [map concat].
    rewrite Zplus_mod_idemp_l, length_app. f_equal. unfold Granule.rows. lia.
Qed.

Lemma fold_min_le (l : list Z) (a : Z) :
  fold_left Z.min l a <= a /\ Forall (fun x => fold_left Z.min l a <= x) l
  /\ (fold_left Z.min l a = a \/ In (fold_left Z.min l a) l).
Proof.
  revert a. induction l as [|x l IH]; intros a; simpl.
  - split; [lia|]. split; [constructor|now left].
  - destruct (IH (Z.min a x)) as (Hle & Hall & Hin).
    split; [lia|]. split; [constructor; [lia|exact Hall]|].
    destruct Hin as [Heq|Hin]; [|auto].
    rewrite Heq. destruct (Z.min_spec a x) as [[_ ->]|[_ ->]]; auto.
Qed.

Lemma fold_max_ge (l : list Z) (a : Z) :
  a <= fold_left Z.max l a /\ Forall (fun x => x <= fold_left Z.max l a) l
  /\ (fold_left Z.max l a = a \/ In (fold_left Z.max l a) l).
Proof.
  revert a. induction l as [|x l IH]; intros a; simpl.
  - split; [lia|]. split; [constructor|now left].
  - destruct (IH (Z.max a x)) as (Hle & Hall & Hin).
    split; [lia|]. split; [constructor; [lia|exact Hall]|].
    destruct Hin as [Heq|Hin]; [|auto].
    rewrite Heq. destruct (Z.max_spec a x) as [[_ ->]|[_ ->]]; auto.
Qed.

Lemma sealed_rows_sorted (g : Granule.t) : sealed g -> sorted_by row_lt (Granule.rows g).
Proof. intros ((Hs & _) & Hflag & _). now apply Hs. Qed.

Lemma key_le_antisym a b : key_le a b = true -> key_le b a = true -> a = b.
Proof.
  unfold key_le. intros Hab Hba. apply negb_true_iff in Hab, Hba.
  now apply key_lt_total.
Qed.

(** The range of a part is that of its first and last granule. *)
Lemma part_key_range (front : Granule.t) (rest : list Granule.t) :
  Forall sealed (front :: rest) ->
  keys_ascending (all_rows (front :: rest)) ->
  key_range_of (all_rows (front :: rest)) (Granule.min_key front)
    (Granule.max_key (List.last (front :: rest) front)).
Proof.
  intros Hsealed Hasc.
  assert (Hfront : sealed front) by now inversion Hsealed.
  destruct (exists_last (l := front :: rest)) as (init & back & Hsplit); [discriminate|].
  assert (Hback : sealed back).
  { rewrite Hsplit in Hsealed. apply Forall_app in Hsealed as [_ Hb]. now inversion Hb. }
  rewrite Hsplit at 2. rewrite last_last.
  destruct Hfront as ((_ & Hfrange & _) & _ & Hfne).
  destruct Hback as ((_ & Hbrange & _) & _ & Hbne).
  unfold key_range_of in Hfrange, Hbrange.
  destruct (Granule.rows_ front) as [|f0 fs] eqn:Hfrows; [congruence|].
  destruct (Granule.rows_ back) as [|b0 bs] eqn:Hbrows; [congruence|].
  destruct Hfrange as (Hfbounds & (rmin & Hrmin_in & Hrmin) & _).
  destruct Hbrange as (Hbbounds & _ & (rmax & Hrmax_in & Hrmax)).
  assert (Hall_front : all_rows (front :: rest) = (f0 :: fs) ++ all_rows rest)
    by (unfold all_rows; cbn [map concat]; unfold Granule.rows; now rewrite Hfrows).
  assert (Hall_back : all_rows (front :: rest) = all_rows init ++ (b0 :: bs)).
  { rewrite Hsplit, all_rows_app. unfold all_rows at 2. cbn [map concat].
    unfold Granule.rows. now rewrite Hbrows, app_nil_r. }
  unfold key_range_of.
  remember (all_rows (front :: rest)) as rows eqn:Hall.
  destruct rows as [|a0 as0]; [discriminate Hall_front|].
  rewrite Hall in Hall_front, Hall_back, Hasc |- *. clear Hall.
  split; [|split].
  - rewrite List.Forall_forall. intros r Hr. split.
    + rewrite Hall_front in Hr, Hasc. apply in_app_or in Hr as [Hr|Hr].
      * rewrite List.Forall_forall in Hfbounds. now apply Hfbounds.
      * unfold Granule.min_key. rewrite <- Hrmin.
        refine (StronglySorted_app_1_elem_of _ _ _ rmin r Hasc _ _);
          now apply list_elem_of_In.
    + rewrite Hall_back in Hr, Hasc. apply in_app_or in Hr as [Hr|Hr].
      * unfold Granule.max_key. rewrite <- Hrmax.
        refine (StronglySorted_app_1_elem_of _ _ _ r rmax Hasc _ _);
          now apply list_elem_of_In.
      * rewrite List.Forall_forall in Hbbounds. now apply Hbbounds.
  - exists rmin. split; [|exact Hrmin]. rewrite Hall_front. apply in_or_app. now left.
  - exists rmax. split; [|exact Hrmax]. rewrite Hall_back. apply in_or_app. now right.
Qed.

Lemma sort_sealed `{StdSort} (granules : list Granule.t) :
  Forall sealed granules -> map Granule.sort granules = granules.
Proof.
  induction 1 as [|g gs (_ & Hflag & _) _ IH]; simpl; [reflexivity|].
  rewrite IH. unfold Granule.sort. now rewrite Hflag.
Qed.

(** *** Writing a part *)

(** The directory of the part holds what the part holds in memory. *)
Definition stored (disk : Disk.t) (p : Part.t) : Prop :=
  exists d,
    disk !! Part.dir_name p = Some (Disk.directory d)
    /\ Disk.metadata_bin d = Some (Part.metadata_ p)
    /\ Disk.primary_idx d = Some (SparseIndex.entries (Part.index_ p))
    /\ (forall i g, Part.granules_ p !! i = Some g ->
          Disk.granule_bin d !! Z.of_nat i = Some (Granule.rows g)).

Lemma write_granule_fold (granules : list Granule.t) (d : Disk.part_dir) (i0 : Z) :
  let d' := fst (fold_left
                   (fun '(d, i) granule => (Serialization.write_granule d granule i, i + 1))
                   granules (d, i0)) in
  Disk.metadata_bin d' = Disk.metadata_bin d
  /\ Disk.primary_idx d' = Disk.primary_idx d
  /\ (forall j, j < i0 -> Disk.granule_bin d' !! j = Disk.granule_bin d !! j)
  /\ (forall k g, granules !! k = Some g ->
        Disk.granule_bin d' !! (i0 + Z.of_nat k) = Some (Granule.rows g)).
Proof.
  revert d i0. induction granules as [|g gs IH]; intros d i0; cbn zeta.
  - simpl. repeat split; auto. intros k g Hk. discriminate Hk.
  - cbn [fold_left].
    destruct (IH (Serialization.write_granule d g i0) (i0 + 1)) as (Hm & Hi & Hbelow & Hat).
    cbn zeta in *. split; [exact Hm|]. split; [exact Hi|]. split.
    + intros j Hj. rewrite Hbelow by lia. simpl.
      apply lookup_insert_ne. lia.
    + intros [|k] g' Hk.
      * injection Hk as <-. rewrite Z.add_0_r, Hbelow by lia. simpl.
        apply lookup_insert_eq.
      * simpl in Hk. rewrite <- (Hat k g' Hk). f_equal. lia.
Qed.

Lemma write_granules_spec `{StdSort} (now : Z) (disk : Disk.t) (p : Part.t)
    (granules : list Granule.t) :
  granules <> [] -> Forall sealed granules -> sorted_by row_lt (all_rows granules) ->
  disk !! Part.dir_name p <> Some Disk.regular_file ->
  exists disk' p',
    Part.write_granules now disk p granules = inr (disk', p')
    /\ Part.granules_ p' = granules
    /\ part_wf p'
    /\ stored disk' p'
    /\ PartMetadata.part_id (Part.metadata_ p') = PartMetadata.part_id (Part.metadata_ p)
    /\ Part.base_path_ p' = Part.base_path_ p
    /\ PartMetadata.creation_time (Part.metadata_ p') = now
    /\ PartMetadata.min_timestamp (Part.metadata_ p')
       = fold_left Z.min (map timestamp (all_rows granules)) SizeT.SIZE_MAX
    /\ PartMetadata.max_timestamp (Part.metadata_ p')
       = fold_left Z.max (map timestamp (all_rows granules)) 0
    /\ (forall name, name <> Part.dir_name p -> disk' !! name = disk !! name).
Proof.
  intros Hne Hsealed Hsorted Hfile. unfold Part.write_granules.
  destruct granules as [|front rest] eqn:Hgranules; [congruence|]. rewrite <- Hgranules in *.
  rewrite (sort_sealed granules Hsealed).
  assert (Hcreate : exists disk1 d1,
             Part.create_directory disk p = inr (disk1, d1)
             /\ (forall name, name <> Part.dir_name p -> disk1 !! name = disk !! name)).
  { unfold Part.create_directory. destruct (disk !! Part.dir_name p) as [[|d]|] eqn:Hdir.
    - congruence.
    - eauto.
    - eexists _, _. split; [reflexivity|]. intros name Hname.
      now apply lookup_insert_ne. }
  destruct Hcreate as (disk1 & d1 & -> & Hother). simpl.
  set (metadata' := Part.update_metadata now (Part.metadata_ p) granules).
  set (index' := Part.build_index granules).
  destruct (write_granule_fold granules d1 0) as (Hm & Hi & _ & Hat). cbn zeta in Hm, Hi, Hat.
  set (d2 := fst (fold_left _ granules (d1, 0))) in *.
  assert (Hmeta : metadata'
                  = PartMetadata.mk (PartMetadata.part_id (Part.metadata_ p))
                      (Granule.min_key front) (Granule.max_key (List.last granules front))
                      (fold_left Z.min (map timestamp (all_rows granules)) SizeT.SIZE_MAX)
                      (fold_left Z.max (map timestamp (all_rows granules)) 0)
                      (Z.of_nat (length (all_rows granules)) mod SizeT.modulus)
                      (Z.of_nat (length granules))
                      (PartMetadata.disk_size (Part.metadata_ p)) now).
  { unfold metadata', Part.update_metadata. rewrite Hgranules at 1.
    rewrite metadata_granules_fold, row_count_fold by (unfold SizeT.modulus; lia).
    cbn [PartMetadata.part_id PartMetadata.granule_count PartMetadata.disk_size
         PartMetadata.creation_time]. rewrite Z.add_0_l. reflexivity. }
  eexists _, _. split; [reflexivity|].
  split; [reflexivity|].
  split.
  { split; [reflexivity|]. split; [exact Hne|]. split; [exact Hsealed|]. split; [exact Hsorted|].
    split; [reflexivity|]. cbn [Part.metadata_ Part.granules_]. rewrite Hmeta.
    cbn [PartMetadata.min_key PartMetadata.max_key PartMetadata.row_count
         PartMetadata.granule_count].
    split; [|split; reflexivity].
    rewrite Hgranules in *. apply part_key_range; [exact Hsealed|].
    now apply sorted_by_keys_ascending. }
  split.
  { unfold stored, Part.dir_name. cbn [Part.metadata_ Part.granules_ Part.index_].
    assert (Hid : PartMetadata.part_id metadata' = PartMetadata.part_id (Part.metadata_ p))
      by now rewrite Hmeta.
    rewrite Hid. fold (Part.dir_name p).
    eexists. split; [apply lookup_insert_eq|]. cbn.
    split; [reflexivity|]. split; [reflexivity|].
    intros i g Hg. rewrite <- (Hat i g Hg). reflexivity. }
  cbn [Part.metadata_ Part.base_path_]. rewrite Hmeta. cbn.
  repeat (split; [reflexivity|]).
  intros name Hname. rewrite lookup_insert_ne by congruence. now apply Hother.
Qed.

Lemma write_from_memtable_rows_spec `{StdSort} (now : Z) (disk : Disk.t) (p : Part.t)
    (rows : RowVector) :
  rows <> [] ->
  disk !! Part.dir_name p <> Some Disk.regular_file ->
  exists disk' p',
    Part.write_from_memtable_rows now disk p rows = inr (disk', p')
    /\ part_wf p'
    /\ stored disk' p'
    /\ Permutation rows (all_rows (Part.granules_ p'))
    /\ PartMetadata.part_id (Part.metadata_ p') = PartMetadata.part_id (Part.metadata_ p)
    /\ Part.base_path_ p' = Part.base_path_ p
    /\ PartMetadata.creation_time (Part.metadata_ p') = now
    /\ PartMetadata.min_timestamp (Part.metadata_ p')
       = fold_left Z.min (map timestamp (all_rows (Part.granules_ p'))) SizeT.SIZE_MAX
    /\ PartMetadata.max_timestamp (Part.metadata_ p')
       = fold_left Z.max (map timestamp (all_rows (Part.granules_ p'))) 0
    /\ (forall name, name <> Part.dir_name p -> disk' !! name = disk !! name).
Proof.
  intros Hne Hfile. unfold Part.write_from_memtable_rows.
  destruct rows as [|row0 rows0] eqn:Hrows; [congruence|]. rewrite <- Hrows in *.
  pose proof (row_lt_strict_weak_order rows) as Hswo.
  pose proof (std_sort_sorted _ row_lt _ Hswo) as Hsorted.
  pose proof (std_sort_permutation _ row_lt _ Hswo) as Hperm.
  assert (Hne' : std_sort row_lt rows <> []).
  { intros Hnil. rewrite Hnil in Hperm. apply Permutation_sym, Permutation_nil in Hperm.
    congruence. }
  destruct (pack_rows_all _ Hne')
    as (gs & cur & Hpack & Hempty & Hperm' & Hsorted' & Hsealed & _).
  rewrite Hpack. simpl. rewrite Hempty. simpl.
  destruct (write_granules_spec now disk p (gs ++ [Granule.sort cur]))
    as (disk' & p' & Hwrite & Hgranules & Hwf & Hstored & Hid & Hbase & Htime & Hmin & Hmax
        & Hother); auto.
  { now destruct gs. }
  exists disk', p'. rewrite Hgranules.
  split; [exact Hwrite|]. split; [exact Hwf|]. split; [exact Hstored|].
  split; [now rewrite Hperm|]. auto 10.
Qed.

(** *** Loading a part back *)

Lemma add_rows_spec (g : Granule.t) (rows : RowVector) :
  granule_wf g ->
  Granule.size g + Z.of_nat (length rows) <= GRANULE_SIZE ->
  exists g', Serialization.add_rows g rows = inr g'
             /\ Granule.rows_ g' = Granule.rows_ g ++ rows
             /\ granule_wf g'.
Proof.
  revert g. induction rows as [|row rows IH]; intros g Hwf Hsize.
  - exists g. simpl. rewrite app_nil_r. auto.
  - cbn [Serialization.add_rows].
    pose proof (granule_add_row_step g row) as Hadd.
    assert (Hfull : Granule.is_full g = false).
    { unfold Granule.is_full. apply Z.leb_gt.
      change (length (row :: rows)) with (S (length rows)) in Hsize. lia. }
    rewrite Hfull in Hadd. destruct Hadd as (g1 & Hg1 & Hrows1 & _ & Hsize1 & _).
    rewrite Hg1. simpl.
    destruct (IH g1 (granule_wf_add_row _ _ _ Hg1)) as (g' & Hg' & Hrows' & Hwf').
    { change (length (row :: rows)) with (S (length rows)) in Hsize. lia. }
    exists g'. split; [exact Hg'|]. split; [|exact Hwf'].
    unfold Granule.rows in Hrows1. now rewrite Hrows', Hrows1, <- app_assoc.
Qed.

Lemma read_granule_spec `{StdSort} (dir : string) (d : Disk.part_dir) (i : Z) (rows : RowVector) :
  Disk.granule_bin d !! i = Some rows ->
  rows <> [] -> Z.of_nat (length rows) <= GRANULE_SIZE ->
  exists g, Serialization.read_granule dir d i = inr g
            /\ sealed g /\ Permutation rows (Granule.rows g).
Proof.
  intros Hfile Hne Hsize. unfold Serialization.read_granule. rewrite Hfile.
  destruct (add_rows_spec Granule.new rows granule_wf_new) as (g' & -> & Hrows & Hwf);
    [exact Hsize|].
  simpl in Hrows. simpl.
  destruct (granule_sort_step g' Hwf) as (Hwf' & Hflag & _ & Hp).
  eexists. split; [reflexivity|]. unfold Granule.rows in Hp. rewrite Hrows in Hp.
  split; [|exact Hp]. split; [exact Hwf'|]. split; [exact Hflag|].
  intros Hnil. rewrite Hnil in Hp. apply Permutation_sym, Permutation_nil in Hp. congruence.
Qed.

Lemma sealed_size (g : Granule.t) :
  sealed g -> Granule.rows g <> [] /\ Z.of_nat (length (Granule.rows g)) <= GRANULE_SIZE.
Proof. intros ((_ & _ & Hsize) & _ & Hne). split; [exact Hne|exact Hsize]. Qed.

Lemma read_granules_spec `{StdSort} (dir : string) (d : Disk.part_dir) (granules : list Granule.t)
    (i : Z) :
  Forall sealed granules ->
  (forall k g, granules !! k = Some g ->
     Disk.granule_bin d !! (i + Z.of_nat k) = Some (Granule.rows g)) ->
  exists granules',
    Part.read_granules dir d i (length granules) = inr granules'
    /\ Forall sealed granules'
    /\ Forall2 (fun g g' => Permutation (Granule.rows g) (Granule.rows g')) granules granules'.
Proof.
  intros Hsealed. revert i. induction Hsealed as [|g gs Hg Hgs IH]; intros i Hfiles.
  - exists []. simpl. repeat split; constructor.
  - cbn [length Part.read_granules].
    destruct (sealed_size g Hg) as [Hne Hsize].
    destruct (read_granule_spec dir d i (Granule.rows g)) as (g' & -> & Hg' & Hp); auto.
    { rewrite <- (Z.add_0_r i). apply (Hfiles O g). reflexivity. }
    simpl. destruct (IH (i + 1)) as (gs' & -> & Hgs' & Hps).
    { intros k g0 Hk. rewrite <- (Hfiles (S k) g0 Hk). f_equal. lia. }
    simpl. exists (g' :: gs'). repeat split; constructor; assumption.
Qed.

Lemma key_range_of_permutation (rows rows' : RowVector) (min_key max_key : string) :
  Permutation rows rows' -> key_range_of rows min_key max_key ->
  key_range_of rows' min_key max_key.
Proof.
  intros Hp. unfold key_range_of.
  destruct rows as [|r rs]; destruct rows' as [|r' rs']; auto.
  - apply Permutation_nil in Hp. discriminate.
  - apply Permutation_sym, Permutation_nil in Hp. discriminate.
  - intros (Hbounds & (rmin & Hmin_in & Hmin) & (rmax & Hmax_in & Hmax)).
    split; [now rewrite <- Hp|].
    split; [exists rmin|exists rmax]; (split; [|assumption]);
      eapply Permutation_in; eassumption.
Qed.

Lemma key_range_of_unique (rows : RowVector) (a b a' b' : string) :
  rows <> [] -> key_range_of rows a b -> key_range_of rows a' b' -> a = a' /\ b = b'.
Proof.
  unfold key_range_of. destruct rows as [|r rs]; [congruence|]. intros _.
  intros (Hbounds & (rmin & Hmin_in & Hmin) & (rmax & Hmax_in & Hmax)).
  intros (Hbounds' & (rmin' & Hmin_in' & Hmin') & (rmax' & Hmax_in' & Hmax')).
  rewrite List.Forall_forall in Hbounds, Hbounds'.
  split; apply key_le_antisym.
  - rewrite <- Hmin'. now apply Hbounds.
  - rewrite <- Hmin. now apply Hbounds'.
  - rewrite <- Hmax. now apply Hbounds'.
  - rewrite <- Hmax'. now apply Hbounds.
Qed.

Lemma index_entries_permuted (granules granules' : list Granule.t) (i : Z) :
  Forall sealed granules -> Forall sealed granules' ->
  Forall2 (fun g g' => Permutation (Granule.rows g) (Granule.rows g')) granules granules' ->
  index_entries_from i granules' = index_entries_from i granules.
Proof.
  intros Hs Hs' Hp. revert i Hs Hs'.
  induction Hp as [|g g' gs gs' Hperm Hps IH]; intros i Hs Hs'; [reflexivity|].
  apply Forall_cons in Hs as [Hg Hgs]. apply Forall_cons in Hs' as [Hg' Hgs'].
  cbn [index_entries_from]. rewrite IH by assumption. f_equal.
  destruct Hg as ((_ & Hrange & _) & _ & Hne). destruct Hg' as ((_ & Hrange' & _) & _ & Hne').
  unfold Granule.is_empty, Granule.size, Granule.min_key, Granule.max_key.
  unfold Granule.rows in Hperm.
  apply (key_range_of_permutation _ _ _ _ Hperm) in Hrange.
  destruct (key_range_of_unique _ _ _ _ _ Hne' Hrange Hrange') as [-> ->].
  rewrite (Permutation_length Hperm).
  destruct (Granule.rows_ g); [congruence|]. destruct (Granule.rows_ g'); [congruence|].
  reflexivity.
Qed.

Lemma all_rows_permuted (granules granules' : list Granule.t) :
  Forall2 (fun g g' => Permutation (Granule.rows g) (Granule.rows g')) granules granules' ->
  Permutation (all_rows granules) (all_rows granules').
Proof.
  induction 1 as [|g g' gs gs' Hperm Hps IH]; [reflexivity|].
  unfold all_rows. cbn [map concat]. now apply Permutation_app.
Qed.

Lemma all_rows_sorted_permuted (granules granules' : list Granule.t) :
  Forall sealed granules' ->
  Forall2 (fun g g' => Permutation (Granule.rows g) (Granule.rows g')) granules granules' ->
  sorted_by row_lt (all_rows granules) -> sorted_by row_lt (all_rows granules').
Proof.
  intros Hs' Hp. revert Hs'.
  induction Hp as [|g g' gs gs' Hperm Hps IH]; intros Hs' Hsorted; [constructor|].
  apply Forall_cons in Hs' as [Hg' Hgs'].
  unfold all_rows in *. cbn [map concat] in *. unfold sorted_by in *.
  apply StronglySorted_app_2.
  - intros x y Hx Hy. rewrite <- Hperm in Hx.
    fold (all_rows gs') in Hy. rewrite <- (all_rows_permuted _ _ Hps) in Hy.
    exact (StronglySorted_app_1_elem_of _ _ _ x y Hsorted Hx Hy).
  - now apply sealed_rows_sorted.
  - apply IH; [exact Hgs'|]. eapply StronglySorted_app_1_r. exact Hsorted.
Qed.

Lemma load_stored `{StdSort} (disk : Disk.t) (p : Part.t) :
  part_wf p -> stored disk p ->
  exists p',
    Part.load disk (Part.new (PartMetadata.part_id (Part.metadata_ p)) (Part.base_path_ p))
    = inr p'
    /\ part_wf p'
    /\ Part.metadata_ p' = Part.metadata_ p
    /\ Part.index_ p' = Part.index_ p
    /\ Part.base_path_ p' = Part.base_path_ p
    /\ Forall2 (fun g g' => Permutation (Granule.rows g) (Granule.rows g'))
         (Part.granules_ p) (Part.granules_ p').
Proof.
  intros (Hloaded & Hnonempty & Hsealed & Hsorted & Hindex & Hrange & Hcount & Hgranules)
         (d & Hdir & Hmeta & Hidx & Hfiles).
  unfold Part.load, Part.exists_on_disk.
  change (Part.dir_name (Part.new (PartMetadata.part_id (Part.metadata_ p))
                           (Part.base_path_ p))) with (Part.dir_name p).
  cbn [Part.loaded_ Part.new]. rewrite Hdir, Hmeta. cbn [negb].
  fold (Part.dir_name p). rewrite Hdir, Hidx.
  rewrite Hgranules, Nat2Z.id.
  destruct (read_granules_spec
              (Part.base_path_ p +:+ "/part_" +:+ to_string (PartMetadata.part_id (Part.metadata_ p)))
              d (Part.granules_ p) 0 Hsealed) as (granules' & Hread & Hsealed' & Hperm).
  { intros k g Hk. rewrite Z.add_0_l. now apply Hfiles. }
  change (Part.base_path_ (Part.new (PartMetadata.part_id (Part.metadata_ p))
                             (Part.base_path_ p))) with (Part.base_path_ p).
  rewrite Hread. simpl.
  eexists. split; [reflexivity|]. cbn.
  split; [|repeat split; auto; now destruct (Part.index_ p)].
  split; [reflexivity|].
  split; [cbn [Part.granules_]; intros Hnil; rewrite Hnil in Hperm; inversion Hperm;
          congruence|].
  split; [exact Hsealed'|].
  split; [eapply all_rows_sorted_permuted; eassumption|].
  cbn [Part.index_ Part.granules_ Part.metadata_].
  split.
  { rewrite build_index_entries, (index_entries_permuted _ _ 0 Hsealed Hsealed' Hperm).
    rewrite Hindex, build_index_entries. reflexivity. }
  split; [eapply key_range_of_permutation; [|exact Hrange]; now apply all_rows_permuted|].
  split.
  - rewrite Hcount. now rewrite (Permutation_length (all_rows_permuted _ _ Hperm)).
  - rewrite Hgranules. now rewrite (Forall2_length _ _ _ Hperm).
Qed.

Lemma write_from_memtable_rows_inv `{StdSort} (now : Z) (disk disk' : Disk.t) (p p' : Part.t)
    (rows : RowVector) :
  Part.write_from_memtable_rows now disk p rows = inr (disk', p') ->
  rows <> [] /\ disk !! Part.dir_name p <> Some Disk.regular_file.
Proof.
  intros Hwrite. split.
  - intros ->. discriminate Hwrite.
  - intros Hfile. unfold Part.write_from_memtable_rows in Hwrite.
    destruct rows as [|row0 rows0]; [discriminate|].
    destruct (Part.pack_rows _ _ _) as [e|[gs cur]]; [discriminate|]. simpl in Hwrite.
    unfold Part.write_granules, Part.create_directory in Hwrite. rewrite Hfile in Hwrite.
    destruct (if negb (Granule.is_empty cur) then gs ++ [Granule.sort cur] else gs);
      discriminate Hwrite.
Qed.

(** [Part::write_from_memtable_rows]: no rows is the [EmptyInput] error;
    with rows, and unless the name of the part directory is taken by a
    file, the call returns a loaded part whose granules hold the rows given,
    sorted by [Row::operator<] from the first granule to the last, whose
    metadata gives the least and greatest key, the row count modulo [2^64]
    and the reading of the clock, and whose directory holds the metadata,
    the index and the rows of every granule; no other directory changes. *)
Theorem write_from_memtable_rows_writes_sorted_part `{StdSort} (now : Z) (disk : Disk.t)
    (p : Part.t) (rows : RowVector) :
  rows <> [] ->
  disk !! Part.dir_name p <> Some Disk.regular_file ->
  Part.write_from_memtable_rows now disk p [] = inl (runtime_error "Cannot write empty rows")
  /\ exists disk' p',
       Part.write_from_memtable_rows now disk p rows = inr (disk', p')
       /\ part_wf p'
       /\ stored disk' p'
       /\ Permutation rows (all_rows (Part.granules_ p'))
       /\ PartMetadata.part_id (Part.metadata_ p') = PartMetadata.part_id (Part.metadata_ p)
       /\ Part.base_path_ p' = Part.base_path_ p
       /\ PartMetadata.creation_time (Part.metadata_ p') = now
       /\ (forall name, name <> Part.dir_name p -> disk' !! name = disk !! name).
Proof.
  intros Hne Hfile. split; [reflexivity|].
  destruct (write_from_memtable_rows_spec now disk p rows Hne Hfile)
    as (disk' & p' & Hw & Hwf & Hst & Hp & Hid & Hbase & Htime & _ & _ & Hother).
  exists disk', p'. auto 10.
Qed.

(** [Part::query] on a part [write_from_memtable_rows] has written: the
    rows returned are the rows written whose key lies in
    [[start_key, end_key]], all of them, in the order of [Row::operator<];
    the part is left as it is, and the directory is not read. *)
Theorem part_query_returns_range `{StdSort} (now : Z) (disk disk' : Disk.t) (p p' : Part.t)
    (rows : RowVector) (start_key end_key : string) (any_disk : Disk.t) :
  Part.write_from_memtable_rows now disk p rows = inr (disk', p') ->
  exists result,
    Part.query any_disk p' start_key end_key = inr (result, p')
    /\ sorted_by row_lt result
    /\ (forall r, In r result <-> In r rows /\ in_range start_key end_key r).
Proof.
  intros Hwrite. destruct (write_from_memtable_rows_inv _ _ _ _ _ _ Hwrite) as [Hne Hfile].
  destruct (write_from_memtable_rows_spec now disk p rows Hne Hfile)
    as (disk1 & p1 & Hw & Hwf & _ & Hp & _).
  rewrite Hwrite in Hw. injection Hw as <- <-.
  eexists. split; [now apply part_query_exact|].
  destruct Hwf as (_ & _ & _ & Hsorted & _). split.
  - unfold sorted_by in *. clear -Hsorted.
    induction Hsorted as [|r l Hs IH Hall]; simpl; [constructor|].
    destruct (in_rangeb start_key end_key r); [|exact IH].
    constructor; [exact IH|]. rewrite List.Forall_forall in Hall |- *.
    intros y Hy. apply filter_In in Hy as [Hy _]. now apply Hall.
  - intros r. rewrite filter_In, in_rangeb_spec.
    split; intros [Hin Hr]; (split; [|exact Hr]).
    + eapply Permutation_in; [symmetry; exact Hp|exact Hin].
    + eapply Permutation_in; [exact Hp|exact Hin].
Qed.

(** A part written by [write_from_memtable_rows] and opened again from its
    directory, as [load_existing_parts] opens it: [load] restores the
    metadata and the index that were written and granules holding the same
    rows, and [query] through the fresh handle returns the rows written
    whose key lies in the range, all of them. *)
Theorem part_reload_round_trip `{StdSort} (now : Z) (disk disk' : Disk.t) (p p' : Part.t)
    (rows : RowVector) (start_key end_key : string) :
  Part.write_from_memtable_rows now disk p rows = inr (disk', p') ->
  exists loaded,
    Part.load disk' (Part.new (PartMetadata.part_id (Part.metadata p)) (Part.base_path_ p))
    = inr loaded
    /\ Part.metadata loaded = Part.metadata p'
    /\ Part.index_ loaded = Part.index_ p'
    /\ Permutation rows (all_rows (Part.granules_ loaded))
    /\ sorted_by row_lt (all_rows (Part.granules_ loaded))
    /\ exists result,
         Part.query disk' (Part.new (PartMetadata.part_id (Part.metadata p)) (Part.base_path_ p))
           start_key end_key = inr (result, loaded)
         /\ (forall r, In r result <-> In r rows /\ in_range start_key end_key r).
Proof.
  intros Hwrite. destruct (write_from_memtable_rows_inv _ _ _ _ _ _ Hwrite) as [Hne Hfile].
  destruct (write_from_memtable_rows_spec now disk p rows Hne Hfile)
    as (disk1 & p1 & Hw & Hwf & Hstored & Hp & Hid & Hbase & _).
  rewrite Hwrite in Hw. injection Hw as <- <-.
  destruct (load_stored disk' p' Hwf Hstored)
    as (loaded & Hload & Hwf' & Hmeta & Hindex & _ & Hperm).
  unfold Part.metadata. rewrite Hid, Hbase in Hload.
  exists loaded. split; [exact Hload|]. split; [exact Hmeta|]. split; [exact Hindex|].
  assert (Hrows : Permutation rows (all_rows (Part.granules_ loaded)))
    by (rewrite Hp; now apply all_rows_permuted).
  split; [exact Hrows|].
  split; [now destruct Hwf' as (_ & _ & _ & Hsorted & _)|].
  eexists. split.
  - unfold Part.query at 1. cbn [Part.loaded_ Part.new negb]. rewrite Hload.
    cbn [bind]. pose proof (part_query_exact disk' loaded start_key end_key Hwf') as Hq.
    unfold Part.query in Hq. destruct Hwf' as (Hloaded & _). rewrite Hloaded in Hq.
    exact Hq.
  - intros r. rewrite filter_In, in_rangeb_spec.
    split; intros [Hin Hr]; (split; [|exact Hr]).
    + eapply Permutation_in; [symmetry; exact Hrows|exact Hin].
    + eapply Permutation_in; [exact Hrows|exact Hin].
Qed.

(** [Part::delete_from_disk]: the directory of the part is removed and the
    part unloaded; afterwards the part does not exist on disk, its disk
    usage is 0, [load] throws, and no other directory has changed. *)
Theorem delete_from_disk_removes_part `{StdSort} (disk : Disk.t) (p : Part.t) :
  let '(disk', p') := Part.delete_from_disk disk p in
  Part.exists_on_disk disk' p' = false
  /\ Part.disk_usage disk' p' = 0
  /\ Part.is_loaded p' = false
  /\ Part.granules_ p' = []
  /\ Part.load disk' p'
     = inl (runtime_error ("Part does not exist on disk: " +:+ Part.part_directory p))
  /\ (forall name, name <> Part.dir_name p -> disk' !! name = disk !! name).
Proof.
  unfold Part.delete_from_disk.
  assert (Hgone : Part.exists_on_disk
                    (if Part.exists_on_disk disk p then delete (Part.dir_name p) disk else disk)
                    (Part.unload p) = false).
  { destruct (Part.exists_on_disk disk p) eqn:Hex.
    - unfold Part.exists_on_disk.
      change (Part.dir_name (Part.unload p)) with (Part.dir_name p).
      now rewrite lookup_delete_eq.
    - exact Hex. }
  split; [exact Hgone|].
  split; [unfold Part.disk_usage; now rewrite Hgone|].
  split; [reflexivity|]. split; [reflexivity|].
  split; [unfold Part.load; cbn [Part.loaded_ Part.unload]; now rewrite Hgone|].
  intros name Hname. destruct (Part.exists_on_disk disk p); [|reflexivity].
  apply lookup_delete_ne. congruence.
Qed.

(** *** A part of three rows *)

Definition three_rows : RowVector :=
  [mkRow "b" "2" 20; mkRow "a" "1" 10; mkRow "c" "3" 30].

Definition written_part : Disk.t * Part.t :=
  Eval vm_compute in
    match Part.write_from_memtable_rows (H := reference_sort) 1700000000 ∅
            (Part.new 7 "./data") three_rows with
    | inr state => state
    | inl _ => (∅, Part.new 7 "./data")
    end.

Lemma written_part_eq :
  Part.write_from_memtable_rows (H := reference_sort) 1700000000 ∅
    (Part.new 7 "./data") three_rows
  = inr (fst written_part, snd written_part).
Proof. vm_compute. reflexivity. Qed.

Lemma write_from_memtable_rows_writes_sorted_part_witness :
  exists disk' p',
    Part.write_from_memtable_rows (H := reference_sort) 1700000000 ∅
      (Part.new 7 "./data") three_rows = inr (disk', p')
    /\ Permutation three_rows (all_rows (Part.granules_ p'))
    /\ PartMetadata.part_id (Part.metadata_ p') = 7.
Proof.
  destruct (write_from_memtable_rows_writes_sorted_part (H := reference_sort) 1700000000 ∅
              (Part.new 7 "./data") three_rows)
    as [_ (disk' & p' & Hw & _ & _ & Hperm & Hid & _)].
  - discriminate.
  - rewrite lookup_empty. discriminate.
  - exists disk', p'. auto.
Defined.

Lemma part_query_returns_range_witness :
  exists result,
    Part.query (H := reference_sort) ∅ (snd written_part) "b" "c"
    = inr (result, snd written_part)
    /\ (In (mkRow "c" "3" 30) result /\ ~ In (mkRow "a" "1" 10) result).
Proof.
  destruct (part_query_returns_range (H := reference_sort) 1700000000 ∅ (fst written_part)
              (Part.new 7 "./data") (snd written_part) three_rows "b" "c" ∅ written_part_eq)
    as (result & Hq & _ & Hiff).
  exists result. split; [exact Hq|]. split.
  - apply Hiff. split; [vm_compute; auto|split; vm_compute; reflexivity].
  - intros Hin. apply Hiff in Hin as [_ [Hge _]]. vm_compute in Hge. discriminate Hge.
Defined.

Lemma part_reload_round_trip_witness :
  exists loaded result,
    Part.load (H := reference_sort) (fst written_part) (Part.new 7 "./data") = inr loaded
    /\ Part.metadata loaded = Part.metadata (snd written_part)
    /\ Part.query (H := reference_sort) (fst written_part) (Part.new 7 "./data") "a" "b"
       = inr (result, loaded)
    /\ In (mkRow "a" "1" 10) result.
Proof.
  destruct (part_reload_round_trip (H := reference_sort) 1700000000 ∅ (fst written_part)
              (Part.new 7 "./data") (snd written_part) three_rows "a" "b" written_part_eq)
    as (loaded & Hload & Hmeta & _ & _ & _ & result & Hq & Hiff).
  exists loaded, result. split; [exact Hload|]. split; [exact Hmeta|]. split; [exact Hq|].
  apply Hiff. split; [vm_compute; auto|split; vm_compute; reflexivity].
Defined.

(** ** The engine *)

Definition part_rows (p : Part.t) : RowVector := all_rows (Part.granules_ p).

(** The rows an engine holds: those of the memtable, then those of the
    parts. *)
Definition engine_rows (engine : MergeTree.t) : RowVector :=
  MemTable.nodes (MergeTree.memtable_ engine)
  ++ concat (map part_rows (MergeTree.parts_ engine)).

(** The memtable is sorted and counted, and every part is as
    [write_granules] leaves it. *)
Definition engine_wf (engine : MergeTree.t) : Prop :=
  sorted_by row_lt (MemTable.nodes (MergeTree.memtable_ engine))
  /\ MemTable.size (MergeTree.memtable_ engine)
     = Z.of_nat (length (MemTable.nodes (MergeTree.memtable_ engine))) mod SizeT.modulus
  /\ Forall part_wf (MergeTree.parts_ engine).

(** No name of the base directory is taken by a regular file. *)
Definition only_directories (disk : Disk.t) : Prop :=
  forall name, disk !! name <> Some Disk.regular_file.

Lemma query_parts_exact `{StdSort} (disk : Disk.t) (parts : list Part.t)
    (start_key end_key : string) (result : RowVector) :
  Forall part_wf parts ->
  MergeTree.query_parts disk parts start_key end_key result
  = inr (result ++ List.filter (in_rangeb start_key end_key) (concat (map part_rows parts)),
         parts).
Proof.
  intros Hwf. revert result. induction Hwf as [|p ps Hp Hps IH]; intros result.
  - simpl. now rewrite app_nil_r.
  - cbn [MergeTree.query_parts map concat]. rewrite List.filter_app, app_assoc.
    destruct (Part.overlaps_range p start_key end_key) eqn:Hov.
    + rewrite (part_query_exact disk p start_key end_key Hp). cbn [bind].
      rewrite IH. reflexivity.
    + rewrite IH. cbn [bind].
      destruct Hp as (_ & _ & _ & _ & _ & Hrange & _).
      unfold Part.overlaps_range in Hov. apply negb_false_iff in Hov.
      change (part_rows p) with (all_rows (Part.granules_ p)).
      rewrite (filter_outside_part_range _ _ _ _ _ Hrange Hov), app_nil_r. reflexivity.
Qed.

Lemma query_exact `{StdSort} (disk : Disk.t) (engine : MergeTree.t)
    (start_key end_key : string) :
  engine_wf engine ->
  MergeTree.query disk engine start_key end_key
  = inr (std_unique MergeTree.same_key_and_timestamp
           (std_sort row_lt (List.filter (in_rangeb start_key end_key) (engine_rows engine))),
         engine).
Proof.
  intros (Hsorted & _ & Hparts). unfold MergeTree.query.
  rewrite (query_parts_exact disk _ start_key end_key _ Hparts). cbn [bind app].
  unfold MemTable.query. rewrite scan_range_filter by now apply sorted_by_keys_ascending.
  unfold engine_rows. rewrite List.filter_app. now destruct engine.
Qed.

(** [std::unique] drops a row only when the row it kept last has the same
    key and timestamp. *)
Lemma unique_from_covers (last : Row) (l : RowVector) (r : Row) :
  In r l ->
  MergeTree.same_key_and_timestamp last r = true
  \/ exists r', In r' (unique_from MergeTree.same_key_and_timestamp last l)
                /\ (r' = r \/ MergeTree.same_key_and_timestamp r' r = true).
Proof.
  revert last. induction l as [|x l IH]; intros last Hr; [destruct Hr|].
  cbn [unique_from]. destruct Hr as [->|Hr].
  - destruct (MergeTree.same_key_and_timestamp last r) eqn:Hsame; [now left|].
    right. exists r. split; [now left|now left].
  - destruct (MergeTree.same_key_and_timestamp last x) eqn:Hsame.
    + apply IH. exact Hr.
    + right. destruct (IH x Hr) as [Hx|(r' & Hin & Hr')].
      * exists x. split; [now left|now right].
      * exists r'. split; [now right|exact Hr'].
Qed.

Lemma same_key_and_timestamp_spec (a b : Row) :
  MergeTree.same_key_and_timestamp a b = true <-> key a = key b /\ timestamp a = timestamp b.
Proof.
  unfold MergeTree.same_key_and_timestamp. rewrite andb_true_iff, Z.eqb_eq.
  unfold key_eq. now rewrite String.eqb_eq.
Qed.

Lemma std_unique_covers (l : RowVector) (r : Row) :
  In r l ->
  exists r', In r' (std_unique MergeTree.same_key_and_timestamp l)
             /\ key r' = key r /\ timestamp r' = timestamp r.
Proof.
  destruct l as [|x l]; [intros []|]. cbn [std_unique]. intros [->|Hr].
  - exists r. split; [now left|auto].
  - destruct (unique_from_covers x l r Hr) as [Hx|(r' & Hin & [->|Hr'])].
    + exists x. split; [now left|]. now apply same_key_and_timestamp_spec.
    + exists r. split; [now right|auto].
    + exists r'. split; [now right|]. now apply same_key_and_timestamp_spec.
Qed.

(** What a query returns, in terms of the rows the engine holds. *)
Lemma query_covers `{StdSort} (disk : Disk.t) (engine : MergeTree.t)
    (start_key end_key : string) :
  engine_wf engine ->
  exists result,
    MergeTree.query disk engine start_key end_key = inr (result, engine)
    /\ (forall r, In r result -> In r (engine_rows engine) /\ in_range start_key end_key r)
    /\ (forall r, In r (engine_rows engine) -> in_range start_key end_key r ->
          exists r', In r' result /\ key r' = key r /\ timestamp r' = timestamp r).
Proof.
  intros Hwf. eexists. split; [now apply query_exact|].
  set (found := List.filter (in_rangeb start_key end_key) (engine_rows engine)).
  pose proof (row_lt_strict_weak_order found) as Hswo.
  pose proof (std_sort_permutation _ row_lt found Hswo) as Hperm.
  split.
  - intros r Hr. apply std_unique_In in Hr.
    apply (Permutation_in _ (Permutation_sym Hperm)) in Hr.
    apply filter_In in Hr as [Hin Hr]. split; [exact Hin|now apply in_rangeb_spec].
  - intros r Hin Hr. apply std_unique_covers.
    apply (Permutation_in _ Hperm). apply filter_In. split; [exact Hin|].
    now apply in_rangeb_spec.
Qed.

Lemma std_sort_nil `{StdSort} {A} (comp : A -> A -> bool) : std_sort comp [] = [].
Proof.
  apply Permutation_nil. apply std_sort_permutation.
  split; [|split]; intros; contradiction.
Qed.

Lemma new_without_parts `{StdSort} (disk : Disk.t) (base_path : string)
    (config : MergeTreeConfig.t) :
  MergeTree.scan_part_ids (map_to_list disk) [] = [] ->
  MergeTree.new disk base_path config
  = MergeTree.mk config base_path MemTable.new [] (Merger.new base_path).
Proof.
  intros Hscan. unfold MergeTree.new, MergeTree.load_existing_parts.
  rewrite Hscan, std_sort_nil. reflexivity.
Qed.

Lemma engine_wf_fresh (base_path : string) (config : MergeTreeConfig.t) :
  engine_wf (MergeTree.mk config base_path MemTable.new [] (Merger.new base_path)).
Proof. split; [constructor|]. split; [reflexivity|constructor]. Qed.

Lemma flush_memtable_spec `{StdSort} (now : Z) (disk : Disk.t) (engine : MergeTree.t) :
  engine_wf engine -> only_directories disk ->
  exists disk' engine',
    MergeTree.flush_memtable now disk engine = inr (disk', engine')
    /\ engine_wf engine'
    /\ only_directories disk'
    /\ Permutation (engine_rows engine) (engine_rows engine')
    /\ MergeTree.config_ engine' = MergeTree.config_ engine
    /\ MergeTree.base_path_ engine' = MergeTree.base_path_ engine
    /\ (MemTable.size (MergeTree.memtable_ engine) = 0 -> disk' = disk /\ engine' = engine)
    /\ (MemTable.size (MergeTree.memtable_ engine) <> 0 ->
        exists new_part,
          MergeTree.parts_ engine' = MergeTree.parts_ engine ++ [new_part]
          /\ MergeTree.memtable_ engine' = MemTable.new
          /\ Permutation (MemTable.nodes (MergeTree.memtable_ engine)) (part_rows new_part)
          /\ PartMetadata.part_id (Part.metadata new_part)
             = Merger.get_next_part_id (MergeTree.merger_ engine)
          /\ Merger.get_next_part_id (MergeTree.merger_ engine')
             = SizeT.add (Merger.get_next_part_id (MergeTree.merger_ engine)) 1
          /\ stored disk' new_part
          /\ (forall name, name <> Part.dir_name new_part -> disk' !! name = disk !! name)).
Proof.
  intros (Hsorted & Hsize & Hparts) Hdisk. unfold MergeTree.flush_memtable, MemTable.empty.
  unfold MemTable.size in *.
  destruct (MemTable.size_ (MergeTree.memtable_ engine) =? 0) eqn:Hzero.
  - apply Z.eqb_eq in Hzero. exists disk, engine.
    split; [reflexivity|]. split; [repeat split; assumption|]. split; [exact Hdisk|].
    split; [reflexivity|]. split; [reflexivity|]. split; [reflexivity|].
    split; [auto|]. intros Hne. congruence.
  - apply Z.eqb_neq in Hzero. unfold MemTable.get_all_rows.
    destruct (MemTable.nodes (MergeTree.memtable_ engine)) as [|row0 rows0] eqn:Hnodes.
    { rewrite Hsize in Hzero. simpl in Hzero. exfalso. apply Hzero. reflexivity. }
    rewrite <- Hnodes in *. cbn [MergeTree.get_next_part_id MergeTree.base_path_
      MergeTree.merger_ MergeTree.config_ MergeTree.memtable_ MergeTree.parts_].
    set (id := Merger.get_next_part_id (MergeTree.merger_ engine)).
    destruct (write_from_memtable_rows_spec now disk
                (Part.new id (MergeTree.base_path_ engine))
                (MemTable.nodes (MergeTree.memtable_ engine)))
      as (disk' & p' & Hw & Hwf & Hstored & Hperm & Hid & Hbase & _ & _ & _ & Hother).
    { rewrite Hnodes. discriminate. }
    { apply Hdisk. }
    rewrite Hw. cbn [bind].
    assert (Hdir : Part.dir_name p' = Part.dir_name (Part.new id (MergeTree.base_path_ engine)))
      by (unfold Part.dir_name; now rewrite Hid).
    eexists _, _. split; [reflexivity|].
    split.
    { split; [constructor|]. split; [reflexivity|].
      cbn [MergeTree.parts_]. apply Forall_app. split; [exact Hparts|]. now constructor. }
    split.
    { intros name. destruct (decide (name = Part.dir_name p')) as [->|Hname].
      - destruct Hstored as (d & -> & _). discriminate.
      - rewrite Hother by congruence. apply Hdisk. }
    split.
    { unfold engine_rows. cbn [MergeTree.memtable_ MergeTree.parts_ MemTable.clear
        MemTable.nodes app]. rewrite map_app, concat_app. cbn [map concat].
      rewrite app_nil_r, Hperm. apply Permutation_app_comm. }
    split; [reflexivity|]. split; [reflexivity|].
    split; [intros Hz; congruence|]. intros _.
    exists p'. cbn [MergeTree.parts_ MergeTree.memtable_ MergeTree.merger_].
    split; [reflexivity|]. split; [reflexivity|]. split; [exact Hperm|].
    split; [exact Hid|]. split; [reflexivity|]. split; [exact Hstored|].
    intros name Hname. apply Hother. congruence.
Qed.

Lemma insert_spec `{StdSort} (now : Z) (disk : Disk.t) (engine : MergeTree.t) (row : Row) :
  engine_wf engine -> only_directories disk ->
  exists disk' engine',
    MergeTree.insert now disk engine row = inr (disk', engine')
    /\ engine_wf engine'
    /\ only_directories disk'
    /\ Permutation (row :: engine_rows engine) (engine_rows engine')
    /\ MergeTree.config_ engine' = MergeTree.config_ engine
    /\ MergeTree.base_path_ engine' = MergeTree.base_path_ engine
    /\ (MemTable.size (MergeTree.memtable_ engine')
        < MergeTreeConfig.memtable_flush_threshold (MergeTree.config_ engine)
        \/ MemTable.size (MergeTree.memtable_ engine') = 0).
Proof.
  intros (Hsorted & Hsize & Hparts) Hdisk.
  unfold MergeTree.insert, MergeTree.trigger_flush_if_needed.
  set (engine1 := MergeTree.mk _ _ (MemTable.insert _ row) _ _).
  assert (Hwf1 : engine_wf engine1).
  { split; [apply link_sorted; exact Hsorted|]. split; [|exact Hparts].
    cbn [engine1 MergeTree.memtable_ MemTable.insert MemTable.size MemTable.size_ MemTable.nodes].
    unfold MemTable.size in Hsize. rewrite Hsize. unfold SizeT.add.
    rewrite Zplus_mod_idemp_l, <- (Permutation_length (link_permutation row _)).
    f_equal. simpl length. lia. }
  assert (Hrows1 : Permutation (row :: engine_rows engine) (engine_rows engine1)).
  { unfold engine_rows. cbn [engine1 MergeTree.memtable_ MergeTree.parts_ MemTable.insert
      MemTable.nodes]. rewrite <- (link_permutation row _). reflexivity. }
  cbn [MergeTree.config_ engine1].
  fold engine1.
  destruct (MergeTreeConfig.memtable_flush_threshold (MergeTree.config_ engine)
            <=? MemTable.size (MergeTree.memtable_ engine1)) eqn:Hflush.
  - destruct (flush_memtable_spec now disk engine1 Hwf1 Hdisk)
      as (disk' & engine' & Hf & Hwf' & Hdisk' & Hperm & Hconfig & Hbase & Hzero & Hnonzero).
    exists disk', engine'. split; [exact Hf|]. split; [exact Hwf'|]. split; [exact Hdisk'|].
    split; [now rewrite Hrows1|]. split; [exact Hconfig|]. split; [exact Hbase|].
    right. destruct (Z.eq_dec (MemTable.size (MergeTree.memtable_ engine1)) 0) as [Hz|Hnz].
    + destruct (Hzero Hz) as [_ ->]. exact Hz.
    + destruct (Hnonzero Hnz) as (p' & _ & -> & _). reflexivity.
  - exists disk, engine1. split; [reflexivity|]. split; [exact Hwf1|]. split; [exact Hdisk|].
    split; [exact Hrows1|]. split; [reflexivity|]. split; [reflexivity|].
    left. now apply Z.leb_gt.
Qed.

Lemma insert_rows_spec `{StdSort} (now : Z) (rows : RowVector) (disk : Disk.t)
    (engine : MergeTree.t) :
  engine_wf engine -> only_directories disk ->
  exists disk' engine',
    insert_rows now disk engine rows = inr (disk', engine')
    /\ engine_wf engine'
    /\ only_directories disk'
    /\ Permutation (engine_rows engine ++ rows) (engine_rows engine').
Proof.
  unfold insert_rows. revert disk engine.
  induction rows as [|row rows IH]; intros disk engine Hwf Hdisk.
  - exists disk, engine. simpl. rewrite app_nil_r. auto.
  - cbn [fold_left bind ret].
    destruct (insert_spec now disk engine row Hwf Hdisk)
      as (disk1 & engine1 & -> & Hwf1 & Hdisk1 & Hperm1 & _).
    destruct (IH disk1 engine1 Hwf1 Hdisk1) as (disk' & engine' & Hfold & Hwf' & Hdisk' & Hperm').
    exists disk', engine'. split; [exact Hfold|]. split; [exact Hwf'|]. split; [exact Hdisk'|].
    rewrite <- Hperm', <- Hperm1. symmetry. apply Permutation_middle.
Qed.

Lemma total_rows_fold (parts : list Part.t) (total : Z) :
  Forall part_wf parts -> 0 <= total < SizeT.modulus ->
  fold_left
    (fun total part => SizeT.add total (PartMetadata.row_count (Part.metadata part)))
    parts total
  = (total + Z.of_nat (length (concat (map part_rows parts)))) mod SizeT.modulus.
Proof.
  intros Hwf. revert total. induction Hwf as [|p ps Hp Hps IH]; intros total Htotal.
  - simpl. rewrite Z.add_0_r. symmetry. now apply Z.mod_small.
  - cbn [fold_left map concat]. rewrite IH by apply SizeT.add_in_range.
    destruct Hp as (_ & _ & _ & _ & _ & _ & Hcount & _).
    unfold Part.metadata. rewrite Hcount. unfold SizeT.add.
    rewrite Zplus_mod_idemp_r, Zplus_mod_idemp_l, length_app. f_equal.
    unfold part_rows. lia.
Qed.

Lemma total_rows_counts (engine : MergeTree.t) :
  engine_wf engine ->
  MergeTree.total_rows engine = Z.of_nat (length (engine_rows engine)) mod SizeT.modulus.
Proof.
  intros (_ & Hsize & Hparts). unfold MergeTree.total_rows.
  rewrite total_rows_fold; [|exact Hparts|apply SizeT.add_in_range].
  rewrite Hsize. unfold SizeT.add, engine_rows.
  rewrite Z.add_0_l, Zmod_mod, Zplus_mod_idemp_l, length_app. f_equal. lia.
Qed.

Lemma only_directories_empty : only_directories ∅.
Proof. intros name. rewrite lookup_empty. discriminate. Qed.

Lemma new_on_empty_directory `{StdSort} (base_path : string) (config : MergeTreeConfig.t) :
  MergeTree.new ∅ base_path config
  = MergeTree.mk config base_path MemTable.new [] (Merger.new base_path).
Proof. apply new_without_parts. now rewrite map_to_list_empty. Qed.

(** An engine started on an empty directory, after any sequence of
    inserts. *)
Lemma inserted_state `{StdSort} (now : Z) (base_path : string) (config : MergeTreeConfig.t)
    (rows : RowVector) :
  exists disk' engine',
    insert_rows now ∅ (MergeTree.new ∅ base_path config) rows = inr (disk', engine')
    /\ engine_wf engine'
    /\ only_directories disk'
    /\ Permutation rows (engine_rows engine').
Proof.
  rewrite new_on_empty_directory.
  destruct (insert_rows_spec now rows ∅ _ (engine_wf_fresh base_path config)
              only_directories_empty) as (disk' & engine' & Hi & Hwf & Hdisk & Hperm).
  exists disk', engine'. auto.
Qed.

(** [MergeTree::insert] on an engine whose parts are loaded, in a base
    directory without stray files: the call returns; the engine then holds
    the rows it held and the new row, whether or not the memtable was
    flushed on the way; and the memtable is left below the flush threshold,
    or empty. *)
Theorem insert_adds_the_row `{StdSort} (now : Z) (disk : Disk.t) (engine : MergeTree.t)
    (row : Row) :
  engine_wf engine -> only_directories disk ->
  exists disk' engine',
    MergeTree.insert now disk engine row = inr (disk', engine')
    /\ engine_wf engine'
    /\ only_directories disk'
    /\ Permutation (row :: engine_rows engine) (engine_rows engine')
    /\ (MemTable.size (MergeTree.memtable_ engine')
        < MergeTreeConfig.memtable_flush_threshold (MergeTree.config_ engine)
        \/ MemTable.size (MergeTree.memtable_ engine') = 0).
Proof.
  intros Hwf Hdisk.
  destruct (insert_spec now disk engine row Hwf Hdisk)
    as (disk' & engine' & Hi & Hwf' & Hdisk' & Hperm & _ & _ & Hsize).
  exists disk', engine'. auto.
Qed.

(** [MergeTree::flush_memtable]: with an empty memtable nothing changes;
    otherwise the rows of the memtable become one new part at the end of
    the parts, written to its directory; the part takes the next part id,
    which advances by one on [size_t]; the memtable is emptied; no other
    directory changes, and [total_rows] is what it was. *)
Theorem flush_memtable_moves_rows `{StdSort} (now : Z) (disk : Disk.t) (engine : MergeTree.t) :
  engine_wf engine -> only_directories disk ->
  exists disk' engine',
    MergeTree.flush_memtable now disk engine = inr (disk', engine')
    /\ engine_wf engine'
    /\ MergeTree.total_rows engine' = MergeTree.total_rows engine
    /\ (MemTable.size (MergeTree.memtable_ engine) = 0 -> disk' = disk /\ engine' = engine)
    /\ (MemTable.size (MergeTree.memtable_ engine) <> 0 ->
        exists new_part,
          MergeTree.parts_ engine' = MergeTree.parts_ engine ++ [new_part]
          /\ MergeTree.memtable_ engine' = MemTable.new
          /\ Permutation (MemTable.nodes (MergeTree.memtable_ engine)) (part_rows new_part)
          /\ PartMetadata.part_id (Part.metadata new_part)
             = Merger.get_next_part_id (MergeTree.merger_ engine)
          /\ Merger.get_next_part_id (MergeTree.merger_ engine')
             = SizeT.add (Merger.get_next_part_id (MergeTree.merger_ engine)) 1
          /\ stored disk' new_part
          /\ (forall name, name <> Part.dir_name new_part -> disk' !! name = disk !! name)).
Proof.
  intros Hwf Hdisk.
  destruct (flush_memtable_spec now disk engine Hwf Hdisk)
    as (disk' & engine' & Hf & Hwf' & _ & Hperm & _ & _ & Hzero & Hnonzero).
  exists disk', engine'. split; [exact Hf|]. split; [exact Hwf'|].
  split; [|auto].
  rewrite !total_rows_counts by assumption. now rewrite (Permutation_length Hperm).
Qed.

(** [MergeTree::query] on an engine whose parts are loaded: the call
    returns and leaves the engine as it is; every row returned is a row the
    engine holds, in the memtable or in a part, with its key in
    [[start_key, end_key]]; and for every row the engine holds with its key
    in the range, a row with that key and that timestamp is returned. *)
Theorem query_returns_held_rows `{StdSort} (disk : Disk.t) (engine : MergeTree.t)
    (start_key end_key : string) :
  engine_wf engine ->
  exists result,
    MergeTree.query disk engine start_key end_key = inr (result, engine)
    /\ (forall r, In r result -> In r (engine_rows engine) /\ in_range start_key end_key r)
    /\ (forall r, In r (engine_rows engine) -> in_range start_key end_key r ->
          exists r', In r' result /\ key r' = key r /\ timestamp r' = timestamp r).
Proof. apply query_covers. Qed.

(** The write path and the read path together, on one thread: an engine
    constructed with [enable_background_merge] off on an empty directory
    accepts any sequence of inserts, whatever the flush threshold; every
    query then returns only rows that were inserted, with their key in the
    range, and for every inserted row with its key in the range it returns a
    row with that key and that timestamp. *)
Theorem inserted_rows_are_found `{StdSort} (now : Z) (base_path : string)
    (config : MergeTreeConfig.t) (rows : RowVector) (start_key end_key : string) :
  MergeTreeConfig.enable_background_merge config = false ->
  exists disk' engine' result,
    insert_rows now ∅ (MergeTree.new ∅ base_path config) rows = inr (disk', engine')
    /\ MergeTree.query disk' engine' start_key end_key = inr (result, engine')
    /\ (forall r, In r result -> In r rows /\ in_range start_key end_key r)
    /\ (forall r, In r rows -> in_range start_key end_key r ->
          exists r', In r' result /\ key r' = key r /\ timestamp r' = timestamp r).
Proof.
  intros _.
  destruct (inserted_state now base_path config rows)
    as (disk' & engine' & Hi & Hwf & _ & Hperm).
  destruct (query_covers disk' engine' start_key end_key Hwf) as (result & Hq & Hsound & Hcomplete).
  exists disk', engine', result. split; [exact Hi|]. split; [exact Hq|]. split.
  - intros r Hr. destruct (Hsound r Hr) as [Hin Hrange]. split; [|exact Hrange].
    eapply Permutation_in; [symmetry; exact Hperm|exact Hin].
  - intros r Hin Hrange. apply Hcomplete; [|exact Hrange].
    eapply Permutation_in; [exact Hperm|exact Hin].
Qed.

(** [MergeTree::total_rows] after any sequence of inserts, on one thread,
    into an engine constructed with [enable_background_merge] off on an
    empty directory: [total_rows] is the number of inserts modulo [2^64],
    counting the rows of the memtable and the row counts recorded in the
    metadata of the parts. *)
Theorem total_rows_counts_inserts `{StdSort} (now : Z) (base_path : string)
    (config : MergeTreeConfig.t) (rows : RowVector) :
  MergeTreeConfig.enable_background_merge config = false ->
  exists disk' engine',
    insert_rows now ∅ (MergeTree.new ∅ base_path config) rows = inr (disk', engine')
    /\ MergeTree.total_rows engine' = Z.of_nat (length rows) mod SizeT.modulus
    /\ Forall (fun p => PartMetadata.row_count (Part.metadata p)
                        = Z.of_nat (length (part_rows p)) mod SizeT.modulus)
         (MergeTree.parts_ engine').
Proof.
  intros _.
  destruct (inserted_state now base_path config rows)
    as (disk' & engine' & Hi & Hwf & _ & Hperm).
  exists disk', engine'. split; [exact Hi|].
  split; [rewrite total_rows_counts by exact Hwf; now rewrite (Permutation_length Hperm)|].
  destruct Hwf as (_ & _ & Hparts). eapply Forall_impl; [exact Hparts|].
  intros p (_ & _ & _ & _ & _ & _ & Hcount & _). exact Hcount.
Qed.

(** *** The sample engine *)

Lemma sample_state_inserted :
  insert_rows (H := reference_sort) 1700000000 ∅
    (MergeTree.new (H := reference_sort) ∅ "./data" sample_config)
    [mkRow "key1" "v1" 1000; mkRow "key2" "v2" 2000; mkRow "key2" "v2" 2000]
  = inr (sample_disk, sample_engine).
Proof. vm_compute. reflexivity. Qed.

Lemma sample_engine_wf : engine_wf sample_engine /\ only_directories sample_disk.
Proof.
  destruct (inserted_state (H := reference_sort) 1700000000 "./data" sample_config
              [mkRow "key1" "v1" 1000; mkRow "key2" "v2" 2000; mkRow "key2" "v2" 2000])
    as (disk' & engine' & Hi & Hwf & Hdisk & _).
  rewrite sample_state_inserted in Hi. injection Hi as <- <-. auto.
Qed.

Lemma insert_adds_the_row_witness :
  exists disk' engine',
    MergeTree.insert (H := reference_sort) 1700000001 sample_disk sample_engine
      (mkRow "key0" "v0" 500) = inr (disk', engine')
    /\ length (engine_rows engine') = 4%nat.
Proof.
  destruct (insert_adds_the_row (H := reference_sort) 1700000001 sample_disk sample_engine
              (mkRow "key0" "v0" 500) (proj1 sample_engine_wf) (proj2 sample_engine_wf))
    as (disk' & engine' & Hi & _ & _ & Hperm & _).
  exists disk', engine'. split; [exact Hi|].
  now rewrite <- (Permutation_length Hperm).
Defined.

Lemma flush_memtable_moves_rows_witness :
  exists disk' engine',
    MergeTree.flush_memtable (H := reference_sort) 1700000001 sample_disk sample_engine
    = inr (disk', engine')
    /\ MergeTree.total_rows engine' = 3.
Proof.
  destruct (flush_memtable_moves_rows (H := reference_sort) 1700000001 sample_disk sample_engine
              (proj1 sample_engine_wf) (proj2 sample_engine_wf))
    as (disk' & engine' & Hf & _ & Htotal & _).
  exists disk', engine'. split; [exact Hf|]. rewrite Htotal. vm_compute. reflexivity.
Defined.

Lemma query_returns_held_rows_witness :
  exists result,
    MergeTree.query (H := reference_sort) sample_disk sample_engine "key2" "key9"
    = inr (result, sample_engine)
    /\ exists r', In r' result /\ key r' = "key2" /\ timestamp r' = 2000.
Proof.
  destruct (query_returns_held_rows (H := reference_sort) sample_disk sample_engine "key2" "key9"
              (proj1 sample_engine_wf)) as (result & Hq & _ & Hcomplete).
  exists result. split; [exact Hq|].
  apply (Hcomplete (mkRow "key2" "v2" 2000)).
  - vm_compute. auto.
  - split; vm_compute; reflexivity.
Defined.

Lemma inserted_rows_are_found_witness :
  exists disk' engine' result,
    insert_rows (H := reference_sort) 1700000000 ∅
      (MergeTree.new (H := reference_sort) ∅ "./data" sample_config) three_rows
    = inr (disk', engine')
    /\ MergeTree.query (H := reference_sort) disk' engine' "a" "b" = inr (result, engine')
    /\ (exists r, In r result /\ key r = "a" /\ timestamp r = 10).
Proof.
  destruct (inserted_rows_are_found (H := reference_sort) 1700000000 "./data" sample_config
              three_rows "a" "b" eq_refl)
    as (disk' & engine' & result & Hi & Hq & _ & Hcomplete).
  exists disk', engine', result. split; [exact Hi|]. split; [exact Hq|].
  apply (Hcomplete (mkRow "a" "1" 10)); [simpl; tauto|vm_compute; auto].
Defined.

Lemma total_rows_counts_inserts_witness :
  exists disk' engine',
    insert_rows (H := reference_sort) 1700000000 ∅
      (MergeTree.new (H := reference_sort) ∅ "./data" sample_config) three_rows
    = inr (disk', engine')
    /\ MergeTree.total_rows engine' = 3.
Proof.
  destruct (total_rows_counts_inserts (H := reference_sort) 1700000000 "./data" sample_config
              three_rows eq_refl)
    as (disk' & engine' & Hi & Htotal & _).
  exists disk', engine'. split; [exact Hi|]. rewrite Htotal. reflexivity.
Defined.

(** * Compaction *)

(** ** The merge loses no (key, timestamp) pair *)

Section MergeCoverage.
Context `{StdPriorityQueue}.

(** [r] has a row of [merged] with its key and its timestamp. *)
Definition represented (merged : RowVector) (r : Row) : Prop :=
  exists r', In r' merged /\ key r' = key r /\ timestamp r' = timestamp r.

(** Every part has a cursor, and the rows before the cursor are
    represented in the output. *)
Definition covered (merged : RowVector) (part_rows : list RowVector) (indices : list nat)
    : Prop :=
  forall p rows, part_rows !! p = Some rows ->
    exists k, indices !! p = Some k /\ Forall (represented merged) (take k rows).

Lemma represented_app merged more r : represented merged r -> represented (merged ++ more) r.
Proof.
  intros (r' & Hin & Hr'). exists r'. split; [|exact Hr']. apply in_or_app. now left.
Qed.

Lemma differs_from_back_false merged r :
  Merger.differs_from_back merged r = false -> represented merged r.
Proof.
  rewrite differs_from_back_last. destruct (last merged) as [back|] eqn:Hlast; [|discriminate].
  intros Hsame. apply orb_false_iff in Hsame as [Hk Ht].
  apply negb_false_iff in Hk, Ht. apply String.eqb_eq in Hk. apply Z.eqb_eq in Ht.
  exists back. split; [|auto]. rewrite last_lookup in Hlast.
  apply list_elem_of_In. eapply list_elem_of_lookup_2. exact Hlast.
Qed.

Lemma covered_start part_rows :
  covered [] part_rows (replicate (length part_rows) O).
Proof.
  intros p rows Hrows. exists O. split; [|constructor].
  apply lookup_replicate_2. eapply lookup_lt_Some. exact Hrows.
Qed.

Lemma covered_step merged part_rows indices p rows k r :
  covered merged part_rows indices ->
  part_rows !! p = Some rows -> indices !! p = Some k -> rows !! k = Some r ->
  covered (if Merger.differs_from_back merged r then merged ++ [r] else merged)
    part_rows (<[p := S k]> indices).
Proof.
  intros Hcov Hrows Hk Hr q rows' Hrows'.
  assert (Hnew : represented
                   (if Merger.differs_from_back merged r then merged ++ [r] else merged) r).
  { destruct (Merger.differs_from_back merged r) eqn:Hd.
    - exists r. split; [apply in_or_app; right; now left|auto].
    - now apply differs_from_back_false. }
  assert (Hold : forall x, represented merged x ->
                   represented (if Merger.differs_from_back merged r
                                then merged ++ [r] else merged) x).
  { intros x Hx. destruct (Merger.differs_from_back merged r); [now apply represented_app|exact Hx]. }
  destruct (Hcov q rows' Hrows') as (k' & Hk' & Hall).
  destruct (decide (q = p)) as [->|Hqp].
  - assert (rows' = rows) by congruence. assert (k' = k) by congruence. subst rows' k'.
    exists (S k). split; [apply list_lookup_insert_eq; eapply lookup_lt_Some; exact Hk|].
    rewrite (take_S_r _ _ _ Hr). apply Forall_app. split.
    + eapply Forall_impl; [exact Hall|exact Hold].
    + constructor; [exact Hnew|constructor].
  - exists k'. split; [rewrite list_lookup_insert_ne by congruence; exact Hk'|].
    eapply Forall_impl; [exact Hall|exact Hold].
Qed.

Lemma merge_loop_covers fuel it merged out it' :
  heap_invariant it ->
  covered merged (MergeIterator.part_rows_ it) (MergeIterator.current_indices_ it) ->
  Merger.merge_loop fuel it merged = inr (out, it') ->
  heap_invariant it'
  /\ MergeIterator.part_rows_ it' = MergeIterator.part_rows_ it
  /\ covered out (MergeIterator.part_rows_ it') (MergeIterator.current_indices_ it')
  /\ (length out + remaining (MergeIterator.part_rows_ it') (MergeIterator.current_indices_ it')
      <= length merged
         + remaining (MergeIterator.part_rows_ it) (MergeIterator.current_indices_ it))%nat.
Proof.
  revert it merged. induction fuel as [|fuel IH]; intros it merged Hinv Hcov; simpl.
  - intros [= <- <-]. auto.
  - destruct (MergeIterator.has_next it); [|intros [= <- <-]; auto].
    destruct (MergeIterator.next it) as [e|[r it1]] eqn:Hstep; simpl; [discriminate|].
    destruct (next_step _ _ _ Hinv Hstep)
      as (p & rows & k & Hrows & Hk & Hr & Hparts & Hindices & Hinv1 & _).
    intros Hloop.
    assert (Hcov1 : covered (if Merger.differs_from_back merged r then merged ++ [r] else merged)
                      (MergeIterator.part_rows_ it1) (MergeIterator.current_indices_ it1))
      by (rewrite Hparts, Hindices; eapply covered_step; eassumption).
    destruct (IH it1 _ Hinv1 Hcov1 Hloop) as (Hinv' & Hparts' & Hcov' & Hlen).
    split; [exact Hinv'|]. split; [congruence|]. split; [exact Hcov'|].
    rewrite Hparts, Hindices in Hlen.
    pose proof (remaining_advance _ _ _ _ _ Hrows Hk (lookup_lt_Some _ _ _ Hr)) as Hrem.
    destruct (Merger.differs_from_back merged r); [rewrite length_app in Hlen; simpl in Hlen|];
      lia.
Qed.

(** With the heap empty every cursor is at the end of its part. *)
Lemma covered_all merged part_rows indices :
  covered merged part_rows indices ->
  heads_from O part_rows indices = [] ->
  Forall (represented merged) (concat part_rows).
Proof.
  intros Hcov Hheads. apply Forall_concat. apply Forall_lookup. intros p rows Hrows.
  destruct (Hcov p rows Hrows) as (k & Hk & Hall).
  destruct (rows !! k) as [r|] eqn:Hr.
  - pose proof (heads_from_lookup O _ _ _ _ _ _ Hrows Hk Hr) as Hin.
    rewrite Hheads in Hin. destruct Hin.
  - apply lookup_ge_None in Hr. now rewrite take_ge in Hall.
Qed.

Lemma merge_fetched_covers (part_rows : list RowVector) :
  exists merged it,
    Merger.merge_fetched part_rows = inr (merged, it)
    /\ Forall (represented merged) (concat part_rows)
    /\ (forall r, In r merged -> In r (concat part_rows))
    /\ (length merged <= length (concat part_rows))%nat.
Proof.
  destruct (merge_loop_returns (Merger.merge_fuel part_rows) (MergeIterator.new part_rows) [])
    as (merged & it & Hloop).
  exists merged, it. split; [exact Hloop|].
  pose proof (new_invariant part_rows) as Hinv.
  destruct (merge_loop_covers _ _ _ _ _ Hinv (covered_start part_rows) Hloop)
    as (Hinv' & Hparts & Hcov & Hlen).
  assert (Hdone : MergeIterator.has_next it = false).
  { eapply merge_loop_complete; [exact Hinv| |exact Hloop].
    simpl. rewrite remaining_start. unfold Merger.merge_fuel. lia. }
  split.
  - change part_rows with (MergeIterator.part_rows_ (MergeIterator.new part_rows)).
    rewrite <- Hparts. eapply covered_all; [exact Hcov|].
    destruct (heads_from O _ _) eqn:Hheads; [reflexivity|].
    assert (MergeIterator.has_next it = true)
      by (apply has_next_heads; [exact Hinv'|congruence]).
    congruence.
  - split.
    + intros r Hr. destruct (merge_loop_rows _ _ _ _ _ Hinv Hloop r Hr) as [[]|Hin]. exact Hin.
    + simpl in Hlen. rewrite remaining_start in Hlen. lia.
Qed.

End MergeCoverage.

(** [Merger::merge_rows] on any non-empty list of parts whose rows can be
    fetched, sorted or not, and whatever the priority queue breaks ties by:
    the call returns; for every row of the parts the output has a row with
    its key and its timestamp; every row of the output is a row of a part;
    and the output is no longer than the input. *)
Theorem merge_rows_loses_no_pair `{StdSort} `{StdPriorityQueue}
    (disk : Disk.t) (parts : list Part.t) (part_rows : list RowVector) :
  parts <> [] ->
  Merger.fetch_rows disk parts = inr part_rows ->
  exists merged,
    Merger.merge_rows disk parts = inr merged
    /\ (forall r, In r (concat part_rows) ->
          exists r', In r' merged /\ key r' = key r /\ timestamp r' = timestamp r)
    /\ (forall r, In r merged -> In r (concat part_rows))
    /\ (length merged <= length (concat part_rows))%nat.
Proof.
  intros Hparts Hfetch.
  destruct (merge_fetched_covers part_rows) as (merged & it & Hmerged & Hcov & Hrows & Hlen).
  exists merged. split; [eapply merge_rows_fetched; eassumption|].
  split; [|auto]. intros r Hr. rewrite List.Forall_forall in Hcov. now apply Hcov.
Qed.

Lemma merge_rows_loses_no_pair_witness :
  exists merged,
    Merger.merge_rows (H := reference_sort) (H0 := reference_priority_queue)
      merge_disk merge_input = inr merged
    /\ (exists r', In r' merged /\ key r' = "k" /\ timestamp r' = 1)
    /\ (length merged <= 4)%nat.
Proof.
  destruct (merge_rows_loses_no_pair (H := reference_sort) (H0 := reference_priority_queue)
              merge_disk merge_input [rows_a; rows_b])
    as (merged & Hmerged & Hcov & _ & Hlen).
  - vm_compute. discriminate.
  - vm_compute. reflexivity.
  - exists merged. split; [exact Hmerged|]. split; [|exact Hlen].
    apply (Hcov (mkRow "k" "a" 1)). vm_compute. auto.
Defined.

(** ** One merge of the engine *)

(** [held'] is [held] with, possibly, rows dropped whose key and timestamp
    another row of [held'] has. *)
Definition condensed (held held' : RowVector) : Prop :=
  (forall r, In r held -> represented held' r) /\ (forall r, In r held' -> In r held).

Lemma condensed_refl held : condensed held held.
Proof. split; [intros r Hr; exists r; auto|auto]. Qed.

Lemma condensed_permutation held held' : Permutation held held' -> condensed held held'.
Proof.
  intros Hp. split.
  - intros r Hr. exists r. split; [eapply Permutation_in; eassumption|auto].
  - intros r Hr. eapply Permutation_in; [symmetry; exact Hp|exact Hr].
Qed.

Lemma condensed_trans a b c : condensed a b -> condensed b c -> condensed a c.
Proof.
  intros [Hab Hba] [Hbc Hcb]. split; [|auto].
  intros r Hr. destruct (Hab r Hr) as (r1 & Hr1 & Hk1 & Ht1).
  destruct (Hbc r1 Hr1) as (r2 & Hr2 & Hk2 & Ht2).
  exists r2. split; [exact Hr2|]. split; congruence.
Qed.

Lemma condensed_app a a' b b' : condensed a a' -> condensed b b' -> condensed (a ++ b) (a' ++ b').
Proof.
  intros [Ha Ha'] [Hb Hb']. split.
  - intros r Hr. apply in_app_or in Hr as [Hr|Hr].
    + destruct (Ha r Hr) as (r' & Hin & Hr'). exists r'. split; [apply in_or_app; now left|exact Hr'].
    + destruct (Hb r Hr) as (r' & Hin & Hr'). exists r'. split; [apply in_or_app; now right|exact Hr'].
  - intros r Hr. apply in_or_app. apply in_app_or in Hr as [Hr|Hr]; auto.
Qed.

(** The partition [perform_merge] makes of the parts. *)
Fixpoint count_selected (part_indices : list Z) (i : Z) (n : nat) : nat :=
  match n with
  | O => O
  | S n' => (if existsb (Z.eqb i) part_indices then 1 else 0)
            + count_selected part_indices (i + 1) n'
  end.

Lemma split_selected_spec (part_indices : list Z) (parts : list Part.t) (i : Z)
    (parts_to_merge remaining_parts : list Part.t) :
  exists selected others,
    MergeTree.split_selected part_indices i parts parts_to_merge remaining_parts
    = (parts_to_merge ++ selected, remaining_parts ++ others)
    /\ Permutation parts (selected ++ others)
    /\ length selected = count_selected part_indices i (length parts).
Proof.
  revert i parts_to_merge remaining_parts.
  induction parts as [|part rest IH]; intros i parts_to_merge remaining_parts.
  - exists [], []. simpl. now rewrite !app_nil_r.
  - cbn [MergeTree.split_selected length count_selected].
    destruct (existsb (Z.eqb i) part_indices).
    + destruct (IH (i + 1) (parts_to_merge ++ [part]) remaining_parts)
        as (selected & others & -> & Hperm & Hlen).
      exists (part :: selected), others. rewrite <- app_assoc. split; [reflexivity|].
      split; [simpl; now constructor|simpl; now rewrite Hlen].
    + destruct (IH (i + 1) parts_to_merge (remaining_parts ++ [part]))
        as (selected & others & -> & Hperm & Hlen).
      exists selected, (part :: others). rewrite <- app_assoc. split; [reflexivity|].
      split; [rewrite <- Permutation_middle; now constructor|exact Hlen].
Qed.

Lemma window_true (i n x : Z) : i <= x < i + n -> (i <=? x) && (x <? i + n) = true.
Proof. intros Hx. apply andb_true_intro. split; [apply Z.leb_le|apply Z.ltb_lt]; lia. Qed.

Lemma window_false (i n x : Z) : ~ (i <= x < i + n) -> (i <=? x) && (x <? i + n) = false.
Proof.
  intros Hx. apply andb_false_iff.
  destruct (Z.le_gt_cases i x); [right; apply Z.ltb_ge|left; apply Z.leb_gt]; lia.
Qed.

Lemma count_selected_window (part_indices : list Z) (i : Z) (n : nat) :
  NoDup part_indices ->
  count_selected part_indices i n
  = length (List.filter (fun x => (i <=? x) && (x <? i + Z.of_nat n)) part_indices).
Proof.
  intros Hnodup. revert i. induction n as [|n IH]; intros i.
  - simpl. rewrite filter_none; [reflexivity|].
    apply List.Forall_forall. intros x _. apply window_false. lia.
  - cbn [count_selected]. rewrite IH. clear IH.
    induction Hnodup as [|x xs Hx Hnodup IH]; [reflexivity|].
    cbn [existsb List.filter].
    destruct (Z.eqb_spec i x) as [->|Hne].
    + assert (Hnot : existsb (Z.eqb x) xs = false).
      { apply not_true_iff_false. intros Hex. apply existsb_exists in Hex as (y & Hy & Heq).
        apply Z.eqb_eq in Heq. subst y. apply Hx. now apply list_elem_of_In. }
      rewrite Hnot in IH. cbn [orb].
      rewrite (window_false (x + 1) (Z.of_nat n) x) by lia.
      rewrite (window_true x (Z.of_nat (S n)) x) by lia.
      simpl length. simpl in IH. lia.
    + cbn [orb].
      destruct ((i <=? x) && (x <? i + Z.of_nat (S n))) eqn:Hin.
      * apply andb_true_iff in Hin as [Hle Hlt]. apply Z.leb_le in Hle. apply Z.ltb_lt in Hlt.
        rewrite (window_true (i + 1) (Z.of_nat n) x) by lia.
        simpl length. lia.
      * assert (Hout : ~ (i <= x < i + Z.of_nat (S n))).
        { intros [Hle Hlt]. apply Z.leb_le in Hle. apply Z.ltb_lt in Hlt.
          rewrite Hle, Hlt in Hin. discriminate. }
        rewrite (window_false (i + 1) (Z.of_nat n) x) by lia.
        exact IH.
Qed.

Lemma candidate_indices (disk : Disk.t) (parts : list Part.t) (c : MergeCandidate.t) :
  is_pair disk parts c \/ is_adjacent_triple disk parts c ->
  (2 <= count_selected (MergeCandidate.part_indices c) 0 (length parts) <= 3)%nat.
Proof.
  unfold is_pair, is_adjacent_triple, Merger.vector_size.
  intros [(i & j & Hij & Hj & -> & _)|(i & Hi & Hi2 & -> & _)].
  - rewrite count_selected_window.
    + cbn [List.filter].
      rewrite (window_true 0 (Z.of_nat (length parts)) i) by lia.
      rewrite (window_true 0 (Z.of_nat (length parts)) j) by lia.
      simpl. lia.
    + repeat constructor; rewrite ?elem_of_cons, ?elem_of_nil; lia.
  - rewrite count_selected_window.
    + cbn [List.filter].
      rewrite (window_true 0 (Z.of_nat (length parts)) i) by lia.
      rewrite (window_true 0 (Z.of_nat (length parts)) (i + 1)) by lia.
      rewrite (window_true 0 (Z.of_nat (length parts)) (i + 2)) by lia.
      simpl. lia.
    + repeat constructor; rewrite ?elem_of_cons, ?elem_of_nil; lia.
Qed.

Lemma fetch_rows_loaded `{StdSort} (disk : Disk.t) (parts : list Part.t) :
  Forall part_wf parts -> Merger.fetch_rows disk parts = inr (map part_rows parts).
Proof.
  induction 1 as [|p ps Hp _ IH]; [reflexivity|].
  cbn [Merger.fetch_rows map]. destruct Hp as (Hloaded & _).
  rewrite (part_get_all_rows disk p Hloaded). cbn [bind]. rewrite IH. reflexivity.
Qed.

Lemma part_rows_nonempty (p : Part.t) : part_wf p -> part_rows p <> [].
Proof.
  intros (_ & Hne & Hsealed & _). unfold part_rows, all_rows.
  destruct (Part.granules_ p) as [|g gs]; [congruence|].
  apply Forall_cons in Hsealed as [(_ & _ & Hrows) _].
  cbn [map concat]. unfold Granule.rows. now destruct (Granule.rows_ g).
Qed.

Lemma merge_parts_spec `{StdSort} `{StdPriorityQueue} (now : Z) (m : Merger.t)
    (disk : Disk.t) (parts : list Part.t) :
  Forall part_wf parts -> parts <> [] -> only_directories disk ->
  exists disk' merged,
    Merger.merge_parts now m disk parts = inr (disk', merged)
    /\ part_wf merged
    /\ condensed (concat (map part_rows parts)) (part_rows merged)
    /\ only_directories disk'
    /\ (forall name, name <> Part.dir_name merged -> disk' !! name = disk !! name)
    /\ (forall name, disk !! name <> None -> disk' !! name <> None)
    /\ ((2 <= length parts)%nat ->
        PartMetadata.part_id (Part.metadata merged) = Merger.get_next_part_id m
        /\ Part.base_path_ merged = Merger.base_path_ m
        /\ stored disk' merged)
    /\ (forall part, parts = [part] -> merged = part /\ disk' = disk).
Proof.
  intros Hwf Hne Hdisk.
  destruct parts as [|p1 [|p2 ps]]; [congruence| |].
  - exists disk, p1. split; [reflexivity|]. apply Forall_cons in Hwf as [Hp1 _].
    split; [exact Hp1|]. split; [simpl; rewrite app_nil_r; apply condensed_refl|].
    split; [exact Hdisk|]. split; [auto|]. split; [auto|].
    split; [simpl; lia|]. intros part [= <-]. auto.
  - set (parts := p1 :: p2 :: ps) in *.
    assert (Hfetch := fetch_rows_loaded disk parts Hwf).
    destruct (merge_fetched_covers (map part_rows parts))
      as (merged_rows & it & Hmerged & Hcov & Hrows & _).
    assert (Hmerge : Merger.merge_rows disk parts = inr merged_rows)
      by (eapply merge_rows_fetched; eassumption).
    assert (Hnonempty : merged_rows <> []).
    { intros ->. apply Forall_cons in Hwf as [Hp1 _].
      pose proof (part_rows_nonempty p1 Hp1) as Hp1rows.
      destruct (part_rows p1) as [|r rs] eqn:Hr1; [congruence|].
      unfold parts in Hcov. cbn [map concat] in Hcov. rewrite Hr1 in Hcov.
      apply Forall_cons in Hcov as [(r' & [] & _) _]. }
    unfold Merger.merge_parts. fold parts. rewrite Hmerge. cbn [bind].
    destruct merged_rows as [|row0 rows0] eqn:Hmr; [congruence|]. rewrite <- Hmr in *.
    destruct (write_from_memtable_rows_spec now disk
                (Part.new (Merger.get_next_part_id m) (Merger.base_path_ m)) merged_rows)
      as (disk' & merged & Hw & Hmwf & Hstored & Hperm & Hid & Hbase & _ & _ & _ & Hother);
      [exact Hnonempty|apply Hdisk|].
    assert (Hdir : Part.dir_name merged
                   = Part.dir_name (Part.new (Merger.get_next_part_id m) (Merger.base_path_ m)))
      by (unfold Part.dir_name; now rewrite Hid).
    exists disk', merged. split; [exact Hw|]. split; [exact Hmwf|].
    split.
    { eapply condensed_trans; [|apply condensed_permutation; exact Hperm].
      split; [|exact Hrows]. intros r Hr. rewrite List.Forall_forall in Hcov. now apply Hcov. }
    split.
    { intros name. destruct (decide (name = Part.dir_name merged)) as [->|Hname].
      - destruct Hstored as (d & -> & _). discriminate.
      - rewrite Hother by congruence. apply Hdisk. }
    split; [intros name Hname; apply Hother; congruence|].
    split.
    { intros name Hsome. destruct (decide (name = Part.dir_name merged)) as [->|Hname].
      - destruct Hstored as (d & -> & _). discriminate.
      - rewrite Hother by congruence. exact Hsome. }
    split; [intros _; auto|]. intros part Hpart. discriminate Hpart.
Qed.

(** What [perform_merge] does to an engine whose parts are loaded. *)
Lemma perform_merge_spec `{StdSort} `{StdPriorityQueue} (now : Z) (disk : Disk.t)
    (engine : MergeTree.t) :
  engine_wf engine -> only_directories disk ->
  exists disk' engine',
    MergeTree.perform_merge now disk engine = defined (inr (disk', engine'))
    /\ engine_wf engine'
    /\ only_directories disk'
    /\ condensed (engine_rows engine) (engine_rows engine')
    /\ MergeTree.merger_ engine' = MergeTree.merger_ engine
    /\ MergeTree.memtable_ engine' = MergeTree.memtable_ engine
    /\ MergeTree.config_ engine' = MergeTree.config_ engine
    /\ (forall name, disk !! name <> None -> disk' !! name <> None)
    /\ ((disk' = disk /\ engine' = engine
         /\ ((length (MergeTree.parts_ engine) < 2)%nat
             \/ Merger.select_merge_candidates disk (MergeTree.parts_ engine) 1 = defined []))
        \/ exists merged others,
             MergeTree.parts_ engine' = others ++ [merged]
             /\ (2 <= length (MergeTree.parts_ engine))%nat
             /\ (length (MergeTree.parts_ engine) - 3 <= length others
                 <= length (MergeTree.parts_ engine) - 2)%nat
             /\ PartMetadata.part_id (Part.metadata merged)
                = Merger.get_next_part_id (MergeTree.merger_ engine)
             /\ stored disk' merged
             /\ (forall name, name <> Part.dir_name merged -> disk' !! name = disk !! name)).
Proof.
  intros Hwf Hdisk. unfold MergeTree.perform_merge.
  destruct (Z.of_nat (length (MergeTree.parts_ engine)) <? 2) eqn:Hfew.
  { apply Z.ltb_lt in Hfew. exists disk, engine. split; [reflexivity|].
    split; [exact Hwf|]. split; [exact Hdisk|]. split; [apply condensed_refl|].
    repeat (split; [reflexivity|]). split; [auto|]. left. repeat split. left. lia. }
  apply Z.ltb_ge in Hfew.
  assert (Hreach : Merger.reaches_loops (MergeTree.parts_ engine) = true).
  { unfold Merger.reaches_loops, Merger.vector_size. apply negb_true_iff, Z.ltb_ge. exact Hfew. }
  rewrite select_merge_candidates_collect, Hreach. cbn [checked_bind].
  set (found := collected disk (MergeTree.parts_ engine) 1).
  assert (Hpositive : Forall (fun c => positive_score (MergeCandidate.score c)) found).
  { apply List.Forall_forall. intros c Hc. now destruct (collected_sound _ _ _ _ Hreach Hc). }
  pose proof (std_sort_permutation _ MergeCandidate.by_score_desc found
                (by_score_desc_strict_weak_order found Hpositive)) as Hperm.
  destruct (std_sort MergeCandidate.by_score_desc found) as [|best rest] eqn:Hsorted.
  { exists disk, engine. split; [reflexivity|].
    split; [exact Hwf|]. split; [exact Hdisk|]. split; [apply condensed_refl|].
    repeat (split; [reflexivity|]). split; [auto|]. left. repeat split. now right. }
  assert (Hbest : In best found)
    by (eapply Permutation_in; [symmetry; exact Hperm|now left]).
  destruct (collected_sound _ _ _ _ Hreach Hbest) as [_ Hshape].
  pose proof (candidate_indices _ _ _ Hshape) as Hcount.
  destruct (split_selected_spec (MergeCandidate.part_indices best) (MergeTree.parts_ engine)
              0 [] []) as (selected & others & Hsplit & Hparts & Hlen).
  rewrite Hsplit. cbn [app].
  destruct Hwf as (Hsorted_mem & Hsize & Hparts_wf).
  assert (Hboth : Forall part_wf (selected ++ others)) by now rewrite <- Hparts.
  apply Forall_app in Hboth as [Hsel_wf Hoth_wf].
  destruct selected as [|s1 selected'] eqn:Hsel; [simpl in Hlen; lia|]. rewrite <- Hsel in *.
  destruct (merge_parts_spec now (MergeTree.merger_ engine) disk selected Hsel_wf)
    as (disk' & merged & Hmerge & Hmwf & Hcond & Hdisk' & Hother & Hkeep & Hnew & _);
    [rewrite Hsel; discriminate|exact Hdisk|].
  cbn [MergeTree.merger_ MergeTree.config_ MergeTree.base_path_ MergeTree.memtable_
       MergeTree.parts_]. rewrite Hmerge. cbn [bind].
  eexists _, _. split; [reflexivity|].
  split.
  { split; [exact Hsorted_mem|]. split; [exact Hsize|].
    cbn [MergeTree.parts_]. apply Forall_app. split; [exact Hoth_wf|now constructor]. }
  split; [exact Hdisk'|].
  split.
  { unfold engine_rows. cbn [MergeTree.memtable_ MergeTree.parts_].
    apply condensed_app; [apply condensed_refl|].
    eapply condensed_trans.
    - apply condensed_permutation. rewrite Hparts, map_app, concat_app.
      apply Permutation_app_comm.
    - rewrite map_app, concat_app. cbn [map concat]. rewrite app_nil_r.
      apply condensed_app; [apply condensed_refl|exact Hcond]. }
  repeat (split; [reflexivity|]). split; [exact Hkeep|].
  right. exists merged, others. cbn [MergeTree.parts_]. split; [reflexivity|].
  pose proof (Permutation_length Hparts) as Hplen. rewrite length_app in Hplen.
  split; [lia|]. split; [lia|]. destruct Hnew as (Hid & _ & Hstored); [lia|]. auto.
Qed.

(** ** Queries before and after a merge *)

Definition key_and_timestamp (r : Row) : string * Z := (key r, timestamp r).

Lemma row_before_asym a b : row_before a b -> row_before b a -> False.
Proof.
  intros [Hab|[Hk Ht]] [Hba|[Hk' Ht']].
  - rewrite (key_lt_asym _ _ Hab) in Hba. discriminate.
  - rewrite Hk', key_lt_irrefl in Hab. discriminate.
  - rewrite Hk, key_lt_irrefl in Hba. discriminate.
  - lia.
Qed.

Lemma row_before_same a b a' :
  row_before a b -> key a' = key a -> timestamp a' = timestamp a -> row_before a' b.
Proof. unfold row_before. intros Hab -> ->. exact Hab. Qed.

Lemma row_before_same_r a b b' :
  row_before a b -> key b' = key b -> timestamp b' = timestamp b -> row_before a b'.
Proof. unfold row_before. intros Hab -> ->. exact Hab. Qed.

(** Two lists, each strictly ascending in (key, timestamp), that hold the
    same (key, timestamp) pairs hold them in the same sequence. *)
Lemma ascending_pairs_unique (l l' : RowVector) :
  StronglySorted row_before l -> StronglySorted row_before l' ->
  (forall r, In r l -> represented l' r) ->
  (forall r, In r l' -> represented l r) ->
  map key_and_timestamp l = map key_and_timestamp l'.
Proof.
  intros Hs. revert l'. induction Hs as [|x xs Hs IH Hx]; intros l' Hs' Hto Hfrom.
  - destruct l' as [|y ys]; [reflexivity|].
    destruct (Hfrom y (or_introl eq_refl)) as (r & [] & _).
  - destruct Hs' as [|y ys Hs' Hy].
    { destruct (Hto x (or_introl eq_refl)) as (r & [] & _). }
    rewrite List.Forall_forall in Hx, Hy.
    assert (Hhead : key x = key y /\ timestamp x = timestamp y).
    { destruct (Hto x (or_introl eq_refl)) as (x' & [<-|Hx'] & Hkx & Htx); [auto|].
      destruct (Hfrom y (or_introl eq_refl)) as (y' & [<-|Hy'] & Hky & Hty); [auto|].
      exfalso. apply (row_before_asym x y).
      - eapply row_before_same_r; [apply (Hx y' Hy')|congruence|congruence].
      - eapply row_before_same_r; [apply (Hy x' Hx')|congruence|congruence]. }
    destruct Hhead as [Hk Ht]. cbn [map]. f_equal; [unfold key_and_timestamp; congruence|].
    apply IH; [exact Hs'| |].
    + intros r Hr. destruct (Hto r (or_intror Hr)) as (r' & [<-|Hr'] & Hkr & Htr).
      * assert (Hxx : row_before x x)
          by (eapply row_before_same_r; [apply (Hx r Hr)|congruence|congruence]).
        destruct (row_before_asym x x Hxx Hxx).
      * exists r'. auto.
    + intros r Hr. destruct (Hfrom r (or_intror Hr)) as (r' & [<-|Hr'] & Hkr & Htr).
      * assert (Hyy : row_before y y)
          by (eapply row_before_same_r; [apply (Hy r Hr)|congruence|congruence]).
        destruct (row_before_asym y y Hyy Hyy).
      * exists r'. auto.
Qed.

Lemma in_range_same start_key end_key r r' :
  key r' = key r -> in_range start_key end_key r -> in_range start_key end_key r'.
Proof. unfold in_range. now intros ->. Qed.

Lemma query_pairs_condensed `{StdSort} (disk disk' : Disk.t) (engine engine' : MergeTree.t)
    (start_key end_key : string) :
  engine_wf engine -> engine_wf engine' ->
  condensed (engine_rows engine) (engine_rows engine') ->
  exists result result',
    MergeTree.query disk engine start_key end_key = inr (result, engine)
    /\ MergeTree.query disk' engine' start_key end_key = inr (result', engine')
    /\ map key_and_timestamp result = map key_and_timestamp result'
    /\ (forall r, In r result' -> In r (engine_rows engine)).
Proof.
  intros Hwf Hwf' [Hto Hfrom].
  destruct (query_covers disk engine start_key end_key Hwf) as (result & Hq & Hsound & Hcomplete).
  destruct (query_covers disk' engine' start_key end_key Hwf')
    as (result' & Hq' & Hsound' & Hcomplete').
  exists result, result'. split; [exact Hq|]. split; [exact Hq'|].
  split.
  - apply ascending_pairs_unique.
    + now destruct (query_result _ _ _ _ _ _ Hq).
    + now destruct (query_result _ _ _ _ _ _ Hq').
    + intros r Hr. destruct (Hsound r Hr) as [Hheld Hrange].
      destruct (Hto r Hheld) as (r1 & Hr1 & Hk1 & Ht1).
      destruct (Hcomplete' r1 Hr1 (in_range_same _ _ _ _ Hk1 Hrange)) as (r2 & Hr2 & Hk2 & Ht2).
      exists r2. split; [exact Hr2|]. split; congruence.
    + intros r Hr. destruct (Hsound' r Hr) as [Hheld Hrange].
      apply (Hcomplete r (Hfrom r Hheld) Hrange).
  - intros r Hr. apply Hfrom. now apply Hsound'.
Qed.

(** [MergeTree::perform_merge] on an engine whose parts are loaded: the
    call returns without a throw and without reading past the parts; the
    engine afterwards holds rows it held before, and for every row it held
    a row with that key and timestamp; the memtable and the next part id
    are untouched; no directory is removed.  Either nothing changed (fewer
    than two parts, or no candidate with a positive score), or two or three
    parts were replaced by one merged part at the end of the parts, which
    was written to the directory of the next part id. *)
Theorem perform_merge_keeps_rows `{StdSort} `{StdPriorityQueue} (now : Z) (disk : Disk.t)
    (engine : MergeTree.t) :
  engine_wf engine -> only_directories disk ->
  exists disk' engine',
    MergeTree.perform_merge now disk engine = defined (inr (disk', engine'))
    /\ engine_wf engine'
    /\ condensed (engine_rows engine) (engine_rows engine')
    /\ MergeTree.merger_ engine' = MergeTree.merger_ engine
    /\ MergeTree.memtable_ engine' = MergeTree.memtable_ engine
    /\ (forall name, disk !! name <> None -> disk' !! name <> None)
    /\ ((disk' = disk /\ engine' = engine)
        \/ exists merged others,
             MergeTree.parts_ engine' = others ++ [merged]
             /\ (2 <= length (MergeTree.parts_ engine))%nat
             /\ (length (MergeTree.parts_ engine) - 3 <= length others
                 <= length (MergeTree.parts_ engine) - 2)%nat
             /\ PartMetadata.part_id (Part.metadata merged)
                = Merger.get_next_part_id (MergeTree.merger_ engine)
             /\ stored disk' merged
             /\ (forall name, name <> Part.dir_name merged -> disk' !! name = disk !! name)).
Proof.
  intros Hwf Hdisk.
  destruct (perform_merge_spec now disk engine Hwf Hdisk)
    as (disk' & engine' & Hp & Hwf' & _ & Hcond & Hmerger & Hmem & _ & Hkeep & Hcases).
  exists disk', engine'. repeat (split; [assumption|]).
  destruct Hcases as [(-> & -> & _)|Hmerged]; [now left|now right].
Qed.

(** On an engine whose parts are loaded, a query returns the same keys and
    timestamps, in the same order, before and after [perform_merge]; the
    rows returned afterwards are rows the engine held before.  The parts
    must be loaded: a part recovered at construction is passed over by
    [query] until [perform_merge] loads it, see
    [perform_merge_loads_recovered_part]. *)
Theorem perform_merge_keeps_query_results `{StdSort} `{StdPriorityQueue} (now : Z)
    (disk disk' : Disk.t) (engine engine' : MergeTree.t) (start_key end_key : string) :
  engine_wf engine -> only_directories disk ->
  MergeTree.perform_merge now disk engine = defined (inr (disk', engine')) ->
  exists result result',
    MergeTree.query disk engine start_key end_key = inr (result, engine)
    /\ MergeTree.query disk' engine' start_key end_key = inr (result', engine')
    /\ map key_and_timestamp result = map key_and_timestamp result'
    /\ (forall r, In r result' -> In r (engine_rows engine)).
Proof.
  intros Hwf Hdisk Hmerge.
  destruct (perform_merge_spec now disk engine Hwf Hdisk)
    as (disk1 & engine1 & Hp & Hwf' & _ & Hcond & _).
  rewrite Hmerge in Hp. injection Hp as <- <-.
  now apply query_pairs_condensed.
Qed.

(** [Merger::get_next_part_id] does not advance the id, so the part id a
    merge gives to the merged part is given again to the part the next
    flush writes: both parts are then among the parts of the engine with
    one part id and one directory, and the directory holds what the flush
    wrote. *)
Theorem merged_part_id_taken_by_next_flush `{StdSort} `{StdPriorityQueue} (now now' : Z)
    (disk disk1 : Disk.t) (engine engine1 : MergeTree.t) :
  engine_wf engine -> only_directories disk ->
  MergeTree.perform_merge now disk engine = defined (inr (disk1, engine1)) ->
  MergeTree.part_count engine1 < MergeTree.part_count engine ->
  MemTable.size (MergeTree.memtable_ engine1) <> 0 ->
  exists disk2 engine2 others merged flushed,
    MergeTree.flush_memtable now' disk1 engine1 = inr (disk2, engine2)
    /\ MergeTree.parts_ engine1 = others ++ [merged]
    /\ MergeTree.parts_ engine2 = others ++ [merged; flushed]
    /\ PartMetadata.part_id (Part.metadata flushed)
       = PartMetadata.part_id (Part.metadata merged)
    /\ Part.dir_name flushed = Part.dir_name merged
    /\ stored disk1 merged
    /\ stored disk2 flushed
    /\ Permutation (MemTable.nodes (MergeTree.memtable_ engine1)) (part_rows flushed).
Proof.
  intros Hwf Hdisk Hmerge Hcount Hmem.
  destruct (perform_merge_spec now disk engine Hwf Hdisk)
    as (disk1' & engine1' & Hp & Hwf1 & Hdisk1 & _ & Hmerger & _ & _ & _ & Hcases).
  rewrite Hmerge in Hp. injection Hp as <- <-.
  destruct Hcases as [(_ & -> & _)|(merged & others & Hparts & _ & _ & Hid & Hstored & _)]; [lia|].
  destruct (flush_memtable_spec now' disk1 engine1 Hwf1 Hdisk1)
    as (disk2 & engine2 & Hf & _ & _ & _ & _ & _ & _ & Hflushed).
  destruct (Hflushed Hmem) as (flushed & Hparts2 & _ & Hperm & Hfid & _ & Hfstored & _).
  exists disk2, engine2, others, merged, flushed.
  split; [exact Hf|]. split; [exact Hparts|].
  split; [rewrite Hparts2, Hparts, <- app_assoc; reflexivity|].
  assert (Hsame : PartMetadata.part_id (Part.metadata flushed)
                  = PartMetadata.part_id (Part.metadata merged)) by congruence.
  split; [exact Hsame|].
  split; [unfold Part.dir_name; unfold Part.metadata in Hsame; now rewrite Hsame|].
  auto.
Qed.

(** ** [optimize] *)

Section Optimize.
Context `{StdSort} `{StdPriorityQueue}.

(** A state in which the loop of [optimize] makes no progress: a merge is
    due and [perform_merge] changes nothing. *)
Definition stuck (disk : Disk.t) (engine : MergeTree.t) : Prop :=
  MergeTree.should_trigger_merge engine = true
  /\ forall now, MergeTree.perform_merge now disk engine = defined (inr (disk, engine)).

Lemma merge_while_stuck (clock : nat -> Z) (disk : Disk.t) (engine : MergeTree.t) :
  stuck disk engine ->
  forall fuel k, MergeTree.merge_while fuel clock k disk engine = defined (inr None).
Proof.
  intros [Hdue Hsame] fuel. induction fuel as [|fuel IH]; intros k; simpl; rewrite Hdue.
  - reflexivity.
  - rewrite Hsame. simpl. apply IH.
Qed.

Lemma perform_merge_few (now : Z) (disk : Disk.t) (engine : MergeTree.t) :
  (length (MergeTree.parts_ engine) < 2)%nat ->
  MergeTree.perform_merge now disk engine = defined (inr (disk, engine)).
Proof.
  intros Hfew. unfold MergeTree.perform_merge.
  assert (Hlt : (Z.of_nat (length (MergeTree.parts_ engine)) <? 2) = true)
    by (apply Z.ltb_lt; lia).
  now rewrite Hlt.
Qed.

Lemma perform_merge_no_candidate (now : Z) (disk : Disk.t) (engine : MergeTree.t) :
  Merger.select_merge_candidates disk (MergeTree.parts_ engine) 1 = defined [] ->
  MergeTree.perform_merge now disk engine = defined (inr (disk, engine)).
Proof.
  intros Hnone. unfold MergeTree.perform_merge.
  destruct (Z.of_nat (length (MergeTree.parts_ engine)) <? 2); [reflexivity|].
  now rewrite Hnone.
Qed.

(** The states the loop of [optimize] goes through:
    [merges_reach clock k disk engine n disk' engine'] when [n] iterations
    lead from [disk], [engine] to [disk'], [engine'], a merge being due
    before each, the first of them reading the clock as [clock k]. *)
Inductive merges_reach (clock : nat -> Z)
    : nat -> Disk.t -> MergeTree.t -> nat -> Disk.t -> MergeTree.t -> Prop :=
  | reach_here k disk engine :
      merges_reach clock k disk engine 0 disk engine
  | reach_step k disk engine disk1 engine1 n disk' engine' :
      MergeTree.should_trigger_merge engine = true ->
      MergeTree.perform_merge (clock k) disk engine = defined (inr (disk1, engine1)) ->
      merges_reach clock (S k) disk1 engine1 n disk' engine' ->
      merges_reach clock k disk engine (S n) disk' engine'.

Lemma merge_while_reach (clock : nat -> Z) (k : nat) (disk : Disk.t) (engine : MergeTree.t)
    (n : nat) (disk' : Disk.t) (engine' : MergeTree.t) :
  merges_reach clock k disk engine n disk' engine' ->
  forall fuel,
    MergeTree.merge_while (n + fuel) clock k disk engine
    = MergeTree.merge_while fuel clock (k + n) disk' engine'.
Proof.
  induction 1 as [k disk engine|k disk engine disk1 engine1 n disk' engine' Hdue Hp _ IH];
    intros fuel.
  - now rewrite Nat.add_0_r.
  - cbn [Nat.add MergeTree.merge_while]. rewrite Hdue, Hp. cbn [checked_bind].
    rewrite IH. f_equal. lia.
Qed.

Lemma merge_while_out_of_fuel (clock : nat -> Z) (k : nat) (disk : Disk.t)
    (engine : MergeTree.t) (n : nat) (disk' : Disk.t) (engine' : MergeTree.t) :
  merges_reach clock k disk engine n disk' engine' ->
  forall fuel, (fuel < n)%nat ->
    MergeTree.merge_while fuel clock k disk engine = defined (inr None).
Proof.
  induction 1 as [k disk engine|k disk engine disk1 engine1 n disk' engine' Hdue Hp _ IH];
    intros fuel Hfuel; [lia|].
  destruct fuel as [|fuel]; cbn [MergeTree.merge_while]; rewrite Hdue; [reflexivity|].
  rewrite Hp. cbn [checked_bind]. apply IH. lia.
Qed.

(** The loop from a state whose parts are loaded: it goes through at most
    as many merges as parts disappear, and comes to a state in which no
    merge is due or to one in which it is stuck. *)
Lemma merge_loop_reaches (clock : nat -> Z) (k : nat) (disk : Disk.t) (engine : MergeTree.t) :
  engine_wf engine -> only_directories disk ->
  exists n disk' engine',
    merges_reach clock k disk engine n disk' engine'
    /\ (n + length (MergeTree.parts_ engine') <= length (MergeTree.parts_ engine))%nat
    /\ engine_wf engine'
    /\ only_directories disk'
    /\ condensed (engine_rows engine) (engine_rows engine')
    /\ MergeTree.memtable_ engine' = MergeTree.memtable_ engine
    /\ MergeTree.config_ engine' = MergeTree.config_ engine
    /\ (forall name, disk !! name <> None -> disk' !! name <> None)
    /\ (MergeTree.should_trigger_merge engine' = false \/ stuck disk' engine').
Proof.
  remember (length (MergeTree.parts_ engine)) as size eqn:Hsize.
  assert (Hle : (length (MergeTree.parts_ engine) <= size)%nat) by lia. clear Hsize.
  revert k disk engine Hle.
  induction size as [|size IH]; intros k disk engine Hle Hwf Hdisk.
  - exists 0%nat, disk, engine. split; [constructor|]. split; [lia|].
    split; [exact Hwf|]. split; [exact Hdisk|]. split; [apply condensed_refl|].
    split; [reflexivity|]. split; [reflexivity|]. split; [auto|].
    destruct (MergeTree.should_trigger_merge engine) eqn:Hdue; [right|now left].
    split; [exact Hdue|]. intros now. apply perform_merge_few. lia.
  - destruct (MergeTree.should_trigger_merge engine) eqn:Hdue.
    + destruct (perform_merge_spec (clock k) disk engine Hwf Hdisk)
        as (disk1 & engine1 & Hp & Hwf1 & Hdisk1 & Hcond & _ & Hmem & Hconfig & Hkeep & Hcases).
      destruct Hcases as [(-> & -> & Hwhy)|(merged & others & Hparts & Hn & Hlen & _)].
      * exists 0%nat, disk, engine. split; [constructor|]. split; [lia|].
        split; [exact Hwf|]. split; [exact Hdisk|]. split; [apply condensed_refl|].
        split; [reflexivity|]. split; [reflexivity|]. split; [auto|]. right.
        split; [exact Hdue|]. intros now.
        destruct Hwhy as [Hfew|Hnone];
          [now apply perform_merge_few|now apply perform_merge_no_candidate].
      * assert (Hshorter : (S (length (MergeTree.parts_ engine1))
                            <= length (MergeTree.parts_ engine))%nat).
        { rewrite Hparts, length_app. simpl. lia. }
        destruct (IH (S k) disk1 engine1) as
          (n & disk' & engine' & Hreach & Hcount & Hwf' & Hdisk' & Hcond' & Hmem' & Hconfig'
           & Hkeep' & Hend); [lia|exact Hwf1|exact Hdisk1|].
        exists (S n), disk', engine'.
        split; [eapply reach_step; eassumption|]. split; [lia|].
        split; [exact Hwf'|]. split; [exact Hdisk'|].
        split; [eapply condensed_trans; eassumption|].
        split; [congruence|]. split; [congruence|]. split; [auto|exact Hend].
    + exists 0%nat, disk, engine. split; [constructor|]. split; [lia|].
      split; [exact Hwf|]. split; [exact Hdisk|]. split; [apply condensed_refl|].
      split; [reflexivity|]. split; [reflexivity|]. split; [auto|now left].
Qed.

(** [MergeTree::optimize] on an engine whose parts are loaded: nothing is
    thrown.  The memtable is flushed, and the loop then goes through a
    number of merges, at most as many as parts disappear, to a state that
    holds only rows that were held, a row for every key and timestamp that
    was held, an empty memtable and every directory there was.  Either no
    merge is due in that state: then [optimize] returns it, with at most
    [max_parts] parts, whenever that many iterations are allowed.  Or a
    merge is due there and [perform_merge] changes nothing: then [optimize]
    does not return, however many iterations are allowed. *)
Theorem optimize_outcome (clock : nat -> Z) (disk : Disk.t) (engine : MergeTree.t) :
  engine_wf engine -> only_directories disk ->
  exists disk1 engine1 merges disk' engine',
    MergeTree.flush_memtable (clock O) disk engine = inr (disk1, engine1)
    /\ merges_reach clock 1 disk1 engine1 merges disk' engine'
    /\ (merges + length (MergeTree.parts_ engine') <= S (length (MergeTree.parts_ engine)))%nat
    /\ engine_wf engine'
    /\ condensed (engine_rows engine) (engine_rows engine')
    /\ MemTable.size (MergeTree.memtable_ engine') = 0
    /\ (forall name, disk !! name <> None -> disk' !! name <> None)
    /\ ((MergeTree.part_count engine' <= MergeTreeConfig.max_parts (MergeTree.config_ engine)
         /\ forall fuel, (merges <= fuel)%nat ->
              MergeTree.optimize fuel clock disk engine = defined (inr (Some (disk', engine'))))
        \/ (stuck disk' engine'
            /\ forall fuel, MergeTree.optimize fuel clock disk engine = defined (inr None))).
Proof.
  intros Hwf Hdisk.
  destruct (flush_memtable_spec (clock O) disk engine Hwf Hdisk)
    as (disk1 & engine1 & Hf & Hwf1 & Hdisk1 & Hperm & Hconfig & _ & Hzero & Hnonzero).
  assert (Hflushed : MemTable.size (MergeTree.memtable_ engine1) = 0
                     /\ (length (MergeTree.parts_ engine1)
                         <= S (length (MergeTree.parts_ engine)))%nat
                     /\ (forall name, disk !! name <> None -> disk1 !! name <> None)).
  { destruct (Z.eq_dec (MemTable.size (MergeTree.memtable_ engine)) 0) as [Hz|Hnz].
    - destruct (Hzero Hz) as [-> ->]. split; [exact Hz|]. split; [lia|auto].
    - destruct (Hnonzero Hnz) as (p & Hparts & Hmem & _ & _ & _ & Hstored & Hother).
      rewrite Hmem, Hparts, length_app. split; [reflexivity|]. split; [simpl; lia|].
      intros name Hname. destruct (decide (name = Part.dir_name p)) as [->|Hne].
      + destruct Hstored as (d & -> & _). discriminate.
      + now rewrite Hother. }
  destruct Hflushed as (Hempty & Hcount & Hkeep1).
  destruct (merge_loop_reaches clock 1%nat disk1 engine1 Hwf1 Hdisk1)
    as (merges & disk' & engine' & Hreach & Hmerges & Hwf' & _ & Hcond & Hmem' & Hconfig'
        & Hkeep' & Hend).
  exists disk1, engine1, merges, disk', engine'.
  split; [exact Hf|]. split; [exact Hreach|]. split; [lia|]. split; [exact Hwf'|].
  split; [eapply condensed_trans; [apply condensed_permutation; exact Hperm|exact Hcond]|].
  split; [congruence|]. split; [auto|].
  destruct Hend as [Hdone|Hstuck]; [left|right].
  - split.
    { unfold MergeTree.should_trigger_merge in Hdone. apply Z.ltb_ge in Hdone.
      unfold MergeTree.part_count. congruence. }
    intros fuel Hfuel. unfold MergeTree.optimize. rewrite Hf.
    replace fuel with (merges + (fuel - merges))%nat by lia.
    rewrite (merge_while_reach _ _ _ _ _ _ _ Hreach).
    destruct (fuel - merges)%nat; cbn [MergeTree.merge_while]; now rewrite Hdone.
  - split; [exact Hstuck|]. intros fuel. unfold MergeTree.optimize. rewrite Hf.
    destruct (Nat.lt_ge_cases fuel merges) as [Hshort|Hlong].
    + now apply (merge_while_out_of_fuel _ _ _ _ _ _ _ Hreach).
    + replace fuel with (merges + (fuel - merges))%nat by lia.
      rewrite (merge_while_reach _ _ _ _ _ _ _ Hreach).
      now apply merge_while_stuck.
Qed.

End Optimize.

(** ** Parts found at start-up *)

Lemma new_state `{StdSort} (disk : Disk.t) (base_path : string) (config : MergeTreeConfig.t) :
  MergeTree.memtable_ (MergeTree.new disk base_path config) = MemTable.new
  /\ MergeTree.config_ (MergeTree.new disk base_path config) = config
  /\ exists part_ids,
       MergeTree.parts_ (MergeTree.new disk base_path config)
       = map (fun id => Part.new id base_path) part_ids.
Proof.
  unfold MergeTree.new, MergeTree.load_existing_parts.
  cbn [MergeTree.memtable_ MergeTree.config_ MergeTree.parts_ MergeTree.base_path_].
  split; [reflexivity|]. split; [reflexivity|].
  rewrite push_existing_parts_filter. eexists. reflexivity.
Qed.

Lemma key_lt_empty (k : string) : k <> "" -> key_lt "" k = true.
Proof. destruct k as [|c k]; [congruence|reflexivity]. Qed.

Lemma query_parts_unloaded `{StdSort} (disk : Disk.t) (base_path : string) (part_ids : list Z)
    (start_key end_key : string) (result : RowVector) :
  start_key <> "" ->
  MergeTree.query_parts disk (map (fun id => Part.new id base_path) part_ids)
    start_key end_key result
  = inr (result, map (fun id => Part.new id base_path) part_ids).
Proof.
  intros Hstart. induction part_ids as [|id ids IH]; [reflexivity|].
  cbn [map MergeTree.query_parts].
  unfold Part.overlaps_range at 1. cbn [Part.metadata_ Part.new PartMetadata.new
    PartMetadata.max_key PartMetadata.min_key].
  rewrite (key_lt_empty start_key Hstart). cbn [orb negb].
  rewrite IH. reflexivity.
Qed.

Lemma total_rows_unloaded (base_path : string) (part_ids : list Z) (total : Z) :
  fold_left
    (fun total part => SizeT.add total (PartMetadata.row_count (Part.metadata part)))
    (map (fun id => Part.new id base_path) part_ids) (SizeT.add total 0)
  = SizeT.add total 0.
Proof.
  induction part_ids as [|id ids IH]; [reflexivity|].
  cbn [map fold_left]. cbn [Part.metadata Part.metadata_ Part.new PartMetadata.new
    PartMetadata.row_count].
  replace (SizeT.add (SizeT.add total 0) 0) with (SizeT.add total 0); [exact IH|].
  unfold SizeT.add. rewrite !Z.add_0_r. now rewrite Zmod_mod.
Qed.

(** The parts [load_existing_parts] finds are not loaded and carry the
    metadata of the constructor, with empty [min_key] and [max_key]; the
    range test of [MergeTree::query] passes them over for every non-empty
    [start_key].  So right after construction, whatever the base directory
    holds, such a query returns no row and loads no part, and [total_rows]
    is 0. *)
Theorem recovered_parts_not_queried `{StdSort} (disk : Disk.t) (base_path : string)
    (config : MergeTreeConfig.t) (start_key end_key : string) :
  start_key <> "" ->
  MergeTree.query disk (MergeTree.new disk base_path config) start_key end_key
  = inr ([], MergeTree.new disk base_path config)
  /\ MergeTree.total_rows (MergeTree.new disk base_path config) = 0
  /\ Forall (fun p => Part.is_loaded p = false
                      /\ PartMetadata.row_count (Part.metadata p) = 0)
       (MergeTree.parts_ (MergeTree.new disk base_path config)).
Proof.
  intros Hstart.
  destruct (new_state disk base_path config) as (Hmem & Hconfig & part_ids & Hparts).
  split; [|split].
  - unfold MergeTree.query. rewrite Hmem, Hparts.
    rewrite (query_parts_unloaded disk base_path part_ids start_key end_key _ Hstart).
    cbn [bind app MemTable.query MemTable.nodes MemTable.new Granule.scan_range].
    rewrite std_sort_nil. cbn [std_unique]. unfold ret. do 2 f_equal.
    rewrite <- Hparts, <- Hmem. now destruct (MergeTree.new disk base_path config).
  - unfold MergeTree.total_rows. rewrite Hmem, Hparts.
    cbn [MemTable.size MemTable.size_ MemTable.new].
    now rewrite total_rows_unloaded.
  - rewrite Hparts. apply List.Forall_forall. intros p Hp.
    apply in_map_iff in Hp as (id & <- & _). split; reflexivity.
Qed.

Lemma recovered_parts_not_queried_witness :
  MergeTree.part_count (MergeTree.new (H := reference_sort) sample_disk "./data" sample_config) = 1
  /\ Part.query (H := reference_sort) sample_disk (Part.new 1 "./data") "key1" "key3"
     <> inr ([], Part.new 1 "./data")
  /\ MergeTree.query (H := reference_sort) sample_disk
       (MergeTree.new (H := reference_sort) sample_disk "./data" sample_config) "key1" "key3"
     = inr ([], MergeTree.new (H := reference_sort) sample_disk "./data" sample_config).
Proof.
  split; [vm_compute; reflexivity|]. split; [vm_compute; discriminate|].
  apply (recovered_parts_not_queried (H := reference_sort) sample_disk "./data" sample_config
           "key1" "key3").
  discriminate.
Defined.

(** ** [optimize] after a restart *)

Lemma score_totals_no_rows (disk : Disk.t) (parts : list Part.t) (part_indices : list Z)
    (acc : Z * Z * Z * Z) (total_rows total_size min_size max_size : Z) :
  Forall (fun p => PartMetadata.row_count (Part.metadata p) = 0) parts ->
  fst (fst (fst acc)) = 0 ->
  Merger.score_totals disk parts part_indices acc
  = Some (total_rows, total_size, min_size, max_size) ->
  total_rows = 0.
Proof.
  intros Hparts. revert acc. induction part_indices as [|idx rest IH]; intros acc Hacc.
  - simpl. intros [= Heq]. subst acc. exact Hacc.
  - cbn [Merger.score_totals]. destruct (Merger.vector_size parts <=? idx); [discriminate|].
    destruct (parts !! Z.to_nat idx) as [part|] eqn:Hpart; [|discriminate].
    destruct acc as [[[tr ts] mn] mx]. simpl in Hacc. subst tr.
    apply IH. simpl. rewrite List.Forall_forall in Hparts. rewrite (Hparts part); [reflexivity|].
    apply list_elem_of_In. eapply list_elem_of_lookup_2. exact Hpart.
Qed.

Lemma score_zero_without_rows (disk : Disk.t) (parts : list Part.t) (part_indices : list Z) :
  Forall (fun p => PartMetadata.row_count (Part.metadata p) = 0) parts ->
  Merger.calculate_merge_score disk part_indices parts = Double.zero.
Proof.
  intros Hparts. unfold Merger.calculate_merge_score.
  destruct part_indices as [|idx rest]; [reflexivity|].
  destruct (Merger.score_totals disk parts (idx :: rest) (0, 0, SizeT.SIZE_MAX, 0))
    as [[[[tr ts] mn] mx]|] eqn:Htotals; [|reflexivity].
  rewrite (score_totals_no_rows disk parts (idx :: rest) (0, 0, SizeT.SIZE_MAX, 0) tr ts mn mx
             Hparts eq_refl Htotals). reflexivity.
Qed.

Lemma no_candidate_without_rows `{StdSort} (disk : Disk.t) (parts : list Part.t)
    (max_candidates : Z) :
  Forall (fun p => PartMetadata.row_count (Part.metadata p) = 0) parts ->
  Merger.select_merge_candidates disk parts max_candidates = defined [].
Proof.
  intros Hparts. rewrite select_merge_candidates_collect.
  destruct (Merger.reaches_loops parts) eqn:Hreach; [|reflexivity].
  destruct (collected disk parts max_candidates) as [|c cs] eqn:Hfound;
    [now rewrite std_sort_nil|].
  exfalso.
  destruct (collected_sound disk parts max_candidates c Hreach) as [Hpos Hshape];
    [rewrite Hfound; now left|].
  assert (Hzero : MergeCandidate.score c = Double.zero).
  { destruct Hshape as [(i & j & _ & _ & _ & ->)|(i & _ & _ & _ & ->)];
      now apply score_zero_without_rows. }
  rewrite Hzero in Hpos. vm_compute in Hpos. discriminate Hpos.
Qed.

(** [MergeTree::optimize] on an engine just constructed over a base
    directory that holds more parts than [max_parts]: the parts are not
    loaded, their row count reads 0, every merge candidate scores 0.0 and
    [perform_merge] returns without merging, so [should_trigger_merge] stays
    true: however many iterations are allowed, the loop is still running. *)
Theorem optimize_stuck_after_restart `{StdSort} `{StdPriorityQueue} (disk : Disk.t)
    (base_path : string) (config : MergeTreeConfig.t) (fuel : nat) (clock : nat -> Z) :
  MergeTree.should_trigger_merge (MergeTree.new disk base_path config) = true ->
  MergeTree.optimize fuel clock disk (MergeTree.new disk base_path config)
  = defined (inr None)
  /\ forall now,
       MergeTree.perform_merge now disk (MergeTree.new disk base_path config)
       = defined (inr (disk, MergeTree.new disk base_path config)).
Proof.
  intros Hdue.
  destruct (new_state disk base_path config) as (Hmem & _ & part_ids & Hparts).
  assert (Hsame : forall now,
             MergeTree.perform_merge now disk (MergeTree.new disk base_path config)
             = defined (inr (disk, MergeTree.new disk base_path config))).
  { intros now. apply perform_merge_no_candidate. apply no_candidate_without_rows.
    rewrite Hparts. apply List.Forall_forall. intros p Hp.
    apply in_map_iff in Hp as (id & <- & _). reflexivity. }
  split; [|exact Hsame].
  unfold MergeTree.optimize, MergeTree.flush_memtable. rewrite Hmem.
  cbn [MemTable.empty MemTable.size_ MemTable.new Z.eqb ret].
  apply merge_while_stuck. split; [exact Hdue|exact Hsame].
Qed.

Lemma optimize_stuck_after_restart_witness :
  MergeTree.optimize (H := reference_sort) (H0 := reference_priority_queue) 1000
    (fun _ => 1700000100) merge_disk
    (MergeTree.new (H := reference_sort) merge_disk "./data" (MergeTreeConfig.mk 2 1 30 false))
  = defined (inr None).
Proof.
  apply (optimize_stuck_after_restart (H := reference_sort) (H0 := reference_priority_queue)
           merge_disk "./data" (MergeTreeConfig.mk 2 1 30 false) 1000 (fun _ => 1700000100)).
  vm_compute. reflexivity.
Defined.

(** *** An engine with two parts and a row in the memtable *)

Definition compaction_config : MergeTreeConfig.t := MergeTreeConfig.mk 2 1 30 false.

Definition compaction_rows : RowVector :=
  [mkRow "a" "1" 1; mkRow "b" "2" 2; mkRow "c" "3" 3; mkRow "d" "4" 4; mkRow "e" "5" 5].

Definition compaction_state : Disk.t * MergeTree.t :=
  Eval vm_compute in
    let engine := MergeTree.new (H := reference_sort) ∅ "./data" compaction_config in
    match insert_rows (H := reference_sort) 1700000000 ∅ engine compaction_rows with
    | inr state => state
    | inl _ => (∅, engine)
    end.

Definition compaction_disk : Disk.t := fst compaction_state.
Definition compaction_engine : MergeTree.t := snd compaction_state.

Lemma compaction_state_inserted :
  insert_rows (H := reference_sort) 1700000000 ∅
    (MergeTree.new (H := reference_sort) ∅ "./data" compaction_config) compaction_rows
  = inr (compaction_disk, compaction_engine).
Proof. vm_compute. reflexivity. Qed.

Lemma compaction_engine_wf : engine_wf compaction_engine /\ only_directories compaction_disk.
Proof.
  destruct (inserted_state (H := reference_sort) 1700000000 "./data" compaction_config
              compaction_rows) as (disk' & engine' & Hi & Hwf & Hdisk & _).
  rewrite compaction_state_inserted in Hi. injection Hi as <- <-. auto.
Qed.

Definition compacted_state : Disk.t * MergeTree.t :=
  Eval vm_compute in
    match MergeTree.perform_merge (H := reference_sort) (H0 := reference_priority_queue)
            1700000100 compaction_disk compaction_engine with
    | defined (inr state) => state
    | _ => compaction_state
    end.

Lemma compacted_state_merged :
  MergeTree.perform_merge (H := reference_sort) (H0 := reference_priority_queue)
    1700000100 compaction_disk compaction_engine
  = defined (inr (fst compacted_state, snd compacted_state)).
Proof. vm_compute. reflexivity. Qed.

Example compacted_state_parts :
  map (fun p => PartMetadata.part_id (Part.metadata p)) (MergeTree.parts_ compaction_engine)
  = [1; 2]
  /\ map (fun p => PartMetadata.part_id (Part.metadata p))
       (MergeTree.parts_ (snd compacted_state)) = [3]
  /\ Merger.get_next_part_id (MergeTree.merger_ (snd compacted_state)) = 3.
Proof. repeat split; vm_compute; reflexivity. Qed.

Lemma perform_merge_keeps_rows_witness :
  exists disk' engine',
    MergeTree.perform_merge (H := reference_sort) (H0 := reference_priority_queue)
      1700000100 compaction_disk compaction_engine = defined (inr (disk', engine'))
    /\ engine_wf engine'
    /\ MergeTree.merger_ engine' = MergeTree.merger_ compaction_engine.
Proof.
  destruct (perform_merge_keeps_rows (H := reference_sort) (H0 := reference_priority_queue)
              1700000100 compaction_disk compaction_engine
              (proj1 compaction_engine_wf) (proj2 compaction_engine_wf))
    as (disk' & engine' & Hp & Hwf & _ & Hmerger & _).
  exists disk', engine'. auto.
Defined.

Lemma perform_merge_keeps_query_results_witness :
  exists result result',
    MergeTree.query (H := reference_sort) compaction_disk compaction_engine "a" "z"
    = inr (result, compaction_engine)
    /\ MergeTree.query (H := reference_sort) (fst compacted_state) (snd compacted_state) "a" "z"
       = inr (result', snd compacted_state)
    /\ map key_and_timestamp result = map key_and_timestamp result'.
Proof.
  destruct (perform_merge_keeps_query_results (H := reference_sort)
              (H0 := reference_priority_queue) 1700000100 compaction_disk (fst compacted_state)
              compaction_engine (snd compacted_state) "a" "z"
              (proj1 compaction_engine_wf) (proj2 compaction_engine_wf) compacted_state_merged)
    as (result & result' & Hq & Hq' & Hsame & _).
  exists result, result'. auto.
Defined.

Lemma merged_part_id_taken_by_next_flush_witness :
  exists disk2 engine2 others merged flushed,
    MergeTree.flush_memtable (H := reference_sort) 1700000200 (fst compacted_state)
      (snd compacted_state) = inr (disk2, engine2)
    /\ MergeTree.parts_ engine2 = others ++ [merged; flushed]
    /\ Part.dir_name flushed = Part.dir_name merged.
Proof.
  destruct (merged_part_id_taken_by_next_flush (H := reference_sort)
              (H0 := reference_priority_queue) 1700000100 1700000200
              compaction_disk (fst compacted_state) compaction_engine (snd compacted_state)
              (proj1 compaction_engine_wf) (proj2 compaction_engine_wf) compacted_state_merged)
    as (disk2 & engine2 & others & merged & flushed & Hf & _ & Hparts & _ & Hdir & _).
  - vm_compute. reflexivity.
  - vm_compute. discriminate.
  - exists disk2, engine2, others, merged, flushed. auto.
Defined.

Definition returns_a_state {A B : Type} (outcome : checked (Exc (option (A * B)))) : bool :=
  match outcome with
  | defined (inr (Some _)) => true
  | _ => false
  end.

Lemma optimize_outcome_witness :
  exists disk' engine',
    MergeTree.optimize (H := reference_sort) (H0 := reference_priority_queue) 5
      (fun _ => 1700000100) compaction_disk compaction_engine
    = defined (inr (Some (disk', engine')))
    /\ engine_wf engine'
    /\ MergeTree.part_count engine' <= 1.
Proof.
  destruct (optimize_outcome (H := reference_sort) (H0 := reference_priority_queue)
              (fun _ => 1700000100) compaction_disk compaction_engine
              (proj1 compaction_engine_wf) (proj2 compaction_engine_wf))
    as (disk1 & engine1 & merges & disk' & engine' & _ & _ & Hmerges & Hwf & _ & _ & _
        & [[Hcount Hreturns]|[_ Hnever]]).
  - exists disk', engine'. split; [|split; [exact Hwf|exact Hcount]].
    apply Hreturns. change (length (MergeTree.parts_ compaction_engine)) with 2%nat in Hmerges.
    lia.
  - exfalso.
    assert (Hruns : returns_a_state
                      (MergeTree.optimize (H := reference_sort)
                         (H0 := reference_priority_queue) 5 (fun _ => 1700000100)
                         compaction_disk compaction_engine) = true)
      by (vm_compute; reflexivity).
    rewrite (Hnever 5%nat) in Hruns. discriminate Hruns.
Defined.

(** *** An engine with a part recovered at construction and a part flushed
    since *)

Definition restarted_state : Disk.t * MergeTree.t :=
  Eval vm_compute in
    let engine := MergeTree.new (H := reference_sort) sample_disk "./data" sample_config in
    match insert_rows (H := reference_sort) 1700000050 sample_disk engine
            [mkRow "key5" "v5" 5000; mkRow "key6" "v6" 6000] with
    | inr state => state
    | inl _ => (sample_disk, engine)
    end.

Definition restarted_merge : Disk.t * MergeTree.t :=
  Eval vm_compute in
    match MergeTree.perform_merge (H := reference_sort) (H0 := reference_priority_queue)
            1700000100 (fst restarted_state) (snd restarted_state) with
    | defined (inr state) => state
    | _ => restarted_state
    end.

Definition queried_keys (outcome : Exc (RowVector * MergeTree.t)) : list string :=
  match outcome with
  | inr (result, _) => map key result
  | inl _ => []
  end.

(** The part recovered at construction is not loaded and [query] passes it
    over; [perform_merge] loads it to merge it, and the rows it holds are
    returned from then on. *)
Example perform_merge_loads_recovered_part :
  map (fun p => (PartMetadata.part_id (Part.metadata p), Part.is_loaded p))
      (MergeTree.parts_ (snd restarted_state)) = [(1, false); (2, true)]
  /\ MergeTree.perform_merge (H := reference_sort) (H0 := reference_priority_queue)
       1700000100 (fst restarted_state) (snd restarted_state)
     = defined (inr restarted_merge)
  /\ queried_keys (MergeTree.query (H := reference_sort) (fst restarted_state)
                     (snd restarted_state) "key1" "key9")
     = ["key5"; "key6"]
  /\ queried_keys (MergeTree.query (H := reference_sort) (fst restarted_merge)
                     (snd restarted_merge) "key1" "key9")
     = ["key1"; "key2"; "key5"; "key6"].
Proof. repeat split; vm_compute; reflexivity. Qed.

(** ** [SparseIndex::merge_with] *)

Lemma by_min_key_as_rows (a b : IndexEntry.t) :
  SparseIndex.by_min_key a b
  = row_lt (mkRow (IndexEntry.min_key a) "" (IndexEntry.granule_index a))
      (mkRow (IndexEntry.min_key b) "" (IndexEntry.granule_index b)).
Proof. reflexivity. Qed.

Lemma by_min_key_strict_weak_order (l : list IndexEntry.t) :
  strict_weak_order_on SparseIndex.by_min_key l.
Proof.
  destruct (row_lt_strict_weak_order []) as (Hirr & Htrans & Hequiv).
  pose proof (row_lt_strict_weak_order
                (map (fun e => mkRow (IndexEntry.min_key e) "" (IndexEntry.granule_index e)) l))
    as (Hi & Ht & He).
  split; [|split].
  - intros x Hx. rewrite by_min_key_as_rows. apply Hi.
    apply in_map_iff. now exists x.
  - intros x y z Hx Hy Hz. rewrite !by_min_key_as_rows.
    apply Ht; apply in_map_iff; eauto.
  - intros x y z Hx Hy Hz. rewrite !by_min_key_as_rows.
    apply He; apply in_map_iff; eauto.
Qed.

(** The entry [merge_with] appends for an entry of the other index. *)
Definition moved (granule_offset : Z) (entry : IndexEntry.t) : IndexEntry.t :=
  IndexEntry.mk (IndexEntry.min_key entry) (IndexEntry.max_key entry)
    (SizeT.add (IndexEntry.granule_index entry) granule_offset)
    (IndexEntry.row_count entry).

Lemma merge_with_appends (granule_offset : Z) (other entries : list IndexEntry.t) :
  fold_left
    (fun entries entry =>
       entries ++ [IndexEntry.mk (IndexEntry.min_key entry) (IndexEntry.max_key entry)
                     (SizeT.add (IndexEntry.granule_index entry) granule_offset)
                     (IndexEntry.row_count entry)])
    other entries
  = entries ++ map (moved granule_offset) other.
Proof.
  revert entries. induction other as [|e other IH]; intros entries; cbn [fold_left map].
  - now rewrite app_nil_r.
  - rewrite IH, <- app_assoc. reflexivity.
Qed.

Lemma filter_permutation {A} (f : A -> bool) (l l' : list A) :
  Permutation l l' -> Permutation (List.filter f l) (List.filter f l').
Proof.
  induction 1 as [|x l l' _ IH|x y l|l l' l'' _ IH _ IH']; cbn [List.filter].
  - constructor.
  - destruct (f x); [now constructor|exact IH].
  - destruct (f x), (f y); try reflexivity. apply perm_swap.
  - now rewrite IH.
Qed.

Lemma find_granules_moved (granule_offset : Z) (start_key end_key : string)
    (entries : list IndexEntry.t) :
  map IndexEntry.granule_index
    (List.filter (fun e => IndexEntry.overlaps_range e start_key end_key)
       (map (moved granule_offset) entries))
  = map (fun g => SizeT.add g granule_offset)
      (map IndexEntry.granule_index
         (List.filter (fun e => IndexEntry.overlaps_range e start_key end_key) entries)).
Proof.
  induction entries as [|e entries IH]; [reflexivity|]. cbn [map List.filter].
  change (IndexEntry.overlaps_range (moved granule_offset e) start_key end_key)
    with (IndexEntry.overlaps_range e start_key end_key).
  destruct (IndexEntry.overlaps_range e start_key end_key); cbn [map]; now rewrite IH.
Qed.

(** [SparseIndex::merge_with] keeps every entry of both indexes, those of
    the other index with their granule index moved by [granule_offset] on
    [size_t], and leaves the entries ordered by [min_key], then granule
    index.  [find_granules] on the merged index returns the granules either
    index returned for the range, those of the other index moved, each as
    often as before; their order is that of the merged entries, not that of
    the granule indexes. *)
Theorem merge_with_keeps_entries `{StdSort} (idx other : SparseIndex.t) (granule_offset : Z)
    (start_key end_key : string) :
  let merged := SparseIndex.merge_with idx other granule_offset in
  Permutation
    (SparseIndex.entries idx ++ map (moved granule_offset) (SparseIndex.entries other))
    (SparseIndex.entries merged)
  /\ sorted_by SparseIndex.by_min_key (SparseIndex.entries merged)
  /\ SparseIndex.size merged = SparseIndex.size idx + SparseIndex.size other
  /\ Permutation
       (SparseIndex.find_granules merged start_key end_key)
       (SparseIndex.find_granules idx start_key end_key
        ++ map (fun g => SizeT.add g granule_offset)
             (SparseIndex.find_granules other start_key end_key)).
Proof.
  intros merged.
  assert (Hentries : SparseIndex.entries merged
                     = std_sort SparseIndex.by_min_key
                         (SparseIndex.entries idx
                          ++ map (moved granule_offset) (SparseIndex.entries other))).
  { unfold merged, SparseIndex.merge_with, SparseIndex.sort_entries.
    cbn [SparseIndex.entries SparseIndex.entries_]. now rewrite merge_with_appends. }
  assert (Hperm : Permutation
                    (SparseIndex.entries idx
                     ++ map (moved granule_offset) (SparseIndex.entries other))
                    (SparseIndex.entries merged)).
  { rewrite Hentries. apply std_sort_permutation, by_min_key_strict_weak_order. }
  split; [exact Hperm|]. split; [|split].
  - rewrite Hentries. apply std_sort_sorted, by_min_key_strict_weak_order.
  - unfold SparseIndex.size. fold (SparseIndex.entries merged).
    rewrite <- (Permutation_length Hperm), length_app, length_map.
    unfold SparseIndex.entries. lia.
  - rewrite !find_granules_filter. fold (SparseIndex.entries merged).
    rewrite <- (filter_permutation _ _ _ Hperm).
    rewrite List.filter_app, map_app. apply Permutation_app_head.
    now rewrite find_granules_moved.
Qed.

Example merge_with_order :
  SparseIndex.find_granules
    (SparseIndex.merge_with (H := reference_sort)
       (SparseIndex.mk [IndexEntry.mk "k" "p" 0 2])
       (SparseIndex.mk [IndexEntry.mk "a" "m" 0 3]) 1) "l" "l"
  = [1; 0].
Proof. vm_compute. reflexivity. Qed.

(** * serialization.cpp on bytes

    The parts above keep the rows of a granule as the content of its three
    column files.  This section models the files as [char] sequences and the
    readers and writers of [serialization.cpp] on them, and shows that what
    the writers write the readers read back. *)

(** What the host decides: the object representation of a [uint64_t]
    ([write_uint64] writes it, [read_uint64] reads it back, through
    [reinterpret_cast]), and whether an allocation of [n] elements succeeds
    (otherwise [std::length_error] or [std::bad_alloc] is thrown). *)
Inductive element : Type := char_array | string_vector | uint64_vector | row_vector.

Class Host : Type := {
  object_representation : Z -> list ascii;
  value_representation : list ascii -> Z;
  allocates : element -> Z -> bool;
  object_representation_length : forall v, length (object_representation v) = 8%nat;
  value_of_object_representation : forall v,
    0 <= v < SizeT.modulus -> value_representation (object_representation v) = v;
  allocates_size_t : forall kind n, allocates kind n = true -> 0 <= n < SizeT.modulus
}.

Module Streams.

(** [std::ofstream] opened with [std::ios::binary]: the characters written
    so far. *)
Definition ofstream : Type := list ascii.

(** [std::ifstream]: the characters not read yet and [failbit]. *)
Record ifstream : Type := mk_ifstream {
  unread : list ascii;
  fail : bool
}.

(** A directory tree as far as the readers and writers see it: the content
    of the files that exist, and whether a path can be opened for writing. *)
Record filesystem : Type := mk_filesystem {
  files : gmap string (list ascii);
  opens_for_writing : string -> bool
}.

(** How a reader ends: it returns, it throws, an allocation throws, or it
    returns a [uint64_t] that [read] did not fill, which is undefined
    behaviour. *)
Inductive outcome (A : Type) : Type :=
  | returned (a : A)
  | thrown (e : exception)
  | allocation_throws (kind : element) (n : Z)
  | indeterminate.
Arguments returned {A} a.
Arguments thrown {A} e.
Arguments allocation_throws {A} kind n.
Arguments indeterminate {A}.

Definition outcome_bind {A B} (m : outcome A) (k : A -> outcome B) : outcome B :=
  match m with
  | returned a => k a
  | thrown e => thrown e
  | allocation_throws kind n => allocation_throws kind n
  | indeterminate => indeterminate
  end.

Notation "'read' x <- m ; k" := (outcome_bind m (fun x => k))
  (at level 10, x pattern, m at level 100, k at level 200).

Definition of_Exc {A} (m : Exc A) : outcome A :=
  match m with
  | inl e => thrown e
  | inr a => returned a
  end.

(** [std::istream::read(s, n)]: the characters stored and the stream
    afterwards.  A stream that has failed stores nothing; when fewer than
    [n] characters are left they are stored and [failbit] is set. *)
Definition istream_read (ifs : ifstream) (n : Z) : list ascii * ifstream :=
  if fail ifs then ([], ifs)
  else if n <=? Z.of_nat (length (unread ifs)) then
    (take (Z.to_nat n) (unread ifs), mk_ifstream (drop (Z.to_nat n) (unread ifs)) false)
  else (unread ifs, mk_ifstream [] true).

Section OnHost.
Context `{Host}.

(** [Serialization::write_uint64] *)
Definition write_uint64 (ofs : ofstream) (value : Z) : ofstream :=
  ofs ++ object_representation value.

(** [Serialization::read_uint64] *)
Definition read_uint64 (ifs : ifstream) : outcome (Z * ifstream) :=
  let '(stored, ifs) := istream_read ifs 8 in
  if (length stored =? 8)%nat then returned (value_representation stored, ifs)
  else indeterminate.

(** [Serialization::write_string] *)
Definition write_string (ofs : ofstream) (str : string) : ofstream :=
  let length := Z.of_nat (String.length str) in
  write_uint64 ofs length ++ list_ascii_of_string str.

(** [Serialization::read_string]: the string is made of [length] null
    characters, over which [read] stores what it gets. *)
Definition read_string (ifs : ifstream) : outcome (string * ifstream) :=
  read (length, ifs) <- read_uint64 ifs;
  if negb (allocates char_array length) then allocation_throws char_array length
  else
    let '(stored, ifs) := istream_read ifs length in
    returned (string_of_list_ascii
                (stored ++ drop (List.length stored) (repeat zero (Z.to_nat length))), ifs).

Definition open_for_writing (fs : filesystem) (file_path : string) : Exc ofstream :=
  if negb (opens_for_writing fs file_path)
  then throw ("Cannot open file for writing: " +:+ file_path)
  else ret [].

Definition close (fs : filesystem) (file_path : string) (ofs : ofstream) : filesystem :=
  mk_filesystem (<[file_path := ofs]> (files fs)) (opens_for_writing fs).

Definition open_for_reading (fs : filesystem) (file_path : string) : outcome ifstream :=
  match files fs !! file_path with
  | None => thrown (runtime_error ("Cannot open file for reading: " +:+ file_path))
  | Some content => returned (mk_ifstream content false)
  end.

(** [Serialization::write_string_vector] *)
Definition write_string_vector (fs : filesystem) (file_path : string)
    (strings : list string) : Exc filesystem :=
  do ofs <- open_for_writing fs file_path;
  let ofs := write_uint64 ofs (Z.of_nat (length strings)) in
  ret (close fs file_path (fold_left write_string strings ofs)).

(** The loop of [read_string_vector]. *)
Fixpoint read_strings (count : nat) (ifs : ifstream) (strings : list string)
    : outcome (list string) :=
  match count with
  | O => returned strings
  | S count =>
      read (str, ifs) <- read_string ifs;
      read_strings count ifs (strings ++ [str])
  end.

(** [Serialization::read_string_vector] *)
Definition read_string_vector (fs : filesystem) (file_path : string)
    : outcome (list string) :=
  read ifs <- open_for_reading fs file_path;
  read (count, ifs) <- read_uint64 ifs;
  if negb (allocates string_vector count) then allocation_throws string_vector count
  else read_strings (Z.to_nat count) ifs [].

(** [Serialization::write_uint64_vector] *)
Definition write_uint64_vector (fs : filesystem) (file_path : string)
    (values : list Z) : Exc filesystem :=
  do ofs <- open_for_writing fs file_path;
  let ofs := write_uint64 ofs (Z.of_nat (length values)) in
  ret (close fs file_path (fold_left write_uint64 values ofs)).

(** The loop of [read_uint64_vector]. *)
Fixpoint read_uint64s (count : nat) (ifs : ifstream) (values : list Z)
    : outcome (list Z) :=
  match count with
  | O => returned values
  | S count =>
      read (value, ifs) <- read_uint64 ifs;
      read_uint64s count ifs (values ++ [value])
  end.

(** [Serialization::read_uint64_vector] *)
Definition read_uint64_vector (fs : filesystem) (file_path : string) : outcome (list Z) :=
  read ifs <- open_for_reading fs file_path;
  read (count, ifs) <- read_uint64 ifs;
  if negb (allocates uint64_vector count) then allocation_throws uint64_vector count
  else read_uint64s (Z.to_nat count) ifs [].

(** [Serialization::write_row_vector] *)
Definition write_row_vector (fs : filesystem) (file_path : string) (rows : RowVector)
    : Exc filesystem :=
  do ofs <- open_for_writing fs file_path;
  let ofs := write_uint64 ofs (Z.of_nat (length rows)) in
  ret (close fs file_path
         (fold_left
            (fun ofs row =>
               write_uint64 (write_string (write_string ofs (key row)) (value row))
                 (timestamp row))
            rows ofs)).

(** The loop of [read_row_vector]. *)
Fixpoint read_rows (count : nat) (ifs : ifstream) (rows : RowVector) : outcome RowVector :=
  match count with
  | O => returned rows
  | S count =>
      read (key, ifs) <- read_string ifs;
      read (value, ifs) <- read_string ifs;
      read (timestamp, ifs) <- read_uint64 ifs;
      read_rows count ifs (rows ++ [mkRow key value timestamp])
  end.

(** [Serialization::read_row_vector] *)
Definition read_row_vector (fs : filesystem) (file_path : string) : outcome RowVector :=
  read ifs <- open_for_reading fs file_path;
  read (count, ifs) <- read_uint64 ifs;
  if negb (allocates row_vector count) then allocation_throws row_vector count
  else read_rows (Z.to_nat count) ifs [].

Definition granule_prefix (base_path : string) (granule_index : Z) : string :=
  base_path +:+ "/granule_" +:+ to_string granule_index.

(** [Serialization::write_granule] *)
Definition write_granule (fs : filesystem) (base_path : string) (granule : Granule.t)
    (granule_index : Z) : Exc filesystem :=
  let rows := Granule.rows granule in
  let keys := map key rows in
  let values := map value rows in
  let timestamps := map timestamp rows in
  let granule_prefix := granule_prefix base_path granule_index in
  do fs <- write_string_vector fs (granule_prefix +:+ "_keys.bin") keys;
  do fs <- write_string_vector fs (granule_prefix +:+ "_values.bin") values;
  write_uint64_vector fs (granule_prefix +:+ "_timestamps.bin") timestamps.

(** The rows [read_granule] builds from the three columns, which have one
    size when the loop is reached. *)
Fixpoint zip_rows (keys values : list string) (timestamps : list Z) : RowVector :=
  match keys, values, timestamps with
  | key :: keys, value :: values, timestamp :: timestamps =>
      mkRow key value timestamp :: zip_rows keys values timestamps
  | _, _, _ => []
  end.

(** [Serialization::read_granule] *)
Definition read_granule `{StdSort} (fs : filesystem) (base_path : string)
    (granule_index : Z) : outcome Granule.t :=
  let granule_prefix := granule_prefix base_path granule_index in
  read keys <- read_string_vector fs (granule_prefix +:+ "_keys.bin");
  read values <- read_string_vector fs (granule_prefix +:+ "_values.bin");
  read timestamps <- read_uint64_vector fs (granule_prefix +:+ "_timestamps.bin");
  if negb (length keys =? length values)%nat || negb (length keys =? length timestamps)%nat
  then thrown (runtime_error "Inconsistent granule data sizes")
  else
    read granule <- of_Exc (Serialization.add_rows Granule.new
                              (zip_rows keys values timestamps));
    returned (Granule.sort granule).

End OnHost.
End Streams.

(** A host that stores a [uint64_t] with the least significant byte first
    and allocates below 2^32 elements. *)
Fixpoint little_endian (bytes : nat) (v : Z) : list ascii :=
  match bytes with
  | O => []
  | S bytes => ascii_of_N (Z.to_N (v mod 256)) :: little_endian bytes (v / 256)
  end.

Fixpoint little_endian_value (l : list ascii) : Z :=
  match l with
  | [] => 0
  | c :: l => Z.of_N (N_of_ascii c) + 256 * little_endian_value l
  end.

Lemma little_endian_length (bytes : nat) (v : Z) : length (little_endian bytes v) = bytes.
Proof. revert v. induction bytes as [|bytes IH]; intros v; simpl; [reflexivity|now rewrite IH]. Qed.

Lemma little_endian_round_trip (bytes : nat) (v : Z) :
  0 <= v < 256 ^ Z.of_nat bytes -> little_endian_value (little_endian bytes v) = v.
Proof.
  revert v. induction bytes as [|bytes IH]; intros v Hv.
  - simpl in *. lia.
  - cbn [little_endian little_endian_value].
    rewrite N_ascii_embedding.
    + rewrite IH.
      * rewrite Z2N.id by (apply Z.mod_pos_bound; lia).
        pose proof (Z.div_mod v 256). lia.
      * rewrite Nat2Z.inj_succ, Z.pow_succ_r in Hv by lia.
        split; [apply Z.div_pos; lia|apply Z.div_lt_upper_bound; lia].
    + pose proof (Z.mod_pos_bound v 256). lia.
Qed.

#[export, refine] Instance little_endian_host : Host := {
  object_representation := little_endian 8;
  value_representation := little_endian_value;
  allocates := fun _ n => (0 <=? n) && (n <? 2 ^ 32)
}.
Proof.
  - intros v. apply little_endian_length.
  - intros v Hv. apply little_endian_round_trip. exact Hv.
  - intros _ n Hn. unfold SizeT.modulus. lia.
Defined.

(** ** What is written is read back *)

Section StreamFacts.
Context `{Host}.

Lemma istream_read_available (l rest : list ascii) :
  Streams.istream_read (Streams.mk_ifstream (l ++ rest) false) (Z.of_nat (length l))
  = (l, Streams.mk_ifstream rest false).
Proof.
  unfold Streams.istream_read. cbn [Streams.fail Streams.unread].
  rewrite length_app, Nat2Z.id, take_app_length, drop_app_length.
  destruct (Z.leb_spec (Z.of_nat (length l)) (Z.of_nat (length l + length rest)));
    [reflexivity|lia].
Qed.

Lemma istream_read_short (l : list ascii) (n : Z) :
  Z.of_nat (length l) < n ->
  Streams.istream_read (Streams.mk_ifstream l false) n = (l, Streams.mk_ifstream [] true).
Proof.
  intros Hn. unfold Streams.istream_read. cbn [Streams.fail Streams.unread].
  destruct (Z.leb_spec n (Z.of_nat (length l))); [lia|reflexivity].
Qed.

Lemma read_uint64_written (v : Z) (rest : list ascii) :
  0 <= v < SizeT.modulus ->
  Streams.read_uint64 (Streams.mk_ifstream (object_representation v ++ rest) false)
  = Streams.returned (v, Streams.mk_ifstream rest false).
Proof.
  intros Hv. unfold Streams.read_uint64.
  pose proof (istream_read_available (object_representation v) rest) as Hread.
  rewrite object_representation_length in Hread. change (Z.of_nat 8) with 8 in Hread.
  rewrite Hread, object_representation_length, Nat.eqb_refl.
  now rewrite value_of_object_representation.
Qed.

Lemma read_uint64_short (l : list ascii) :
  (length l < 8)%nat ->
  Streams.read_uint64 (Streams.mk_ifstream l false) = Streams.indeterminate.
Proof.
  intros Hl. unfold Streams.read_uint64. rewrite istream_read_short by lia.
  destruct (Nat.eqb_spec (length l) 8); [lia|reflexivity].
Qed.

Lemma list_ascii_of_string_length (s : string) :
  length (list_ascii_of_string s) = String.length s.
Proof. induction s as [|c s IH]; simpl; [reflexivity|now rewrite IH]. Qed.

(** The characters [write_string] and the loops of the vector writers
    append. *)
Definition string_chars (str : string) : list ascii :=
  object_representation (Z.of_nat (String.length str)) ++ list_ascii_of_string str.

Definition row_chars (row : Row) : list ascii :=
  string_chars (key row) ++ string_chars (value row) ++ object_representation (timestamp row).

Lemma write_string_chars (ofs : Streams.ofstream) (str : string) :
  Streams.write_string ofs str = ofs ++ string_chars str.
Proof. unfold Streams.write_string, Streams.write_uint64, string_chars. now rewrite app_assoc. Qed.

Lemma write_strings_chars (strings : list string) (ofs : Streams.ofstream) :
  fold_left Streams.write_string strings ofs = ofs ++ concat (map string_chars strings).
Proof.
  revert ofs. induction strings as [|s strings IH]; intros ofs; simpl.
  - now rewrite app_nil_r.
  - now rewrite IH, write_string_chars, app_assoc.
Qed.

Lemma write_uint64s_chars (values : list Z) (ofs : Streams.ofstream) :
  fold_left Streams.write_uint64 values ofs
  = ofs ++ concat (map object_representation values).
Proof.
  revert ofs. induction values as [|v values IH]; intros ofs; simpl.
  - now rewrite app_nil_r.
  - rewrite IH. unfold Streams.write_uint64. now rewrite app_assoc.
Qed.

Lemma write_rows_chars (rows : RowVector) (ofs : Streams.ofstream) :
  fold_left
    (fun ofs row =>
       Streams.write_uint64
         (Streams.write_string (Streams.write_string ofs (key row)) (value row))
         (timestamp row))
    rows ofs
  = ofs ++ concat (map row_chars rows).
Proof.
  revert ofs. induction rows as [|r rows IH]; intros ofs; cbn [fold_left map concat].
  - now rewrite app_nil_r.
  - rewrite IH, !write_string_chars. unfold Streams.write_uint64, row_chars.
    now rewrite <- !app_assoc.
Qed.

(** A string some program holds: its size is one [std::string] allocates. *)
Definition representable (str : string) : Prop :=
  allocates char_array (Z.of_nat (String.length str)) = true.

Lemma read_string_written (str : string) (rest : list ascii) :
  representable str ->
  Streams.read_string (Streams.mk_ifstream (string_chars str ++ rest) false)
  = Streams.returned (str, Streams.mk_ifstream rest false).
Proof.
  intros Hstr. unfold Streams.read_string, string_chars. rewrite <- app_assoc.
  rewrite read_uint64_written by (eapply allocates_size_t; exact Hstr).
  cbn [Streams.outcome_bind]. unfold representable in Hstr. rewrite Hstr. cbn [negb].
  pose proof (istream_read_available (list_ascii_of_string str) rest) as Hread.
  rewrite list_ascii_of_string_length in Hread. rewrite Hread.
  rewrite Nat2Z.id, list_ascii_of_string_length.
  rewrite drop_ge by (rewrite repeat_length; lia).
  now rewrite app_nil_r, string_of_list_ascii_of_string.
Qed.

(** [read_string] on a stream that ends inside the characters of the
    string: what is there is stored over the null characters. *)
Lemma read_string_cut (str : string) (cut : nat) :
  representable str -> (1 <= cut <= String.length str)%nat ->
  Streams.read_string
    (Streams.mk_ifstream
       (object_representation (Z.of_nat (String.length str))
        ++ take (String.length str - cut) (list_ascii_of_string str)) false)
  = Streams.returned
      (string_of_list_ascii
         (take (String.length str - cut) (list_ascii_of_string str) ++ repeat zero cut),
       Streams.mk_ifstream [] true).
Proof.
  intros Hstr Hcut. unfold Streams.read_string.
  rewrite read_uint64_written by (eapply allocates_size_t; exact Hstr).
  cbn [Streams.outcome_bind]. unfold representable in Hstr. rewrite Hstr. cbn [negb].
  assert (Hlen : length (take (String.length str - cut) (list_ascii_of_string str))
                 = (String.length str - cut)%nat).
  { rewrite length_take, list_ascii_of_string_length. lia. }
  rewrite istream_read_short by (rewrite Hlen; lia).
  rewrite Hlen, Nat2Z.id. do 3 f_equal.
  replace (repeat zero (String.length str))
    with (repeat zero (String.length str - cut) ++ repeat zero cut)
    by (rewrite <- repeat_app; f_equal; lia).
  rewrite drop_app_length'; [reflexivity|now rewrite repeat_length].
Qed.

Lemma read_strings_written (strings : list string) (count : nat) (rest : list ascii)
    (read_so_far : list string) :
  Forall representable strings ->
  Streams.read_strings (length strings + count)
    (Streams.mk_ifstream (concat (map string_chars strings) ++ rest) false) read_so_far
  = Streams.read_strings count (Streams.mk_ifstream rest false) (read_so_far ++ strings).
Proof.
  intros Hall. revert read_so_far.
  induction Hall as [|s strings Hs Hall IH]; intros read_so_far.
  - simpl. now rewrite app_nil_r.
  - cbn [length Nat.add map concat Streams.read_strings]. rewrite <- app_assoc.
    rewrite read_string_written by exact Hs. cbn [Streams.outcome_bind].
    rewrite IH, <- app_assoc. reflexivity.
Qed.

Lemma read_uint64s_written (values : list Z) (count : nat) (rest : list ascii)
    (read_so_far : list Z) :
  Forall (fun v => 0 <= v < SizeT.modulus) values ->
  Streams.read_uint64s (length values + count)
    (Streams.mk_ifstream (concat (map object_representation values) ++ rest) false)
    read_so_far
  = Streams.read_uint64s count (Streams.mk_ifstream rest false) (read_so_far ++ values).
Proof.
  intros Hall. revert read_so_far.
  induction Hall as [|v values Hv Hall IH]; intros read_so_far.
  - simpl. now rewrite app_nil_r.
  - cbn [length Nat.add map concat Streams.read_uint64s]. rewrite <- app_assoc.
    rewrite read_uint64_written by exact Hv. cbn [Streams.outcome_bind].
    rewrite IH, <- app_assoc. reflexivity.
Qed.

(** A row some program holds. *)
Definition representable_row (row : Row) : Prop :=
  representable (key row) /\ representable (value row)
  /\ 0 <= timestamp row < SizeT.modulus.

Lemma read_rows_written (rows : RowVector) (count : nat) (rest : list ascii)
    (read_so_far : RowVector) :
  Forall representable_row rows ->
  Streams.read_rows (length rows + count)
    (Streams.mk_ifstream (concat (map row_chars rows) ++ rest) false) read_so_far
  = Streams.read_rows count (Streams.mk_ifstream rest false) (read_so_far ++ rows).
Proof.
  intros Hall. revert read_so_far.
  induction Hall as [|r rows (Hk & Hv & Ht) Hall IH]; intros read_so_far.
  - simpl. now rewrite app_nil_r.
  - cbn [length Nat.add map concat Streams.read_rows]. unfold row_chars at 1.
    rewrite <- !app_assoc.
    rewrite read_string_written by exact Hk. cbn [Streams.outcome_bind].
    rewrite read_string_written by exact Hv. cbn [Streams.outcome_bind].
    rewrite read_uint64_written by exact Ht. cbn [Streams.outcome_bind].
    rewrite IH, <- app_assoc. now destruct r.
Qed.

Lemma string_chars_length (str : string) :
  Z.of_nat (length (string_chars str)) = Serialization.string_bytes str.
Proof.
  unfold string_chars, Serialization.string_bytes.
  rewrite length_app, object_representation_length, list_ascii_of_string_length. lia.
Qed.

Lemma string_vector_bytes_from (strings : list string) (total : Z) :
  fold_left (fun total s => total + Serialization.string_bytes s) strings total
  = total + Z.of_nat (length (concat (map string_chars strings))).
Proof.
  revert total. induction strings as [|s strings IH]; intros total; cbn [fold_left map concat].
  - simpl. lia.
  - rewrite IH, length_app, Nat2Z.inj_add, string_chars_length. lia.
Qed.

Lemma uint64s_chars_length (values : list Z) :
  length (concat (map object_representation values)) = (8 * length values)%nat.
Proof.
  induction values as [|v values IH]; [reflexivity|].
  cbn [map concat length]. rewrite length_app, object_representation_length, IH. lia.
Qed.

(** The file [write_string_vector] leaves. *)
Definition string_vector_file (strings : list string) : list ascii :=
  object_representation (Z.of_nat (length strings)) ++ concat (map string_chars strings).

Definition uint64_vector_file (values : list Z) : list ascii :=
  object_representation (Z.of_nat (length values))
  ++ concat (map object_representation values).

Definition row_vector_file (rows : RowVector) : list ascii :=
  object_representation (Z.of_nat (length rows)) ++ concat (map row_chars rows).

Lemma string_vector_file_length (strings : list string) :
  Z.of_nat (length (string_vector_file strings)) = Serialization.string_vector_bytes strings.
Proof.
  unfold string_vector_file, Serialization.string_vector_bytes.
  rewrite string_vector_bytes_from, length_app, object_representation_length. lia.
Qed.

Lemma uint64_vector_file_length (values : list Z) :
  Z.of_nat (length (uint64_vector_file values)) = Serialization.uint64_vector_bytes values.
Proof.
  unfold uint64_vector_file, Serialization.uint64_vector_bytes.
  rewrite length_app, object_representation_length, uint64s_chars_length. lia.
Qed.

Lemma write_string_vector_file (fs : Streams.filesystem) (file_path : string)
    (strings : list string) :
  Streams.write_string_vector fs file_path strings
  = if Streams.opens_for_writing fs file_path
    then inr (Streams.close fs file_path (string_vector_file strings))
    else throw ("Cannot open file for writing: " +:+ file_path).
Proof.
  unfold Streams.write_string_vector, Streams.open_for_writing.
  destruct (Streams.opens_for_writing fs file_path); [|reflexivity].
  cbn [negb bind ret]. now rewrite write_strings_chars.
Qed.

Lemma write_uint64_vector_file (fs : Streams.filesystem) (file_path : string)
    (values : list Z) :
  Streams.write_uint64_vector fs file_path values
  = if Streams.opens_for_writing fs file_path
    then inr (Streams.close fs file_path (uint64_vector_file values))
    else throw ("Cannot open file for writing: " +:+ file_path).
Proof.
  unfold Streams.write_uint64_vector, Streams.open_for_writing.
  destruct (Streams.opens_for_writing fs file_path); [|reflexivity].
  cbn [negb bind ret]. now rewrite write_uint64s_chars.
Qed.

Lemma read_string_vector_file (fs : Streams.filesystem) (file_path : string)
    (strings : list string) :
  Streams.files fs !! file_path = Some (string_vector_file strings) ->
  allocates string_vector (Z.of_nat (length strings)) = true ->
  Forall representable strings ->
  Streams.read_string_vector fs file_path = Streams.returned strings.
Proof.
  intros Hfile Hcount Hall.
  unfold Streams.read_string_vector, Streams.open_for_reading. rewrite Hfile.
  cbn [Streams.outcome_bind]. unfold string_vector_file.
  rewrite read_uint64_written by (eapply allocates_size_t; exact Hcount).
  cbn [Streams.outcome_bind]. rewrite Hcount. cbn [negb]. rewrite Nat2Z.id.
  pose proof (read_strings_written strings 0 [] [] Hall) as Hread.
  rewrite Nat.add_0_r, app_nil_r in Hread. exact Hread.
Qed.

Lemma read_uint64_vector_file (fs : Streams.filesystem) (file_path : string)
    (values : list Z) :
  Streams.files fs !! file_path = Some (uint64_vector_file values) ->
  allocates uint64_vector (Z.of_nat (length values)) = true ->
  Forall (fun v => 0 <= v < SizeT.modulus) values ->
  Streams.read_uint64_vector fs file_path = Streams.returned values.
Proof.
  intros Hfile Hcount Hall.
  unfold Streams.read_uint64_vector, Streams.open_for_reading. rewrite Hfile.
  cbn [Streams.outcome_bind]. unfold uint64_vector_file.
  rewrite read_uint64_written by (eapply allocates_size_t; exact Hcount).
  cbn [Streams.outcome_bind]. rewrite Hcount. cbn [negb]. rewrite Nat2Z.id.
  pose proof (read_uint64s_written values 0 [] [] Hall) as Hread.
  rewrite Nat.add_0_r, app_nil_r in Hread. exact Hread.
Qed.

(** [write_string_vector] throws when the file does not open; otherwise
    [read_string_vector] on the file it leaves returns the strings written,
    the file has [string_vector_bytes] characters, and no other file has
    changed.  A missing file makes the reader throw. *)
Theorem string_vector_round_trip (fs : Streams.filesystem) (file_path : string)
    (strings : list string) :
  allocates string_vector (Z.of_nat (length strings)) = true ->
  Forall representable strings ->
  (Streams.opens_for_writing fs file_path = false ->
   Streams.write_string_vector fs file_path strings
   = throw ("Cannot open file for writing: " +:+ file_path))
  /\ (Streams.files fs !! file_path = None ->
      Streams.read_string_vector fs file_path
      = Streams.thrown (runtime_error ("Cannot open file for reading: " +:+ file_path)))
  /\ (Streams.opens_for_writing fs file_path = true ->
      exists fs' content,
        Streams.write_string_vector fs file_path strings = inr fs'
        /\ Streams.read_string_vector fs' file_path = Streams.returned strings
        /\ Streams.files fs' !! file_path = Some content
        /\ Z.of_nat (length content) = Serialization.string_vector_bytes strings
        /\ forall other, other <> file_path ->
             Streams.files fs' !! other = Streams.files fs !! other).
Proof.
  intros Hcount Hall. rewrite write_string_vector_file. split; [|split].
  - now intros ->.
  - intros Hnone. unfold Streams.read_string_vector, Streams.open_for_reading.
    now rewrite Hnone.
  - intros ->. eexists _, (string_vector_file strings). split; [reflexivity|].
    assert (Hfile : Streams.files (Streams.close fs file_path (string_vector_file strings))
                    !! file_path = Some (string_vector_file strings))
      by (cbn [Streams.close Streams.files]; apply lookup_insert_eq).
    split; [now apply read_string_vector_file|]. split; [exact Hfile|].
    split; [apply string_vector_file_length|].
    intros other Hother. cbn [Streams.close Streams.files].
    now rewrite lookup_insert_ne.
Qed.

(** [read_row_vector] on the file [write_row_vector] leaves returns the
    rows written, and no other file has changed. *)
Theorem row_vector_round_trip (fs : Streams.filesystem) (file_path : string)
    (rows : RowVector) :
  Streams.opens_for_writing fs file_path = true ->
  allocates row_vector (Z.of_nat (length rows)) = true ->
  Forall representable_row rows ->
  exists fs',
    Streams.write_row_vector fs file_path rows = inr fs'
    /\ Streams.read_row_vector fs' file_path = Streams.returned rows
    /\ Streams.files fs' !! file_path = Some (row_vector_file rows)
    /\ forall other, other <> file_path ->
         Streams.files fs' !! other = Streams.files fs !! other.
Proof.
  intros Hopen Hcount Hall.
  unfold Streams.write_row_vector, Streams.open_for_writing. rewrite Hopen.
  cbn [negb bind ret]. rewrite write_rows_chars. eexists. split; [reflexivity|].
  assert (Hfile : Streams.files
                    (Streams.close fs file_path
                       (Streams.write_uint64 [] (Z.of_nat (length rows))
                        ++ concat (map row_chars rows)))
                  !! file_path = Some (row_vector_file rows))
    by (cbn [Streams.close Streams.files]; apply lookup_insert_eq).
  split; [|split; [exact Hfile|]].
  - unfold Streams.read_row_vector, Streams.open_for_reading. rewrite Hfile.
    cbn [Streams.outcome_bind]. unfold row_vector_file.
    rewrite read_uint64_written by (eapply allocates_size_t; exact Hcount).
    cbn [Streams.outcome_bind]. rewrite Hcount. cbn [negb]. rewrite Nat2Z.id.
    pose proof (read_rows_written rows 0 [] [] Hall) as Hread.
    rewrite Nat.add_0_r, app_nil_r in Hread. exact Hread.
  - intros other Hother. cbn [Streams.close Streams.files].
    now rewrite lookup_insert_ne.
Qed.

Lemma append_inj_r (prefix a b : string) : prefix +:+ a = prefix +:+ b -> a = b.
Proof.
  induction prefix as [|c prefix IH]; simpl; [auto|]. intros [= Heq]. auto.
Qed.

Lemma zip_rows_columns (rows : RowVector) :
  Streams.zip_rows (map key rows) (map value rows) (map timestamp rows) = rows.
Proof.
  induction rows as [|[k v t] rows IH]; [reflexivity|]. cbn [map Streams.zip_rows].
  now rewrite IH.
Qed.

Lemma representable_columns (rows : RowVector) :
  Forall representable_row rows ->
  Forall representable (map key rows) /\ Forall representable (map value rows)
  /\ Forall (fun v => 0 <= v < SizeT.modulus) (map timestamp rows).
Proof.
  induction 1 as [|r rows (Hk & Hv & Ht) _ (IHk & IHv & IHt)]; cbn [map].
  - repeat split; constructor.
  - repeat split; constructor; assumption.
Qed.

(** The three column files [write_granule] leaves hold the keys, the values
    and the timestamps of the granule, in [granule_bytes] characters in all;
    [read_granule] on them does what reading the rows back does: the rows
    are added to a new granule, which is sorted, or [add_row] throws because
    the granule is full. *)
Theorem granule_files_round_trip `{StdSort} (fs : Streams.filesystem) (base_path : string)
    (granule : Granule.t) (granule_index : Z) (dir_name : string) (d : Disk.part_dir) :
  let granule_prefix := Streams.granule_prefix base_path granule_index in
  Streams.opens_for_writing fs (granule_prefix +:+ "_keys.bin") = true ->
  Streams.opens_for_writing fs (granule_prefix +:+ "_values.bin") = true ->
  Streams.opens_for_writing fs (granule_prefix +:+ "_timestamps.bin") = true ->
  allocates string_vector (Z.of_nat (length (Granule.rows granule))) = true ->
  allocates uint64_vector (Z.of_nat (length (Granule.rows granule))) = true ->
  Forall representable_row (Granule.rows granule) ->
  exists fs' keys values timestamps,
    Streams.write_granule fs base_path granule granule_index = inr fs'
    /\ Streams.files fs' !! (granule_prefix +:+ "_keys.bin") = Some keys
    /\ Streams.files fs' !! (granule_prefix +:+ "_values.bin") = Some values
    /\ Streams.files fs' !! (granule_prefix +:+ "_timestamps.bin") = Some timestamps
    /\ Z.of_nat (length keys) + Z.of_nat (length values) + Z.of_nat (length timestamps)
       = Serialization.granule_bytes (Granule.rows granule)
    /\ Streams.read_granule fs' base_path granule_index
       = Streams.of_Exc
           (Serialization.read_granule dir_name
              (Serialization.write_granule d granule granule_index) granule_index)
    /\ Streams.read_granule fs' base_path granule_index
       = Streams.of_Exc
           (do read_back <- Serialization.add_rows Granule.new (Granule.rows granule);
            ret (Granule.sort read_back)).
Proof.
  intros granule_prefix Hkeys Hvalues Htimestamps Hstrings Huint64s Hrows.
  set (rows := Granule.rows granule) in *.
  set (keys_path := granule_prefix +:+ "_keys.bin") in *.
  set (values_path := granule_prefix +:+ "_values.bin") in *.
  set (timestamps_path := granule_prefix +:+ "_timestamps.bin") in *.
  assert (Hkv : keys_path <> values_path)
    by (intros Heq; apply append_inj_r in Heq; discriminate Heq).
  assert (Hkt : keys_path <> timestamps_path)
    by (intros Heq; apply append_inj_r in Heq; discriminate Heq).
  assert (Hvt : values_path <> timestamps_path)
    by (intros Heq; apply append_inj_r in Heq; discriminate Heq).
  set (fs1 := Streams.close fs keys_path (string_vector_file (map key rows))).
  set (fs2 := Streams.close fs1 values_path (string_vector_file (map value rows))).
  set (fs3 := Streams.close fs2 timestamps_path (uint64_vector_file (map timestamp rows))).
  assert (Hwrite : Streams.write_granule fs base_path granule granule_index = inr fs3).
  { unfold Streams.write_granule. fold granule_prefix rows keys_path values_path timestamps_path.
    rewrite write_string_vector_file, Hkeys. cbn [bind]. fold fs1.
    rewrite write_string_vector_file.
    change (Streams.opens_for_writing fs1 values_path)
      with (Streams.opens_for_writing fs values_path).
    rewrite Hvalues. cbn [bind]. fold fs2.
    rewrite write_uint64_vector_file.
    change (Streams.opens_for_writing fs2 timestamps_path)
      with (Streams.opens_for_writing fs timestamps_path).
    now rewrite Htimestamps. }
  assert (Hkfile : Streams.files fs3 !! keys_path = Some (string_vector_file (map key rows))).
  { unfold fs3, fs2, fs1. cbn [Streams.close Streams.files].
    rewrite !lookup_insert_ne by congruence. apply lookup_insert_eq. }
  assert (Hvfile : Streams.files fs3 !! values_path
                   = Some (string_vector_file (map value rows))).
  { unfold fs3, fs2. cbn [Streams.close Streams.files].
    rewrite lookup_insert_ne by congruence. apply lookup_insert_eq. }
  assert (Htfile : Streams.files fs3 !! timestamps_path
                   = Some (uint64_vector_file (map timestamp rows))).
  { unfold fs3. cbn [Streams.close Streams.files]. apply lookup_insert_eq. }
  assert (Hread : Streams.read_granule fs3 base_path granule_index
                  = Streams.of_Exc
                      (do read_back <- Serialization.add_rows Granule.new rows;
                       ret (Granule.sort read_back))).
  { unfold Streams.read_granule.
    fold granule_prefix keys_path values_path timestamps_path.
    rewrite (read_string_vector_file fs3 keys_path (map key rows) Hkfile)
      by (rewrite ?length_map; auto; now apply representable_columns).
    cbn [Streams.outcome_bind].
    rewrite (read_string_vector_file fs3 values_path (map value rows) Hvfile)
      by (rewrite ?length_map; auto; now apply representable_columns).
    cbn [Streams.outcome_bind].
    rewrite (read_uint64_vector_file fs3 timestamps_path (map timestamp rows) Htfile)
      by (rewrite ?length_map; auto; now apply representable_columns).
    cbn [Streams.outcome_bind]. rewrite !length_map, Nat.eqb_refl. cbn [negb orb].
    rewrite zip_rows_columns.
    now destruct (Serialization.add_rows Granule.new rows). }
  exists fs3, (string_vector_file (map key rows)), (string_vector_file (map value rows)),
    (uint64_vector_file (map timestamp rows)).
  split; [exact Hwrite|]. split; [exact Hkfile|]. split; [exact Hvfile|].
  split; [exact Htfile|]. split; [|split; [|exact Hread]].
  - rewrite !string_vector_file_length, uint64_vector_file_length. reflexivity.
  - rewrite Hread. unfold Serialization.read_granule, Serialization.write_granule.
    cbn [Disk.granule_bin]. now rewrite lookup_insert_eq.
Qed.

Lemma read_uint64s_cut (values : list Z) (available : nat) (read_so_far : list Z) :
  Forall (fun v => 0 <= v < SizeT.modulus) values ->
  (available < length (concat (map object_representation values)))%nat ->
  Streams.read_uint64s (length values)
    (Streams.mk_ifstream (take available (concat (map object_representation values))) false)
    read_so_far
  = Streams.indeterminate.
Proof.
  intros Hall. revert available read_so_far.
  induction Hall as [|v values Hv Hall IH]; intros available read_so_far Hcut.
  - simpl in Hcut. lia.
  - cbn [map concat length Streams.read_uint64s] in *.
    rewrite length_app, object_representation_length in Hcut.
    destruct (Nat.lt_ge_cases available 8) as [Hshort|Hlong].
    + rewrite read_uint64_short; [reflexivity|]. rewrite length_take. lia.
    + rewrite take_app_ge by (rewrite object_representation_length; exact Hlong).
      rewrite read_uint64_written by exact Hv. cbn [Streams.outcome_bind].
      apply IH. rewrite object_representation_length. lia.
Qed.

(** A column file that was cut short is not reported by an exception.
    A file of strings that ends inside the characters of its last string is
    read as if the missing characters were null characters; a file of
    [uint64_t] that ends anywhere before its end makes [read_uint64] return
    a value that was never stored. *)
Theorem truncated_file_not_reported (fs : Streams.filesystem) (file_path : string) :
  (forall (strings : list string) (str : string) (cut : nat),
     allocates string_vector (Z.of_nat (length (strings ++ [str]))) = true ->
     Forall representable (strings ++ [str]) ->
     (1 <= cut <= String.length str)%nat ->
     Streams.files fs !! file_path
     = Some (take (length (string_vector_file (strings ++ [str])) - cut)
               (string_vector_file (strings ++ [str]))) ->
     Streams.read_string_vector fs file_path
     = Streams.returned
         (strings
          ++ [string_of_list_ascii
                (take (String.length str - cut) (list_ascii_of_string str)
                 ++ repeat zero cut)]))
  /\ (forall (values : list Z) (cut : nat),
        allocates uint64_vector (Z.of_nat (length values)) = true ->
        Forall (fun v => 0 <= v < SizeT.modulus) values ->
        (1 <= cut <= length (uint64_vector_file values))%nat ->
        Streams.files fs !! file_path
        = Some (take (length (uint64_vector_file values) - cut) (uint64_vector_file values)) ->
        Streams.read_uint64_vector fs file_path = Streams.indeterminate).
Proof.
  split.
  - intros strings str cut Hcount Hall Hcut Hfile.
    apply Forall_app in Hall as [Hall Hstr]. apply Forall_cons in Hstr as [Hstr _].
    unfold Streams.read_string_vector, Streams.open_for_reading. rewrite Hfile.
    cbn [Streams.outcome_bind].
    assert (Hcontent :
      take (length (string_vector_file (strings ++ [str])) - cut)
        (string_vector_file (strings ++ [str]))
      = object_representation (Z.of_nat (length (strings ++ [str])))
        ++ concat (map string_chars strings)
        ++ object_representation (Z.of_nat (String.length str))
        ++ take (String.length str - cut) (list_ascii_of_string str)).
    { unfold string_vector_file. rewrite map_app, concat_app. cbn [map concat].
      rewrite app_nil_r. unfold string_chars at 2 4.
      rewrite !app_assoc.
      set (before := (object_representation (Z.of_nat (length (strings ++ [str])))
                      ++ concat (map string_chars strings))
                     ++ object_representation (Z.of_nat (String.length str))).
      rewrite length_app, list_ascii_of_string_length.
      replace (length before + String.length str - cut)%nat
        with (length before + (String.length str - cut))%nat by lia.
      now rewrite take_app_add. }
    rewrite Hcontent.
    rewrite read_uint64_written by (eapply allocates_size_t; exact Hcount).
    cbn [Streams.outcome_bind]. rewrite Hcount. cbn [negb].
    rewrite Nat2Z.id, length_app. cbn [length].
    rewrite read_strings_written by exact Hall. cbn [Streams.read_strings].
    rewrite read_string_cut by assumption. reflexivity.
  - intros values cut Hcount Hall Hcut Hfile.
    unfold Streams.read_uint64_vector, Streams.open_for_reading. rewrite Hfile.
    cbn [Streams.outcome_bind]. unfold uint64_vector_file in *.
    rewrite length_app, object_representation_length in *.
    set (available := (8 + length (concat (map object_representation values)) - cut)%nat).
    destruct (Nat.lt_ge_cases available 8) as [Hshort|Hlong].
    + rewrite read_uint64_short; [reflexivity|]. rewrite length_take. lia.
    + rewrite take_app_ge by (rewrite object_representation_length; exact Hlong).
      rewrite read_uint64_written by (eapply allocates_size_t; exact Hcount).
      cbn [Streams.outcome_bind]. rewrite Hcount. cbn [negb]. rewrite Nat2Z.id.
      apply read_uint64s_cut; [exact Hall|].
      rewrite object_representation_length. unfold available. lia.
Qed.

End StreamFacts.

(** *** On a little-endian host *)

Definition empty_filesystem : Streams.filesystem :=
  Streams.mk_filesystem ∅ (fun _ => true).

Lemma three_rows_representable :
  Forall (representable_row (H := little_endian_host)) three_rows.
Proof. repeat constructor; vm_compute; congruence. Qed.

Lemma string_vector_round_trip_witness :
  exists fs' content,
    Streams.write_string_vector (H := little_endian_host) empty_filesystem "keys.bin"
      ["b"; "a"; ""] = inr fs'
    /\ Streams.read_string_vector (H := little_endian_host) fs' "keys.bin"
       = Streams.returned ["b"; "a"; ""]
    /\ Streams.files fs' !! "keys.bin" = Some content
    /\ Z.of_nat (length content) = 34.
Proof.
  destruct (string_vector_round_trip (H := little_endian_host) empty_filesystem "keys.bin"
              ["b"; "a"; ""]) as (_ & _ & Hwritten).
  - vm_compute. reflexivity.
  - repeat constructor.
  - destruct (Hwritten eq_refl) as (fs' & content & Hw & Hr & Hf & Hlen & _).
    exists fs', content. auto.
Defined.

Lemma row_vector_round_trip_witness :
  exists fs',
    Streams.write_row_vector (H := little_endian_host) empty_filesystem "rows.bin" three_rows
    = inr fs'
    /\ Streams.read_row_vector (H := little_endian_host) fs' "rows.bin"
       = Streams.returned three_rows.
Proof.
  destruct (row_vector_round_trip (H := little_endian_host) empty_filesystem "rows.bin"
              three_rows) as (fs' & Hw & Hr & _).
  - reflexivity.
  - vm_compute. reflexivity.
  - exact three_rows_representable.
  - exists fs'. auto.
Defined.

Lemma granule_files_round_trip_witness :
  exists fs' sorted,
    Streams.write_granule (H := little_endian_host) empty_filesystem "./data/part_1"
      sample_granule 0 = inr fs'
    /\ Streams.read_granule (H := little_endian_host) (H0 := reference_sort) fs'
         "./data/part_1" 0 = Streams.returned sorted
    /\ map timestamp (Granule.rows sorted) = [5; 20; 30; 10].
Proof.
  destruct (granule_files_round_trip (H := little_endian_host) (H0 := reference_sort)
              empty_filesystem "./data/part_1" sample_granule 0 "part_1" Disk.empty_dir)
    as (fs' & keys & values & timestamps & Hw & _ & _ & _ & _ & _ & Hr).
  - reflexivity.
  - reflexivity.
  - reflexivity.
  - vm_compute. reflexivity.
  - vm_compute. reflexivity.
  - repeat constructor; vm_compute; congruence.
  - exists fs'. eexists. split; [exact Hw|]. split; [rewrite Hr; vm_compute; reflexivity|].
    vm_compute. reflexivity.
Defined.

Lemma truncated_file_not_reported_witness :
  Streams.read_string_vector (H := little_endian_host)
    (Streams.mk_filesystem
       {["keys.bin" := take 26 (string_vector_file (H := little_endian_host) ["a"; "bcd"])]}
       (fun _ => true)) "keys.bin"
  = Streams.returned ["a"; String "b" (String zero (String zero EmptyString))]
  /\ Streams.read_uint64_vector (H := little_endian_host)
       (Streams.mk_filesystem
          {["ts.bin" := take 23 (uint64_vector_file (H := little_endian_host) [1; 2])]}
          (fun _ => true)) "ts.bin"
     = Streams.indeterminate.
Proof.
  split.
  - apply (proj1 (truncated_file_not_reported (H := little_endian_host)
                    (Streams.mk_filesystem
                       {["keys.bin" := take 26 (string_vector_file (H := little_endian_host)
                                                  ["a"; "bcd"])]}
                       (fun _ => true)) "keys.bin") ["a"] "bcd" 2%nat).
    + vm_compute. reflexivity.
    + repeat constructor.
    + simpl. lia.
    + vm_compute. reflexivity.
  - apply (proj2 (truncated_file_not_reported (H := little_endian_host)
                    (Streams.mk_filesystem
                       {["ts.bin" := take 23 (uint64_vector_file (H := little_endian_host)
                                                [1; 2])]}
                       (fun _ => true)) "ts.bin") [1; 2] 1%nat).
    + vm_compute. reflexivity.
    + repeat constructor; vm_compute; congruence.
    + vm_compute. lia.
    + vm_compute. reflexivity.
Defined.
